(** * Overlap and equivalence-principle PFT in SCUFF-EM: a shallow embedding

    This development embeds [libs/libscuff/OPFT.cc] and [EPPFT.cc] and proves
    properties of the overlap-integral engine, of the cubature / Taylor-Duffy
    matrix-element assembly and of the two reduction routines [GetOPFT] and
    [RWGGeometry::GetEPPFTTrace].

    Conventions of the embedding:
    - a C [double] is an exact rational ([Qc], canonical fractions with
      Leibniz equality); rounding, infinities and NaN are outside the model;
    - a [cdouble] is a pair of doubles with the usual complex arithmetic;
    - C [int]s are [Z]; [a % b] is truncated remainder ([Z.rem]) and [a / b]
      truncated quotient ([Z.quot]); sums and products of [int]s are taken
      in [Z], so the embedding follows the source only while they stay in
      the range of an [int]: the bound [NE*NE] of the pair loop of
      [GetEPPFTTrace] leaves it from 46341 edges on;
    - an array reached through a pointer and a count is a [list]; reading or
      writing it out of range, or through a null pointer, is undefined
      behaviour in C and is an explicit [Fault] here;
    - a nullable pointer argument is an [option];
    - the OpenMP loop of [GetEPPFTTrace] is taken in its sequential
      ([#ifndef USE_OPENMP]) form;
    - [Warn] and [Log] calls are recorded in a list of events. *)

From Stdlib Require Import ZArith QArith Qcanon.
From Stdlib Require Import List Permutation Lia Bool String.
Import ListNotations.

Open Scope Z_scope.

(** ** Doubles and complex doubles *)

#[warnings="-notation-for-abbreviation"]
Notation double := Qc (only parsing).

(** A decimal literal of the source, as the fraction [n/d]. *)
Definition lit (n : Z) (d : positive) : double := Q2Qc (n # d).

Definition double_eqb (x y : double) : bool := Qc_eq_bool x y.

Record cdouble : Type := mkC { real : double; imag : double }.

Module C.
Local Open Scope Qc_scope.

Definition zero : cdouble := mkC 0 0.
Definition one : cdouble := mkC 1 0.
(** [#define II cdouble(0.0,1.0)] *)
Definition II : cdouble := mkC 0 1.
(** implicit conversion [double -> cdouble] *)
Definition of_double (x : double) : cdouble := mkC x 0.

Definition add (z w : cdouble) : cdouble :=
  mkC (real z + real w) (imag z + imag w).
Definition sub (z w : cdouble) : cdouble :=
  mkC (real z - real w) (imag z - imag w).
Definition opp (z : cdouble) : cdouble := mkC (- real z) (- imag z).
Definition mul (z w : cdouble) : cdouble :=
  mkC (real z * real w - imag z * imag w)
      (real z * imag w + imag z * real w).
(** [double * cdouble] and [cdouble * double] scale both components. *)
Definition scale (x : double) (z : cdouble) : cdouble :=
  mkC (x * real z) (x * imag z).
Definition conj (z : cdouble) : cdouble := mkC (real z) (- imag z).
Definition norm2 (z : cdouble) : double :=
  real z * real z + imag z * imag z.
Definition div (z w : cdouble) : cdouble :=
  mkC ((real z * real w + imag z * imag w) / norm2 w)
      ((imag z * real w - real z * imag w) / norm2 w).
(** [cdouble / double] *)
Definition divr (z : cdouble) (x : double) : cdouble :=
  mkC (real z / x) (imag z / x).

Definition eqb (z w : cdouble) : bool :=
  double_eqb (real z) (real w) && double_eqb (imag z) (imag w).
End C.

Declare Scope cplx_scope.
Delimit Scope cplx_scope with C.
Bind Scope cplx_scope with cdouble.
Infix "+" := C.add : cplx_scope.
Infix "-" := C.sub : cplx_scope.
Infix "*" := C.mul : cplx_scope.
Infix "/" := C.div : cplx_scope.
Notation "- z" := (C.opp z) : cplx_scope.
Infix "*:" := C.scale (at level 40, left associativity).

(** ** Fixed arrays of three components ([double x[3]], [int VI[3]]) *)

Record V3 (A : Type) : Type := mkV3 { c0 : A; c1 : A; c2 : A }.
Arguments mkV3 {A} _ _ _.
Arguments c0 {A} _.
Arguments c1 {A} _.
Arguments c2 {A} _.

(** [v[Mu]] for a loop index [Mu] of [for(Mu=0; Mu<3; Mu++)]. *)
Definition vnth {A} (v : V3 A) (Mu : Z) : A :=
  match Mu with 0 => c0 v | 1 => c1 v | _ => c2 v end.

(** The result of [for(Mu=0; Mu<3; Mu++) out[Mu] = f Mu]. *)
Definition build3 {A} (f : Z -> A) : V3 A := mkV3 (f 0) (f 1) (f 2).

Definition v3map2 {A B D} (f : A -> B -> D) (u : V3 A) (v : V3 B) : V3 D :=
  mkV3 (f (c0 u) (c0 v)) (f (c1 u) (c1 v)) (f (c2 u) (c2 v)).

Definition v3_eqb {A} (eqb : A -> A -> bool) (u v : V3 A) : bool :=
  eqb (c0 u) (c0 v) && eqb (c1 u) (c1 v) && eqb (c2 u) (c2 v).

Definition Vec3 : Type := V3 double.
Definition CVec3 : Type := V3 cdouble.

Definition vzero : Vec3 := mkV3 0%Qc 0%Qc 0%Qc.
Definition cvzero : CVec3 := mkV3 C.zero C.zero C.zero.

(** ** Faults and the result monad *)

Inductive fault : Type :=
| NullPointer   (* a null pointer was dereferenced *)
| OutOfBounds.  (* an array was indexed outside its extent *)

Inductive result (A : Type) : Type :=
| Ok (a : A)
| Fault (f : fault).
Arguments Ok {A} _.
Arguments Fault {A} _.

Definition bind {A B} (r : result A) (k : A -> result B) : result B :=
  match r with
  | Ok a => k a
  | Fault f => Fault f
  end.

Notation "x <- e ;; k" := (bind e (fun x => k))
  (at level 61, e at next level, right associativity).
Notation "' pat <- e ;; k" := (bind e (fun x => match x with pat => k end))
  (at level 61, pat pattern, e at next level, right associativity).

(** [a[i]] for an array held as a list. *)
Definition aget {A} (a : list A) (i : Z) : result A :=
  if i <? 0 then Fault OutOfBounds
  else match nth_error a (Z.to_nat i) with
       | Some x => Ok x
       | None => Fault OutOfBounds
       end.

(** [v[i]] for a three-element array and a data-dependent index. *)
Definition v3get {A} (v : V3 A) (i : Z) : result A :=
  match i with
  | 0 => Ok (c0 v)
  | 1 => Ok (c1 v)
  | 2 => Ok (c2 v)
  | _ => Fault OutOfBounds
  end.

(** Dereference of a nullable pointer. *)
Definition deref {A} (p : option A) : result A :=
  match p with
  | Some x => Ok x
  | None => Fault NullPointer
  end.

(** [for(i=0; i<n; i++) body], threading a state through the iterations. *)
Fixpoint for_each {I St} (body : I -> St -> result St) (idx : list I) (s : St)
  : result St :=
  match idx with
  | [] => Ok s
  | i :: rest => s' <- body i s ;; for_each body rest s'
  end.

Definition range (n : Z) : list Z := map Z.of_nat (seq 0 (Z.to_nat n)).

Definition for_loop {St} (n : Z) (body : Z -> St -> result St) (s : St)
  : result St :=
  for_each body (range n) s.

(** ** Events *)

Inductive Event : Type :=
| EvWarn (fmt : string)
| EvLog (fmt : string).

(** ** Data model (declarations of [libscuff.h] that the two files use) *)

(** [RWGPanel]: vertex indices, edge indices, unit normal and area. *)
Record RWGPanel : Type := mkPanel {
  VI : V3 Z;
  EI : V3 Z;
  ZHat : Vec3;
  Area : double
}.

(** [RWGEdge]: an RWG basis function.  [iMPanel = -1] (and [iQM = -1])
    marks an edge without a negative panel. *)
Record RWGEdge : Type := mkEdge {
  iV1 : Z; iV2 : Z; iQP : Z; iQM : Z;
  iPPanel : Z; iMPanel : Z;
  PIndex : Z; MIndex : Z;
  Length : double
}.

(** [GTransformation], through its [Apply] method on a point. *)
Definition GTransformation : Type := Vec3 -> Vec3.

(** [RWGSurface].  [Vertices] is the array of vertex coordinates (the flat
    [double] array of the source read three at a time); [NumEdges] is the
    length of [Edges]. *)
Record RWGSurface : Type := mkSurface {
  Vertices : list Vec3;
  Panels : list RWGPanel;
  Edges : list RWGEdge;
  IsPEC : bool;
  RegionIndices : Z * Z;
  OTGT : option GTransformation;
  GT : option GTransformation
}.

(** [S->NumEdges], the length of [Edges]. *)
Definition NumEdges (S : RWGSurface) : Z := Z.of_nat (List.length (Edges S)).

(** [MatProp], through its [GetEpsMu] method: the frequency is mapped to
    the pair (Eps, Mu). *)
Definition MatProp : Type := cdouble -> cdouble * cdouble.

(** [HVector] and [HMatrix] of libhmat, through their [GetEntry] methods. *)
Definition HVector : Type := Z -> cdouble.
Definition HMatrix : Type := Z -> Z -> cdouble.

Record RWGGeometry : Type := mkGeometry {
  Surfaces : list RWGSurface;
  BFIndexOffset : list Z;
  RegionMPs : list MatProp
}.

(** [G->NumSurfaces], the length of [Surfaces]. *)
Definition NumSurfaces (G : RWGGeometry) : Z :=
  Z.of_nat (List.length (Surfaces G)).

(** The optional per-edge breakdown [double **ByEdge]: a nullable array of
    nullable rows. *)
Definition ByEdgeArrays : Type := option (list (option (list double))).

(** Reduced potentials returned by [GetReducedPotentials_Nearby]. *)
Record Potentials : Type := mkPotentials {
  pot_p : cdouble;
  pot_a : CVec3;
  pot_dp : CVec3;
  pot_da : V3 CVec3;
  pot_ddp : V3 CVec3;
  pot_dcurla : V3 CVec3
}.

(** The fields of [TaylorDuffyArgStruct] that [GetEPPFTMatrixElements_TD]
    assigns; the remaining ones keep the defaults of
    [InitTaylorDuffyArgs]. *)
Record TaylorDuffyArgStruct : Type := mkTDArgs {
  WhichCase : Z;
  NumPKs : Z;
  TD_PIndex : list Z;
  TD_KIndex : list Z;
  TD_KParam : list cdouble;
  TD_V1 : Vec3; TD_V2 : Vec3; TD_V3 : Vec3;
  TD_V2P : Vec3; TD_V3P : Vec3;
  TD_Q : Vec3; TD_QP : Vec3;
  TD_nHat : Vec3
}.

(** What [AssessPanelPair] hands back: the number of common vertices, the
    relative distance and the two reordered vertex triples. *)
Record PanelPairAssessment : Type := mkAssessment {
  ncv : Z;
  rRel : double;
  Va : V3 Vec3;
  Vb : V3 Vec3
}.

(** ** Collaborators

    Everything the two files call or read but do not define: constants and
    helpers of [libscuff.h], [libhrutil], [libTriInt], [TaylorDuffy.h] and
    the C library. *)
Class Collaborators : Type := {
  ZVAC : double;
  csqrt : cdouble -> cdouble;
  VecSub : Vec3 -> Vec3 -> Vec3;
  VecCross : Vec3 -> Vec3 -> Vec3;
  GetReducedPotentials_Nearby :
    RWGGeometry -> Z -> Z -> Z -> Vec3 -> cdouble -> Potentials;
  (** [GetTCR(Order, &NumPts)]: the number of points and the table. *)
  GetTCR : Z -> Z * list double;
  AssessPanelPair : RWGSurface -> Z -> RWGSurface -> Z -> PanelPairAssessment;
  (** [TaylorDuffy(Args)] fills [Args->Result]; the entry [Result[i]]. *)
  TaylorDuffy : TaylorDuffyArgStruct -> Z -> cdouble;
  TD_EPPFT1 : Z; TD_EPPFT2 : Z; TD_EPPFT3 : Z;
  TD_EPPFT4 : Z; TD_EPPFT5 : Z; TD_EPPFT6 : Z;
  TD_HELMHOLTZ : Z; TD_GRADHELMHOLTZ : Z;
  getenv : string -> option string;
  LogLevel : Z;
  SCUFF_VERBOSE2 : Z
}.

(** Modelled from the spec: the constant [NUMPFT] that OPFT.cc takes from
    [libscuff.h] is missing; the PFT breakdown has "7 arrays of length =
    edge count", which is also the value EPPFT.cc defines for itself. *)
Definition NUMPFT : Z := 7.

(** * OPFT.cc *)

Definition OVERLAP_OVERLAP : nat := 0.
Definition OVERLAP_CROSS : nat := 1.
Definition OVERLAP_BULLET_X : nat := 2.
Definition OVERLAP_NABLANABLA_X : nat := 3.
Definition OVERLAP_TIMESNABLA_X : nat := 4.
Definition OVERLAP_BULLET_Y : nat := 5.
Definition OVERLAP_NABLANABLA_Y : nat := 6.
Definition OVERLAP_TIMESNABLA_Y : nat := 7.
Definition OVERLAP_BULLET_Z : nat := 8.
Definition OVERLAP_NABLANABLA_Z : nat := 9.
Definition OVERLAP_TIMESNABLA_Z : nat := 10.
Definition OVERLAP_RXBULLET_X : nat := 11.
Definition OVERLAP_RXNABLANABLA_X : nat := 12.
Definition OVERLAP_RXTIMESNABLA_X : nat := 13.
Definition OVERLAP_RXBULLET_Y : nat := 14.
Definition OVERLAP_RXNABLANABLA_Y : nat := 15.
Definition OVERLAP_RXTIMESNABLA_Y : nat := 16.
Definition OVERLAP_RXBULLET_Z : nat := 17.
Definition OVERLAP_RXNABLANABLA_Z : nat := 18.
Definition OVERLAP_RXTIMESNABLA_Z : nat := 19.

Definition NUMOVERLAPS : nat := 20.

(** [#define TENTHIRDS 3.33333333333333333333333] of OPFT.cc. *)
Definition OPFT_TENTHIRDS : double :=
  lit 333333333333333333333333 100000000000000000000000.

(** An integer-valued literal such as [2.0] or [12.0]. *)
Definition D (n : Z) : double := lit n 1.

(** [a[i] += x] and [a[i] -= x] on a local array of doubles. *)
Fixpoint add_to (i : nat) (x : double) (a : list double) : list double :=
  match a, i with
  | [], _ => []
  | y :: a', O => (y + x)%Qc :: a'
  | y :: a', S i' => y :: add_to i' x a'
  end.

Definition sub_from (i : nat) (x : double) (a : list double) : list double :=
  add_to i (- x)%Qc a.

(** [Overlaps[i]] on the local [double Overlaps[20]]. *)
Definition ov (Overlaps : list double) (i : nat) : double :=
  nth i Overlaps 0%Qc.

Section OPFT.
Context {X : Collaborators}.
Local Open Scope Qc_scope.

(** The contributions of a single panel to the overlap integrals. *)
Definition AddOverlapContributions (S : RWGSurface) (P : RWGPanel)
    (iQa iQb : Z) (Sign LL : double) (Overlaps : list double)
  : result (list double) :=
  viQa <- v3get (VI P) iQa ;;
  Qa <- aget (Vertices S) viQa ;;
  viQaP1 <- v3get (VI P) (Z.rem (iQa + 1) 3) ;;
  QaP1 <- aget (Vertices S) viQaP1 ;;
  viQaP2 <- v3get (VI P) (Z.rem (iQa + 2) 3) ;;
  QaP2 <- aget (Vertices S) viQaP2 ;;
  viQb <- v3get (VI P) iQb ;;
  Qb <- aget (Vertices S) viQb ;;
  let ZHat := ZHat P in
  let L1 := VecSub QaP1 Qa in
  let L2 := VecSub QaP2 QaP1 in
  let DQ := VecSub Qa Qb in
  let ZxL1 := VecCross ZHat L1 in
  let ZxL2 := VecCross ZHat L2 in
  let ZxDQ := VecCross ZHat DQ in
  let ZxQa := VecCross ZHat Qa in
  let QaxZxL1 := VecCross Qa ZxL1 in
  let QaxZxL2 := VecCross Qa ZxL2 in
  let PreFac := Sign * LL / (D 2 * Area P) in
  let L1dL1 := c0 L1 * c0 L1 + c1 L1 * c1 L1 + c2 L1 * c2 L1 in
  let L1dL2 := c0 L1 * c0 L2 + c1 L1 * c1 L2 + c2 L1 * c2 L2 in
  let L1dDQ := c0 L1 * c0 DQ + c1 L1 * c1 DQ + c2 L1 * c2 DQ in
  let L2dL2 := c0 L2 * c0 L2 + c1 L2 * c1 L2 + c2 L2 * c2 L2 in
  let L2dDQ := c0 L2 * c0 DQ + c1 L2 * c1 DQ + c2 L2 * c2 DQ in
  let TimesFactor :=
    ((D 2 * c0 L1 + c0 L2) * c0 ZxDQ
     + (D 2 * c1 L1 + c1 L2) * c1 ZxDQ
     + (D 2 * c2 L1 + c2 L2) * c2 ZxDQ) / D 6 in
  let BulletFactor1 :=
    (L1dL1 + L1dL2) / D 4 + L1dDQ / D 3 + L2dL2 / D 12 + L2dDQ / D 6 in
  let BulletFactor2 :=
    (L1dL1 + L1dL2) / D 5 + L1dDQ / D 4 + L2dL2 / D 15 + L2dDQ / D 8 in
  let BulletFactor3 :=
    L1dL1 / D 10 + D 2 * L1dL2 / D 15 + L1dDQ / D 8 + L2dL2 / D 20
    + L2dDQ / D 12 in
  let NablaCrossFactor := (L1dL1 + L1dL2) / D 2 + L2dL2 / D 6 in
  let O := Overlaps in
  let O := add_to 0 (PreFac * BulletFactor1) O in
  let O := add_to 1 (PreFac * TimesFactor) O in
  let O := add_to 2 (PreFac * c0 ZHat * BulletFactor1) O in
  let O := add_to 3 (PreFac * c0 ZHat * D 2) O in
  let O := add_to 4 (PreFac * (D 2 * c0 ZxL1 + c0 ZxL2) / D 3) O in
  let O := add_to 5 (PreFac * c1 ZHat * BulletFactor1) O in
  let O := add_to 6 (PreFac * c1 ZHat * D 2) O in
  let O := add_to 7 (PreFac * (D 2 * c1 ZxL1 + c1 ZxL2) / D 3) O in
  let O := add_to 8 (PreFac * c2 ZHat * BulletFactor1) O in
  let O := add_to 9 (PreFac * c2 ZHat * D 2) O in
  let O := add_to 10 (PreFac * (D 2 * c2 ZxL1 + c2 ZxL2) / D 3) O in
  let O := sub_from 11 (PreFac * (c0 ZxQa * BulletFactor1
                                  + c0 ZxL1 * BulletFactor2
                                  + c0 ZxL2 * BulletFactor3)) O in
  let O := sub_from 12 (PreFac * (D 2 * c0 ZxQa + D 4 * c0 ZxL1 / D 3
                                  + D 2 * c0 ZxL2 / D 3)) O in
  let O := add_to 13 (PreFac * (c0 ZHat * NablaCrossFactor
                                + D 2 * c0 QaxZxL1 / D 3
                                + c0 QaxZxL2 / D 3)) O in
  let O := sub_from 14 (PreFac * (c1 ZxQa * BulletFactor1
                                  + c1 ZxL1 * BulletFactor2
                                  + c1 ZxL2 * BulletFactor3)) O in
  let O := sub_from 15 (PreFac * (D 2 * c1 ZxQa + D 4 * c1 ZxL1 / D 3
                                  + D 2 * c1 ZxL2 / D 3)) O in
  let O := add_to 16 (PreFac * (c1 ZHat * NablaCrossFactor
                                + D 2 * c1 QaxZxL1 / D 3
                                + c1 QaxZxL2 / D 3)) O in
  let O := sub_from 17 (PreFac * (c2 ZxQa * BulletFactor1
                                  + c2 ZxL1 * BulletFactor2
                                  + c2 ZxL2 * BulletFactor3)) O in
  let O := sub_from 18 (PreFac * (D 2 * c2 ZxQa + D 4 * c2 ZxL1 / D 3
                                  + D 2 * c2 ZxL2 / D 3)) O in
  let O := add_to 19 (PreFac * (c2 ZHat * NablaCrossFactor
                                + D 2 * c2 QaxZxL1 / D 3
                                + c2 QaxZxL2 / D 3)) O in
  Ok O.

(** [RWGSurface::GetOverlaps]: the overlap integrals between a pair of RWG
    basis functions of one surface. *)
Definition GetOverlaps (S : RWGSurface) (neAlpha neBeta : Z)
  : result (list double) :=
  EAlpha <- aget (Edges S) neAlpha ;;
  EBeta <- aget (Edges S) neBeta ;;
  PAlphaP <- aget (Panels S) (iPPanel EAlpha) ;;
  PAlphaM <- (if iMPanel EAlpha =? -1 then Ok None
              else P <- aget (Panels S) (iMPanel EAlpha) ;; Ok (Some P)) ;;
  let iQPAlpha := PIndex EAlpha in
  let iQMAlpha := MIndex EAlpha in
  let iQPBeta := PIndex EBeta in
  let iQMBeta := MIndex EBeta in
  let LL := Length EAlpha * Length EBeta in
  let Overlaps := repeat 0 NUMOVERLAPS in
  Overlaps <-
    (if iPPanel EAlpha =? iPPanel EBeta
     then AddOverlapContributions S PAlphaP iQPAlpha iQPBeta 1 LL Overlaps
     else Ok Overlaps) ;;
  Overlaps <-
    (if iPPanel EAlpha =? iMPanel EBeta
     then AddOverlapContributions S PAlphaP iQPAlpha iQMBeta (- (1)) LL Overlaps
     else Ok Overlaps) ;;
  Overlaps <-
    (if negb (iMPanel EAlpha =? -1) && (iMPanel EAlpha =? iPPanel EBeta)
     then P <- deref PAlphaM ;;
          AddOverlapContributions S P iQMAlpha iQPBeta (- (1)) LL Overlaps
     else Ok Overlaps) ;;
  Overlaps <-
    (if negb (iMPanel EAlpha =? -1) && (iMPanel EAlpha =? iMPanel EBeta)
     then P <- deref PAlphaM ;;
          AddOverlapContributions S P iQMAlpha iQMBeta 1 LL Overlaps
     else Ok Overlaps) ;;
  Ok Overlaps.

(** [RWGSurface::GetOverlap]: the plain overlap, and the crossed overlap
    when [pOTimes] is non-null. *)
Definition GetOverlap (S : RWGSurface) (neAlpha neBeta : Z) (pOTimes : bool)
  : result (double * option double) :=
  Overlaps <- GetOverlaps S neAlpha neBeta ;;
  Ok (ov Overlaps 0, if pOTimes then Some (ov Overlaps 1) else None).

(** [a[i] = x] on an [int] array. *)
Definition aset {A} (a : list A) (i : nat) (x : A) : result (list A) :=
  if (i <? List.length a)%nat then Ok (firstn i a ++ x :: skipn (S i) a)
  else Fault OutOfBounds.

(** [GetOverlappingEdgeIndices]: the return value and the array
    [nebArray] after the call. *)
Definition GetOverlappingEdgeIndices (S : RWGSurface) (nea : Z)
    (nebArray : list Z) : result (Z * list Z) :=
  nebArray <- aset nebArray 0 nea ;;
  E <- aget (Edges S) nea ;;
  PP <- aget (Panels S) (iPPanel E) ;;
  let iQP := PIndex E in
  e1 <- v3get (EI PP) (Z.rem (iQP + 1) 3) ;;
  nebArray <- aset nebArray 1 e1 ;;
  e2 <- v3get (EI PP) (Z.rem (iQP + 2) 3) ;;
  nebArray <- aset nebArray 2 e2 ;;
  if iMPanel E =? -1 then Ok (3%Z, nebArray)
  else
    PM <- aget (Panels S) (iMPanel E) ;;
    let iQM := MIndex E in
    e3 <- v3get (EI PM) (Z.rem (iQM + 1) 3) ;;
    nebArray <- aset nebArray 3 e3 ;;
    e4 <- v3get (EI PM) (Z.rem (iQM + 2) 3) ;;
    nebArray <- aset nebArray 4 e4 ;;
    Ok (5%Z, nebArray).

End OPFT.

(** ** The reduction routine [GetOPFT] *)

(** The running totals [PAbs, Fx, Fy, Fz, Taux, Tauy, Tauz], and equally the
    contributions [dPAbs, dF[0..2], dTau[0..2]] of one pair. *)
Record PFTSums : Type := mkSums {
  PAbs : double;
  Fx : double; Fy : double; Fz : double;
  Taux : double; Tauy : double; Tauz : double
}.

Definition zero_sums : PFTSums := mkSums 0%Qc 0%Qc 0%Qc 0%Qc 0%Qc 0%Qc 0%Qc.

(** [PAbs += dPAbs; Fx += dF[0]; ... Tauz += dTau[2]]. *)
Definition add_sums (s d : PFTSums) : PFTSums :=
  (mkSums (PAbs s + PAbs d)
          (Fx s + Fx d) (Fy s + Fy d) (Fz s + Fz d)
          (Taux s + Taux d) (Tauy s + Tauy d) (Tauz s + Tauz d))%Qc.

(** The four current products [KK, KN, NK, NN]. *)
Record CurrentProducts : Type := mkCP {
  KK : cdouble; KN : cdouble; NK : cdouble; NN : cdouble
}.

(** [memset(row, 0, NE*sizeof(double))]. *)
Definition memset_row (NE : Z) (row : list double) : result (list double) :=
  let n := Z.to_nat NE in
  if (n <=? List.length row)%nat then Ok (repeat 0%Qc n ++ skipn n row)
  else Fault OutOfBounds.

(** [for(nq=0; nq<NUMPFT; nq++) if (ByEdge[nq]) memset(ByEdge[nq],0,...)],
    under [if (ByEdge)]. *)
Definition ZeroByEdge (NE : Z) (ByEdge : ByEdgeArrays) : result ByEdgeArrays :=
  match ByEdge with
  | None => Ok None
  | Some rows =>
      rows <- for_loop NUMPFT
                (fun nq rows =>
                   r <- aget rows nq ;;
                   match r with
                   | None => Ok rows
                   | Some row =>
                       row <- memset_row NE row ;;
                       aset rows (Z.to_nat nq) (Some row)
                   end) rows ;;
      Ok (Some rows)
  end.

(** [if (ByEdge[q]) ByEdge[q][nea] += d]. *)
Definition ByEdgeAdd (q : Z) (nea : Z) (d : double)
    (rows : list (option (list double)))
  : result (list (option (list double))) :=
  r <- aget rows q ;;
  match r with
  | None => Ok rows
  | Some row =>
      x <- aget row nea ;;
      row <- aset row (Z.to_nat nea) (x + d)%Qc ;;
      aset rows (Z.to_nat q) (Some row)
  end.

(** The block "accumulate contributions to by-edge sums". *)
Definition AccumulateByEdge (nea : Z) (d : PFTSums) (ByEdge : ByEdgeArrays)
  : result ByEdgeArrays :=
  match ByEdge with
  | None => Ok None
  | Some rows =>
      rows <- ByEdgeAdd 0 nea (PAbs d) rows ;;
      rows <- ByEdgeAdd 1 nea (Fx d) rows ;;
      rows <- ByEdgeAdd 2 nea (Fy d) rows ;;
      rows <- ByEdgeAdd 3 nea (Fz d) rows ;;
      rows <- ByEdgeAdd 4 nea (Taux d) rows ;;
      rows <- ByEdgeAdd 5 nea (Tauy d) rows ;;
      rows <- ByEdgeAdd 6 nea (Tauz d) rows ;;
      Ok (Some rows)
  end.

(** [a[i] = x] on an array known to hold index [i]. *)
Fixpoint store {A} (a : list A) (i : nat) (x : A) : list A :=
  match a, i with
  | [], _ => []
  | _ :: a', O => x :: a'
  | y :: a', S i' => y :: store a' i' x
  end.

(** What the two entry points hand back: the array [PFT], the arrays
    behind [ByEdge] and the events emitted. *)
Record PFTOutput : Type := mkOutput {
  PFT : list double;
  ByEdgeOut : ByEdgeArrays;
  Events : list Event
}.

Section GetOPFT.
Context {X : Collaborators}.

(** The branches that fill [KK, KN, NK, NN] for the pair [(nea, neb)]. *)
Definition OPFT_CurrentProducts (S : RWGSurface) (Offset : Z)
    (KNVector : option HVector) (RytovMatrix : option HMatrix) (nea neb : Z)
  : result CurrentProducts :=
  match KNVector with
  | Some KNV =>
      if IsPEC S then
        let kAlpha := KNV (Offset + nea) in
        let kBeta := KNV (Offset + neb) in
        Ok (mkCP (C.conj kAlpha * kBeta)%C C.zero C.zero C.zero)
      else
        let kAlpha := KNV (Offset + 2 * nea + 0) in
        let nAlpha := (- ZVAC)%Qc *: KNV (Offset + 2 * nea + 1) in
        let kBeta := KNV (Offset + 2 * neb + 0) in
        let nBeta := (- ZVAC)%Qc *: KNV (Offset + 2 * neb + 1) in
        Ok (mkCP (C.conj kAlpha * kBeta)%C (C.conj kAlpha * nBeta)%C
                 (C.conj nAlpha * kBeta)%C (C.conj nAlpha * nBeta)%C)
  | None =>
      Rytov <- deref RytovMatrix ;;
      Ok (mkCP (Rytov (Offset + 2 * neb + 0) (Offset + 2 * nea + 0))
               (Rytov (Offset + 2 * neb + 1) (Offset + 2 * nea + 0))
               (Rytov (Offset + 2 * neb + 0) (Offset + 2 * nea + 1))
               (Rytov (Offset + 2 * neb + 1) (Offset + 2 * nea + 1)))
  end.

(** One force or torque component:
    [0.25*TENTHIRDS*real( -(KK*ZZ + NN/ZZ)*(O[b] - O[nn]/k2)
                          +(NK-KN)*2.0*O[tn] / (II*Omega) )]. *)
Definition OPFT_component (cp : CurrentProducts) (ZZ k2 Omega : cdouble)
    (Overlaps : list double) (b nn tn : nat) : double :=
  (lit 1 4 * OPFT_TENTHIRDS
   * real ((- (KK cp * ZZ + NN cp / ZZ))
           * (C.of_double (ov Overlaps b) - C.of_double (ov Overlaps nn) / k2)
           + (ov Overlaps tn *: (D 2 *: (NK cp - KN cp))) / (C.II * Omega))%C
  )%Qc.

(** The power, force and torque contributions of one pair. *)
Definition OPFT_PairContribution (cp : CurrentProducts) (ZZ k2 Omega : cdouble)
    (Overlaps : list double) : PFTSums :=
  let dPAbs :=
    (lit 1 4 * real (ov Overlaps OVERLAP_CROSS *: (KN cp - NK cp)%C))%Qc in
  let comp := OPFT_component cp ZZ k2 Omega Overlaps in
  mkSums dPAbs
    (comp OVERLAP_BULLET_X OVERLAP_NABLANABLA_X OVERLAP_TIMESNABLA_X)
    (comp OVERLAP_BULLET_Y OVERLAP_NABLANABLA_Y OVERLAP_TIMESNABLA_Y)
    (comp OVERLAP_BULLET_Z OVERLAP_NABLANABLA_Z OVERLAP_TIMESNABLA_Z)
    (comp OVERLAP_RXBULLET_X OVERLAP_RXNABLANABLA_X OVERLAP_RXTIMESNABLA_X)
    (comp OVERLAP_RXBULLET_Y OVERLAP_RXNABLANABLA_Y OVERLAP_RXTIMESNABLA_Y)
    (comp OVERLAP_RXBULLET_Z OVERLAP_RXNABLANABLA_Z OVERLAP_RXTIMESNABLA_Z).

(** The body of the inner loop [for(nneb=0; nneb<nebCount; nneb++)]. *)
Definition OPFT_InnerBody (S : RWGSurface) (Offset : Z)
    (Omega ZZ k2 : cdouble)
    (KNVector : option HVector) (RytovMatrix : option HMatrix)
    (nea : Z) (nebArray : list Z) (nneb : Z) (st : PFTSums * ByEdgeArrays)
  : result (PFTSums * ByEdgeArrays) :=
  let '(sums, ByEdge) := st in
  neb <- aget nebArray nneb ;;
  Overlaps <- GetOverlaps S nea neb ;;
  cp <- OPFT_CurrentProducts S Offset KNVector RytovMatrix nea neb ;;
  let d := OPFT_PairContribution cp ZZ k2 Omega Overlaps in
  let sums := add_sums sums d in
  ByEdge <- AccumulateByEdge nea d ByEdge ;;
  Ok (sums, ByEdge).

(** The body of the outer loop [for(nea=0; nea<NE; nea++)]. *)
Definition OPFT_OuterBody (S : RWGSurface) (Offset : Z)
    (Omega ZZ k2 : cdouble)
    (KNVector : option HVector) (RytovMatrix : option HMatrix)
    (nea : Z) (st : PFTSums * ByEdgeArrays)
  : result (PFTSums * ByEdgeArrays) :=
  '(nebCount, nebArray) <- GetOverlappingEdgeIndices S nea (repeat 0 5) ;;
  for_loop nebCount
    (OPFT_InnerBody S Offset Omega ZZ k2 KNVector RytovMatrix nea nebArray) st.

(** The body of the extinction loop [for (ne=0, nbf=0; ne<NE; ne++)], on
    the state [(nbf, Extinction)]. *)
Definition OPFT_ExtinctionBody (S : RWGSurface) (Offset : Z)
    (KNV RHSV : HVector) (st : Z * double) : Z * double :=
  let '(nbf, Extinction) := st in
  let kAlpha := KNV (Offset + nbf) in
  let vEAlpha := (- ZVAC)%Qc *: RHSV (Offset + nbf) in
  let nbf := nbf + 1 in
  let Extinction :=
    (Extinction + lit 1 2 * real (C.conj kAlpha * vEAlpha)%C)%Qc in
  if IsPEC S then (nbf, Extinction)
  else
    let nAlpha := (- ZVAC)%Qc *: KNV (Offset + nbf) in
    let vHAlpha := (- (1))%Qc *: RHSV (Offset + nbf) in
    let nbf := nbf + 1 in
    let Extinction :=
      (Extinction + lit 1 2 * real (C.conj nAlpha * vHAlpha)%C)%Qc in
    (nbf, Extinction).

Definition OPFT_Extinction (S : RWGSurface) (Offset : Z) (KNV RHSV : HVector)
  : double :=
  snd (fold_left (fun st _ => OPFT_ExtinctionBody S Offset KNV RHSV st)
                 (range (NumEdges S)) (0, 0%Qc)).

Definition GetOPFT (G : RWGGeometry) (SurfaceIndex : Z) (Omega : cdouble)
    (KNVector RHS : option HVector) (RytovMatrix : option HMatrix)
    (ByEdge : ByEdgeArrays) : result PFTOutput :=
  if (SurfaceIndex <? 0) || (SurfaceIndex >=? NumSurfaces G) then
    Ok (mkOutput (repeat 0%Qc 8) ByEdge
                 [EvWarn "GetOPFT called for unknown surface #i"])
  else
    S <- aget (Surfaces G) SurfaceIndex ;;
    Offset <- aget (BFIndexOffset G) SurfaceIndex ;;
    let NE := NumEdges S in
    (* material parameters of the exterior medium *)
    let ZZ := C.of_double ZVAC in
    let k2 := (Omega * Omega)%C in
    MP <- aget (RegionMPs G) (fst (RegionIndices S)) ;;
    let '(Eps, Mu) := MP Omega in
    let k2 := (k2 * (Eps * Mu))%C in
    let ZZ := (ZZ * csqrt (Mu / Eps))%C in
    (* initialize edge-by-edge contributions to zero *)
    ByEdge <- ZeroByEdge NE ByEdge ;;
    (* loop over the edges and their overlapping edges *)
    '(sums, ByEdge) <-
      for_loop NE
        (OPFT_OuterBody S Offset Omega ZZ k2 KNVector RytovMatrix)
        (zero_sums, ByEdge) ;;
    let PFT := [PAbs sums; 0%Qc; Fx sums; Fy sums; Fz sums;
                Taux sums; Tauy sums; Tauz sums] in
    (* the extinction, when an RHS vector was specified *)
    let PFT :=
      match KNVector, RHS with
      | Some KNV, Some RHSV =>
          let Extinction := OPFT_Extinction S Offset KNV RHSV in
          store PFT 1 (Extinction - nth 0 PFT 0)%Qc
      | _, _ => PFT
      end in
    Ok (mkOutput PFT ByEdge []).

End GetOPFT.

(** * EPPFT.cc *)

(** [#define TENTHIRDS (10.0/3.0)] of EPPFT.cc. *)
Definition EPPFT_TENTHIRDS : double := (D 10 / D 3)%Qc.

(** The eight kinds of matrix element (ten output arguments). *)
Record MatrixElements : Type := mkME {
  be : cdouble; bh : cdouble;
  divbe : CVec3; divbh : CVec3;
  bxe : CVec3; bxh : CVec3;
  divbrxe : CVec3; divbrxh : CVec3;
  rxbxe : CVec3; rxbxh : CVec3
}.

Definition zero_ME : MatrixElements :=
  mkME C.zero C.zero cvzero cvzero cvzero cvzero cvzero cvzero cvzero cvzero.

(** [bool OmitPanelPair[2][2]]; the first index is the source panel
    (0 positive, 1 negative), the second the field panel. *)
Record PanelPairMask : Type := mkMask {
  omit00 : bool; omit01 : bool; omit10 : bool; omit11 : bool
}.

Definition no_omission : PanelPairMask := mkMask false false false false.

(** [OmitPanelPair[A][B]] and [OmitPanelPair[A][B] = true] for loop
    indices [A], [B] of [for(..=0; ..<2; ..++)]. *)
Definition omitted (m : PanelPairMask) (A B : Z) : bool :=
  match A, B with
  | 0, 0 => omit00 m
  | 0, _ => omit01 m
  | _, 0 => omit10 m
  | _, _ => omit11 m
  end.

Definition set_omitted (m : PanelPairMask) (A B : Z) : PanelPairMask :=
  match A, B with
  | 0, 0 => mkMask true (omit01 m) (omit10 m) (omit11 m)
  | 0, _ => mkMask (omit00 m) true (omit10 m) (omit11 m)
  | _, 0 => mkMask (omit00 m) (omit01 m) true (omit11 m)
  | _, _ => mkMask (omit00 m) (omit01 m) (omit10 m) true
  end.

(** [v[Mu] += x] for a loop index [Mu]. *)
Definition vadd_at (v : CVec3) (Mu : Z) (x : cdouble) : CVec3 :=
  match Mu with
  | 0 => mkV3 (c0 v + x)%C (c1 v) (c2 v)
  | 1 => mkV3 (c0 v) (c1 v + x)%C (c2 v)
  | _ => mkV3 (c0 v) (c1 v) (c2 v + x)%C
  end.

(** [s = 0.0; for(Mu=0; Mu<3; Mu++) s += f Mu]. *)
Definition dsum3 (f : Z -> double) : double := (0 + f 0%Z + f 1%Z + f 2%Z)%Qc.
Definition csum3 (f : Z -> cdouble) : cdouble :=
  (C.zero + f 0%Z + f 1%Z + f 2%Z)%C.

(** The geometric quantities of one cubature point (the first block of
    the loop over [np]). *)
Record PointGeometry : Type := mkPG {
  pg_w : double;
  bPlus : Vec3; XPlus : Vec3; XPmX0 : Vec3; XPmX0dotb : double;
  bMinus : Vec3; XMinus : Vec3; XMmX0 : Vec3; XMmX0dotb : double
}.

(** The reduced fields of the four panel pairs at one cubature point. *)
Record NearbyFields : Type := mkNF {
  ePP : CVec3; hPP : CVec3;
  ePM : CVec3; hPM : CVec3;
  eMP : CVec3; hMP : CVec3;
  eMM : CVec3; hMM : CVec3
}.

Section EPPFT.
Context {X : Collaborators}.

Definition GetReducedFields_Nearby (G : RWGGeometry) (ns np iQ : Z)
    (X0 : Vec3) (k : cdouble) : CVec3 * CVec3 :=
  let pot := GetReducedPotentials_Nearby G ns np iQ X0 k in
  let a := pot_a pot in
  let dp := pot_dp pot in
  let da := pot_da pot in
  let k2 := (k * k)%C in
  let e := mkV3 (c0 a + c0 dp / k2)%C
                (c1 a + c1 dp / k2)%C
                (c2 a + c2 dp / k2)%C in
  let h := mkV3 (c2 (c1 da) - c1 (c2 da))%C
                (c0 (c2 da) - c2 (c0 da))%C
                (c1 (c0 da) - c0 (c1 da))%C in
  (e, h).

(** The point [np] of the cubature rule [TCR] on the two panels of [Ea]
    ([ncp] of the source is [3*np] at the top of the body). *)
Definition CubaturePoint (Ea : RWGEdge) (TCR : list double)
    (QP QM APlus AMinus B X0 : Vec3) (np : Z) : result PointGeometry :=
  u <- aget TCR (3 * np) ;;
  v <- aget TCR (3 * np + 1) ;;
  w <- aget TCR (3 * np + 2) ;;
  let w := (w * Length Ea)%Qc in
  let u := (u + v)%Qc in
  let bPlus := build3 (fun Mu => (u * vnth APlus Mu + v * vnth B Mu)%Qc) in
  let XPlus := build3 (fun Mu => (vnth bPlus Mu + vnth QP Mu)%Qc) in
  let XPmX0 := build3 (fun Mu => (vnth XPlus Mu - vnth X0 Mu)%Qc) in
  let XPmX0dotb := dsum3 (fun Mu => (vnth XPmX0 Mu * vnth bPlus Mu)%Qc) in
  let bMinus := build3 (fun Mu => (u * vnth AMinus Mu + v * vnth B Mu)%Qc) in
  let XMinus := build3 (fun Mu => (vnth bMinus Mu + vnth QM Mu)%Qc) in
  let XMmX0 := build3 (fun Mu => (vnth XMinus Mu - vnth X0 Mu)%Qc) in
  let XMmX0dotb := dsum3 (fun Mu => (vnth XMmX0 Mu * vnth bMinus Mu)%Qc) in
  Ok (mkPG w bPlus XPlus XPmX0 XPmX0dotb bMinus XMinus XMmX0 XMmX0dotb).

(** The four calls to [GetReducedFields_Nearby] at one cubature point. *)
Definition GetNearbyFields (G : RWGGeometry) (nsb : Z) (Eb : RWGEdge)
    (pg : PointGeometry) (k : cdouble) : NearbyFields :=
  let '(ePP, hPP) :=
    GetReducedFields_Nearby G nsb (iPPanel Eb) (PIndex Eb) (XPlus pg) k in
  let '(ePM, hPM) :=
    GetReducedFields_Nearby G nsb (iMPanel Eb) (MIndex Eb) (XPlus pg) k in
  let '(eMP, hMP) :=
    GetReducedFields_Nearby G nsb (iPPanel Eb) (PIndex Eb) (XMinus pg) k in
  let '(eMM, hMM) :=
    GetReducedFields_Nearby G nsb (iMPanel Eb) (MIndex Eb) (XMinus pg) k in
  mkNF ePP hPP ePM hPM eMP hMP eMM hMM.

(** The body of the last loop [for(Mu=0; Mu<3; Mu++)] of a cubature point. *)
Definition CubatureAccumulate (PP PM MP MM : double) (pg : PointGeometry)
    (nf : NearbyFields) (ePlus eMinus hPlus hMinus : CVec3)
    (XPmX0dote XMmX0dote XPmX0doth XMmX0doth : cdouble)
    (Mu : Z) (me : MatrixElements) : MatrixElements :=
  let w := pg_w pg in
  let MP1 := Z.rem (Mu + 1) 3 in
  let MP2 := Z.rem (Mu + 2) 3 in
  let bP := vnth (bPlus pg) in
  let bM := vnth (bMinus pg) in
  let XP := vnth (XPmX0 pg) in
  let XM := vnth (XMmX0 pg) in
  let cross (b : Z -> double) (f : CVec3) : cdouble :=
    (b MP1 *: vnth f MP2 - b MP2 *: vnth f MP1)%C in
  mkME
    (be me + w *: (bP Mu *: vnth ePlus Mu - bM Mu *: vnth eMinus Mu))%C
    (bh me + w *: (bP Mu *: vnth hPlus Mu - bM Mu *: vnth hMinus Mu))%C
    (vadd_at (divbe me) Mu
       ((D 2 * w)%Qc *: (PP *: vnth (ePP nf) Mu + PM *: vnth (ePM nf) Mu
                         + MP *: vnth (eMP nf) Mu + MM *: vnth (eMM nf) Mu))%C)
    (vadd_at (divbh me) Mu
       ((D 2 * w)%Qc *: (PP *: vnth (hPP nf) Mu + PM *: vnth (hPM nf) Mu
                         + MP *: vnth (hMP nf) Mu + MM *: vnth (hMM nf) Mu))%C)
    (vadd_at (bxe me) Mu
       (w *: (PP *: cross bP (ePP nf) + PM *: cross bP (ePM nf)
              + MP *: cross bM (eMP nf) + MM *: cross bM (eMM nf)))%C)
    (vadd_at (bxh me) Mu
       (w *: (cross bP hPlus - cross bM hMinus))%C)
    (vadd_at (divbrxe me) Mu
       (w *: (cross XP ePlus - cross XM eMinus))%C)
    (vadd_at (divbrxh me) Mu
       (w *: (cross XP hPlus - cross XM hMinus))%C)
    (vadd_at (rxbxe me) Mu
       (w *: ((bP Mu *: XPmX0dote - XPmX0dotb pg *: vnth ePlus Mu)
              - (bM Mu *: XMmX0dote - XMmX0dotb pg *: vnth eMinus Mu)))%C)
    (vadd_at (rxbxh me) Mu
       (w *: ((bP Mu *: XPmX0doth - XPmX0dotb pg *: vnth hPlus Mu)
              - (bM Mu *: XMmX0doth - XMmX0dotb pg *: vnth hMinus Mu)))%C).

(** What one cubature point adds, given the fields at that point (the
    second and third loops over [Mu]). *)
Definition CubatureStep (PP PM MP MM : double) (pg : PointGeometry)
    (nf : NearbyFields) (me : MatrixElements) : MatrixElements :=
  let ePlus := v3map2 C.sub (ePP nf) (ePM nf) in
  let eMinus := v3map2 C.sub (eMP nf) (eMM nf) in
  let hPlus := v3map2 C.sub (hPP nf) (hPM nf) in
  let hMinus := v3map2 C.sub (hMP nf) (hMM nf) in
  let XPmX0dote := csum3 (fun Mu => vnth (XPmX0 pg) Mu *: vnth ePlus Mu) in
  let XMmX0dote := csum3 (fun Mu => vnth (XMmX0 pg) Mu *: vnth eMinus Mu) in
  let XPmX0doth := csum3 (fun Mu => vnth (XPmX0 pg) Mu *: vnth hPlus Mu) in
  let XMmX0doth := csum3 (fun Mu => vnth (XMmX0 pg) Mu *: vnth hMinus Mu) in
  fold_left
    (fun me Mu =>
       CubatureAccumulate PP PM MP MM pg nf ePlus eMinus hPlus hMinus
         XPmX0dote XMmX0dote XPmX0doth XMmX0doth Mu me)
    [0; 1; 2] me.

(** The torque center: the origin, moved by the transformations of the
    surface. *)
Definition TorqueCenter (S : RWGSurface) : Vec3 :=
  let X0 := vzero in
  let X0 := match OTGT S with Some T => T X0 | None => X0 end in
  let X0 := match GT S with Some T => T X0 | None => X0 end in
  X0.

Definition GetEPPFTMatrixElements_Cubature (G : RWGGeometry)
    (nsa nsb nea neb : Z) (k : cdouble)
    (OmitPanelPair : PanelPairMask) (Order : Z) : result MatrixElements :=
  S <- aget (Surfaces G) nsa ;;
  Ea <- aget (Edges S) nea ;;
  Eb <- aget (Edges S) neb ;;
  QP <- aget (Vertices S) (iQP Ea) ;;
  V1 <- aget (Vertices S) (iV1 Ea) ;;
  V2 <- aget (Vertices S) (iV2 Ea) ;;
  QM <- aget (Vertices S) (iQM Ea) ;;
  let X0 := TorqueCenter S in
  let APlus := VecSub V1 QP in
  let AMinus := VecSub V1 QM in
  let B := VecSub V2 V1 in
  let PP := if omitted OmitPanelPair 0 0 then 0%Qc else 1%Qc in
  let PM := if omitted OmitPanelPair 0 1 then 0%Qc else (- (1))%Qc in
  let MP := if omitted OmitPanelPair 1 0 then 0%Qc else (- (1))%Qc in
  let MM := if omitted OmitPanelPair 1 1 then 0%Qc else 1%Qc in
  let '(NumPts, TCR) := GetTCR Order in
  for_loop NumPts
    (fun np me =>
       pg <- CubaturePoint Ea TCR QP QM APlus AMinus B X0 np ;;
       let nf := GetNearbyFields G nsb Eb pg k in
       Ok (CubatureStep PP PM MP MM pg nf me))
    zero_ME.

(** The three vectors [GetEPPFTMatrixElements_TD] returns. *)
Record TDElements : Type := mkTD {
  td_divbe : CVec3; td_divbh : CVec3; td_bxe : CVec3
}.

Definition GetEPPFTMatrixElements_TD (Va : V3 Vec3) (Qa : Vec3)
    (Vb : V3 Vec3) (Qb : Vec3) (ncv : Z) (k : cdouble) : TDElements :=
  let PIndex := [TD_EPPFT1; TD_EPPFT2; TD_EPPFT3;
                 TD_EPPFT4; TD_EPPFT5; TD_EPPFT6] in
  let KIndex := [TD_HELMHOLTZ; TD_GRADHELMHOLTZ; TD_GRADHELMHOLTZ;
                 TD_HELMHOLTZ; TD_GRADHELMHOLTZ; TD_GRADHELMHOLTZ] in
  let KParam := [k; k; k; k; k; k] in
  let Result (Mu : Z) : Z -> cdouble :=
    let nHat := build3 (fun Nu => if Nu =? Mu then 1%Qc else 0%Qc) in
    TaylorDuffy (mkTDArgs ncv 6 PIndex KIndex KParam
                          (c0 Va) (c1 Va) (c2 Va) (c1 Vb) (c2 Vb)
                          Qa Qb nHat) in
  mkTD (build3 (fun Mu => (Result Mu 0 + Result Mu 1 / (k * k))%C))
       (build3 (fun Mu => Result Mu 2))
       (build3 (fun Mu => (Result Mu 3 + Result Mu 4 / (k * k))%C)).

(** The state of the loops over [A] and [B] in [GetEPPFTMatrixElements]. *)
Record TDState : Type := mkTDState {
  divbeTD : CVec3; divbhTD : CVec3; bxeTD : CVec3;
  OmitPanelPair : PanelPairMask;
  HaveTDContributions : bool
}.

Definition TD_init : TDState :=
  mkTDState cvzero cvzero cvzero no_omission false.

(** The body of [for(A..) for(B..)]. *)
Definition TD_PairBody (Sa Sb : RWGSurface) (Ea Eb : RWGEdge) (LL : double)
    (k : cdouble) (A B : Z) (st : TDState) : result TDState :=
  let npa := if A =? 0 then iPPanel Ea else iMPanel Ea in
  let npb := if B =? 0 then iPPanel Eb else iMPanel Eb in
  let assessment := AssessPanelPair Sa npa Sb npb in
  if ncv assessment >? 0 then
    Qa <- aget (Vertices Sa) (if A =? 0 then iQP Ea else iQM Ea) ;;
    Qb <- aget (Vertices Sb) (if B =? 0 then iQP Eb else iQM Eb) ;;
    let Delta :=
      GetEPPFTMatrixElements_TD (Va assessment) Qa (Vb assessment) Qb
                                (ncv assessment) k in
    let Sign := if A =? B then 1%Qc else (- (1))%Qc in
    let acc (v d : CVec3) :=
      build3 (fun Mu => (vnth v Mu + (Sign * LL)%Qc *: vnth d Mu)%C) in
    Ok (mkTDState (acc (divbeTD st) (td_divbe Delta))
                  (acc (divbhTD st) (td_divbh Delta))
                  (acc (bxeTD st) (td_bxe Delta))
                  (set_omitted (OmitPanelPair st) A B)
                  true)
  else Ok st.

Definition GetEPPFTMatrixElements (G : RWGGeometry)
    (nsa nsb nea neb : Z) (k : cdouble) (Order : Z) : result MatrixElements :=
  Sa <- aget (Surfaces G) nsa ;;
  Sb <- aget (Surfaces G) nsb ;;
  Ea <- aget (Edges Sa) nea ;;
  Eb <- aget (Edges Sb) neb ;;
  let LL := (Length Ea * Length Eb)%Qc in
  let ForceCubature :=
    match getenv "SCUFF_FORCECUBATURE" with Some _ => true | None => false end in
  st <- (if (nsa =? nsb) && negb ForceCubature then
           for_loop 2
             (fun A st => for_loop 2 (TD_PairBody Sa Sb Ea Eb LL k A) st)
             TD_init
         else Ok TD_init) ;;
  me <- GetEPPFTMatrixElements_Cubature G nsa nsb nea neb k
          (OmitPanelPair st) Order ;;
  if HaveTDContributions st then
    Ok (mkME (be me) (bh me)
             (v3map2 C.add (divbe me) (divbeTD st))
             (v3map2 C.add (divbh me) (divbhTD st))
             (v3map2 C.add (bxe me) (bxeTD st))
             (bxh me) (divbrxe me) (divbrxh me) (rxbxe me) (rxbxh me))
  else Ok me.

End EPPFT.

(** ** The reduction routine [RWGGeometry::GetEPPFTTrace] *)

(** The constant prefactors of the power, force and torque formulas. *)
Record Prefactors : Type := mkPrefactors {
  PEE : cdouble; PEM : cdouble; PME : cdouble; PMM : cdouble;
  FEE1 : cdouble; FEE2 : cdouble; FEM1 : cdouble; FEM2 : cdouble;
  FME1 : cdouble; FME2 : cdouble; FMM1 : cdouble; FMM2 : cdouble;
  FEE3 : cdouble; FMM3 : cdouble; FEM3 : cdouble; FME3 : cdouble
}.

Section GetEPPFTTrace.
Context {X : Collaborators}.

Definition EPPFT_Prefactors (Omega k ZRel GammaE GammaM : cdouble)
  : Prefactors :=
  let T := EPPFT_TENTHIRDS in
  let half := lit 1 2 in
  let quarter := lit 1 4 in
  let KZ := (ZVAC *: k * ZRel)%C in
  let KOZ := (k / (ZVAC *: ZRel))%C in
  let Omega2 := (Omega * Omega)%C in
  mkPrefactors
    (* PEE *) (half *: C.II * KZ)%C
    (* PEM *) (C.of_double (- half)%Qc)
    (* PME *) (C.of_double half)
    (* PMM *) (half *: C.II * KOZ)%C
    (* FEE1 *) (((- half * T)%Qc *: KZ) / Omega)%C
    (* FEE2 *) (C.of_double (half * T * ZVAC)%Qc)
    (* FEM1 *) (C.of_double (half * T)%Qc / (C.II * Omega))%C
    (* FEM2 *) (ZVAC *: ((half * T)%Qc *: C.II * KOZ))%C
    (* FME1 *) (C.of_double (- half * T)%Qc / (C.II * Omega))%C
    (* FME2 *) (C.divr ((- half * T)%Qc *: C.II * KZ)%C ZVAC)
    (* FMM1 *) (((- half * T)%Qc *: KOZ) / Omega)%C
    (* FMM2 *) (C.of_double (half * T / ZVAC)%Qc)
    (* FEE3 *) (((quarter * T)%Qc *: GammaE) / Omega2)%C
    (* FMM3 *) (((quarter * T)%Qc *: GammaM) / Omega2)%C
    (* FEM3 *) ((ZVAC *: ((- quarter * T)%Qc *: GammaM)) / (C.II * Omega))%C
    (* FME3 *) (((quarter * T)%Qc *: GammaE) / (ZVAC *: (C.II * Omega)))%C.

(** The current products of the pair [(nea, neb)], from the KN vector or
    from the Sigma matrix. *)
Definition EPPFT_CurrentProducts (Offset : Z)
    (KNVector : option HVector) (SigmaMatrix : option HMatrix) (nea neb : Z)
  : result CurrentProducts :=
  match KNVector with
  | Some KNV =>
      let kAlpha := KNV (Offset + 2 * nea + 0) in
      let nAlpha := (- ZVAC)%Qc *: KNV (Offset + 2 * nea + 1) in
      let kBeta := KNV (Offset + 2 * neb + 0) in
      let nBeta := (- ZVAC)%Qc *: KNV (Offset + 2 * neb + 1) in
      Ok (mkCP (C.conj kAlpha * kBeta)%C (C.conj kAlpha * nBeta)%C
               (C.conj nAlpha * kBeta)%C (C.conj nAlpha * nBeta)%C)
  | None =>
      Sigma <- deref SigmaMatrix ;;
      Ok (mkCP (Sigma (Offset + 2 * neb + 0) (Offset + 2 * nea + 0))
               (Sigma (Offset + 2 * neb + 1) (Offset + 2 * nea + 0))
               (Sigma (Offset + 2 * neb + 0) (Offset + 2 * nea + 1))
               (Sigma (Offset + 2 * neb + 1) (Offset + 2 * nea + 1)))
  end.

(** The contributions [dPAbs, dF, dTau] of one pair before the interior
    correction. *)
Definition EPPFT_PairContribution (Sign : double) (pf : Prefactors)
    (cp : CurrentProducts) (me : MatrixElements) : PFTSums :=
  let dPAbs :=
    (Sign * real (KK cp * PEE pf * be me + KN cp * PEM pf * bh me
                  + NK cp * PME pf * bh me + NN cp * PMM pf * be me)%C)%Qc in
  let comp (dbe dbh xe xh : cdouble) : double :=
    (Sign * real (KK cp * (FEE1 pf * dbe + FEE2 pf * xh)
                  + KN cp * (FEM1 pf * dbh + FEM2 pf * xe)
                  + NK cp * (FME1 pf * dbh + FME2 pf * xe)
                  + NN cp * (FMM1 pf * dbe + FMM2 pf * xh))%C)%Qc in
  let dF (i : Z) :=
    comp (vnth (divbe me) i) (vnth (divbh me) i)
         (vnth (bxe me) i) (vnth (bxh me) i) in
  let dTau (i : Z) :=
    comp (vnth (divbrxe me) i) (vnth (divbrxh me) i)
         (vnth (rxbxe me) i) (vnth (rxbxh me) i) in
  mkSums dPAbs (dF 0) (dF 1) (dF 2) (dTau 0) (dTau 1) (dTau 2).

(** The block under [if (Interior)]. *)
Definition EPPFT_InteriorCorrection (pf : Prefactors) (cp : CurrentProducts)
    (Overlaps : list double) (d : PFTSums) : PFTSums :=
  let corr (o1 o2 : nat) : double :=
    real (ov Overlaps o1 *: (FEE3 pf * KK cp + FMM3 pf * NN cp)
          + ov Overlaps o2 *: (FEM3 pf * KN cp + FME3 pf * NK cp))%C in
  (mkSums (PAbs d)
          (Fx d - corr 3%nat 4%nat)
          (Fy d - corr 6%nat 7%nat)
          (Fz d - corr 9%nat 10%nat)
          (Taux d - corr 12%nat 13%nat)
          (Tauy d - corr 15%nat 16%nat)
          (Tauz d - corr 18%nat 19%nat))%Qc.

(** [Weight*dPAbs, Weight*dF[..], Weight*dTau[..]]. *)
Definition scale_sums (Weight : double) (d : PFTSums) : PFTSums :=
  (mkSums (Weight * PAbs d)
          (Weight * Fx d) (Weight * Fy d) (Weight * Fz d)
          (Weight * Taux d) (Weight * Tauy d) (Weight * Tauz d))%Qc.

(** The body of the loop [for(neab=0; neab<NE*NE; neab++)]. *)
Definition EPPFT_PairBody (G : RWGGeometry) (S : RWGSurface)
    (SurfaceIndex Offset : Z) (k : cdouble) (Sign : double) (pf : Prefactors)
    (Interior : bool)
    (KNVector : option HVector) (SigmaMatrix : option HMatrix)
    (neab : Z) (st : PFTSums * ByEdgeArrays)
  : result (PFTSums * ByEdgeArrays) :=
  let '(sums, ByEdge) := st in
  let NE := NumEdges S in
  let nea := Z.quot neab NE in
  let neb := Z.rem neab NE in
  let Order := 9 in
  me <- GetEPPFTMatrixElements G SurfaceIndex SurfaceIndex nea neb k Order ;;
  cp <- EPPFT_CurrentProducts Offset KNVector SigmaMatrix nea neb ;;
  let d := EPPFT_PairContribution Sign pf cp me in
  d <- (if Interior then
          Overlaps <- GetOverlaps S nea neb ;;
          Ok (EPPFT_InteriorCorrection pf cp Overlaps d)
        else Ok d) ;;
  let Weight := 1%Qc in
  let sums := add_sums sums (scale_sums Weight d) in
  ByEdge <- AccumulateByEdge nea (scale_sums Weight d) ByEdge ;;
  Ok (sums, ByEdge).

Definition GetEPPFTTrace (G : RWGGeometry) (SurfaceIndex : Z) (Omega : cdouble)
    (KNVector : option HVector) (SigmaMatrix : option HMatrix)
    (ByEdge : ByEdgeArrays) (Exterior : bool) : result PFTOutput :=
  S <- aget (Surfaces G) SurfaceIndex ;;
  Offset <- aget (BFIndexOffset G) SurfaceIndex ;;
  let NE := NumEdges S in
  let nrOut := fst (RegionIndices S) in
  let nrIn := snd (RegionIndices S) in
  if IsPEC S || (nrIn =? -1) then
    Ok (mkOutput (repeat 0%Qc (Z.to_nat NUMPFT)) ByEdge
                 [EvWarn "EPPFTTrace() not implemented for PEC bodies"])
  else
    MPOut <- aget (RegionMPs G) nrOut ;;
    MPIn <- aget (RegionMPs G) nrIn ;;
    let '(EpsOut, MuOut) := MPOut Omega in
    let '(EpsIn, MuIn) := MPIn Omega in
    let Interior := negb Exterior in
    let '(Sign, k, ZRel, GammaE, GammaM) :=
      if Exterior then
        (1%Qc, (Omega * csqrt (EpsOut * MuOut))%C, csqrt (MuOut / EpsOut)%C,
         C.zero, C.zero)
      else
        ((- (1))%Qc, (Omega * csqrt (EpsIn * MuIn))%C, csqrt (MuIn / EpsIn)%C,
         (ZVAC *: (C.one / EpsIn - C.one / EpsOut))%C,
         C.divr (C.one / MuIn - C.one / MuOut)%C ZVAC) in
    let ev1 := [EvLog "Computing EPPFT for surface %i (Ext)=(%i,%i) (ZRel=%s)"] in
    let pf := EPPFT_Prefactors Omega k ZRel GammaE GammaM in
    (* initialize edge-by-edge contributions to zero *)
    ByEdge <- ZeroByEdge NE ByEdge ;;
    (* loop over all pairs of edges *)
    let ev2 := if LogLevel >=? SCUFF_VERBOSE2
               then [EvLog " no multithreading..."] else [] in
    '(sums, ByEdge) <-
      for_loop (NE * NE)
        (EPPFT_PairBody G S SurfaceIndex Offset k Sign pf Interior
                        KNVector SigmaMatrix)
        (zero_sums, ByEdge) ;;
    Ok (mkOutput [PAbs sums; Fx sums; Fy sums; Fz sums;
                  Taux sums; Tauy sums; Tauz sums]
                 ByEdge (ev1 ++ ev2)).

End GetEPPFTTrace.

(** * Well-formedness of meshes and specification-side definitions *)

(** [np] is the index of a panel of [S]. *)
Definition has_panel (S : RWGSurface) (np : Z) : bool :=
  (0 <=? np) && (np <? Z.of_nat (List.length (Panels S))).

(** The panels of an edge exist: the positive one always, the negative one
    unless it is absent. *)
Definition edge_panels_ok (S : RWGSurface) (E : RWGEdge) : bool :=
  has_panel S (iPPanel E)
  && ((iMPanel E =? -1) || has_panel S (iMPanel E)).

(** The panel support of a basis function. *)
Definition support (E : RWGEdge) : list Z :=
  iPPanel E :: (if iMPanel E =? -1 then [] else [iMPanel E]).

Definition disjoint_support (Ea Eb : RWGEdge) : bool :=
  forallb (fun p => negb (existsb (Z.eqb p) (support Eb))) (support Ea).

(** Panel [np] of [S] lists edge [ne] at position [i] of its [EI]. *)
Definition panel_lists_edge (S : RWGSurface) (np i ne : Z) : bool :=
  match aget (Panels S) np with
  | Ok P => match v3get (EI P) i with
            | Ok e => e =? ne
            | Fault _ => false
            end
  | Fault _ => false
  end.

(** The bookkeeping between edge [ne] and its panels, as the mesh loader
    sets it up: each adjoining panel lists the edge in [EI] at the position
    of the vertex opposite to it ([PIndex], [MIndex]). *)
Definition edge_ok (S : RWGSurface) (ne : Z) (E : RWGEdge) : bool :=
  panel_lists_edge S (iPPanel E) (PIndex E) ne
  && ((iMPanel E =? -1) || panel_lists_edge S (iMPanel E) (MIndex E) ne).

Definition wf_mesh (S : RWGSurface) : bool :=
  forallb (fun '(ne, E) => edge_ok S ne E)
          (combine (range (NumEdges S)) (Edges S)).

(** The three entries of [EI]. *)
Definition panel_edges (P : RWGPanel) : list Z :=
  [c0 (EI P); c1 (EI P); c2 (EI P)].

(** The edges a call of [GetOverlappingEdgeIndices] enumerates. *)
Definition enumerated (r : Z * list Z) : list Z :=
  firstn (Z.to_nat (fst r)) (snd r).

(** Row [q] of the per-edge arrays, when it is there. *)
Definition ByEdgeRow (B : ByEdgeArrays) (q : Z) : option (list double) :=
  match B with
  | Some rows => match aget rows q with
                 | Ok (Some row) => Some row
                 | _ => None
                 end
  | None => None
  end.

(** The sum over the edges [ne < NE] of [row[ne]]. *)
Definition edge_total (NE : Z) (row : list double) : double :=
  fold_right Qcplus 0%Qc (firstn (Z.to_nat NE) row).

(** Component [q] of the running totals, in the order of the per-edge
    arrays: power, force x y z, torque x y z. *)
Definition sums_component (s : PFTSums) (q : Z) : double :=
  match q with
  | 0 => PAbs s
  | 1 => Fx s | 2 => Fy s | 3 => Fz s
  | 4 => Taux s | 5 => Tauy s | _ => Tauz s
  end.

(** The slot of [PFT] that holds the quantity of per-edge array [q]:
    [GetOPFT] keeps slot 1 for the scattered power, so force and torque
    sit one slot higher than in [GetEPPFTTrace]. *)
Definition OPFT_slot (q : Z) : nat := if q =? 0 then 0%nat else S (Z.to_nat q).
Definition EPPFT_slot (q : Z) : nat := Z.to_nat q.

Section ExtinctionSpec.
Context {X : Collaborators}.

(** The extinction of one basis function [ne], with the degrees of freedom
    addressed directly: a PEC surface carries one coefficient per basis
    function at [Offset + ne]; any other surface carries the electric
    coefficient at [Offset + 2*ne] and the magnetic one at
    [Offset + 2*ne + 1].  Each degree of freedom contributes half the real
    part of the conjugated current coefficient times its excitation entry,
    in the normalisation of the source ([-ZVAC] on the electric excitation
    and on the magnetic current, [-1] on the magnetic excitation). *)
Definition ExtinctionTerm (S : RWGSurface) (Offset : Z) (KNV RHSV : HVector)
    (ne : Z) : double :=
  let half_re (current excitation : cdouble) : double :=
    (lit 1 2 * real (C.conj current * excitation)%C)%Qc in
  if IsPEC S then
    half_re (KNV (Offset + ne)) ((- ZVAC)%Qc *: RHSV (Offset + ne))
  else
    let electric :=
      half_re (KNV (Offset + 2 * ne))
              ((- ZVAC)%Qc *: RHSV (Offset + 2 * ne)) in
    let magnetic :=
      half_re ((- ZVAC)%Qc *: KNV (Offset + 2 * ne + 1))
              ((- (1))%Qc *: RHSV (Offset + 2 * ne + 1)) in
    (electric + magnetic)%Qc.

(** The extinction: the sum over the basis functions of the surface. *)
Definition ExtinctionSum (S : RWGSurface) (Offset : Z) (KNV RHSV : HVector)
  : double :=
  fold_right Qcplus 0%Qc
    (map (ExtinctionTerm S Offset KNV RHSV) (range (NumEdges S))).

End ExtinctionSpec.

Section TaylorDuffySpec.
Context {X : Collaborators}.

(** The panel and the hub vertex of an edge on its positive ([A = 0]) or
    negative side. *)
Definition edge_panel (E : RWGEdge) (A : Z) : Z :=
  if A =? 0 then iPPanel E else iMPanel E.
Definition edge_hub (E : RWGEdge) (A : Z) : Z :=
  if A =? 0 then iQP E else iQM E.

(** The sub-pair (source panel [A], field panel [B]) of two edges of one
    surface is assessed to have at least one common vertex. *)
Definition shares_vertex (S : RWGSurface) (Ea Eb : RWGEdge) (A B : Z) : bool :=
  ncv (AssessPanelPair S (edge_panel Ea A) S (edge_panel Eb B)) >? 0.

(** The Taylor-Duffy result of a sub-pair. *)
Definition SubPairTD (S : RWGSurface) (Ea Eb : RWGEdge) (k : cdouble)
    (A B : Z) : TDElements :=
  let assessment := AssessPanelPair S (edge_panel Ea A) S (edge_panel Eb B) in
  let vertex i :=
    match aget (Vertices S) i with Ok v => v | Fault _ => vzero end in
  GetEPPFTMatrixElements_TD (Va assessment) (vertex (edge_hub Ea A))
                            (Vb assessment) (vertex (edge_hub Eb B))
                            (ncv assessment) k.

(** +1 when source and field panel have the same polarity, -1 otherwise. *)
Definition polarity_sign (A B : Z) : double :=
  if A =? B then 1%Qc else (- (1))%Qc.

(** What a sub-pair adds to one of the three vectors: the sign times the
    product of the two edge lengths times the Taylor-Duffy result when the
    sub-pair has a common vertex, nothing otherwise. *)
Definition SubPairContribution (component : TDElements -> CVec3)
    (S : RWGSurface) (Ea Eb : RWGEdge) (k : cdouble) (A B : Z) : CVec3 :=
  if shares_vertex S Ea Eb A B then
    build3 (fun Mu =>
              (polarity_sign A B * (Length Ea * Length Eb))%Qc
              *: vnth (component (SubPairTD S Ea Eb k A B)) Mu)
  else cvzero.

(** The sum over the four sub-pairs. *)
Definition TDTotal (component : TDElements -> CVec3)
    (S : RWGSurface) (Ea Eb : RWGEdge) (k : cdouble) : CVec3 :=
  let c := SubPairContribution component S Ea Eb k in
  v3map2 C.add (v3map2 C.add (v3map2 C.add (c 0 0) (c 0 1)) (c 1 0)) (c 1 1).

(** The sub-pairs left to the Taylor-Duffy integrator. *)
Definition TDMask (S : RWGSurface) (Ea Eb : RWGEdge) : PanelPairMask :=
  mkMask (shares_vertex S Ea Eb 0 0) (shares_vertex S Ea Eb 0 1)
         (shares_vertex S Ea Eb 1 0) (shares_vertex S Ea Eb 1 1).

End TaylorDuffySpec.

(** The collaborators [X] with the nearby potentials replaced. *)
Definition with_potentials (X : Collaborators)
    (pot : RWGGeometry -> Z -> Z -> Z -> Vec3 -> cdouble -> Potentials)
  : Collaborators :=
  {| ZVAC := ZVAC;
     csqrt := csqrt;
     VecSub := VecSub;
     VecCross := VecCross;
     GetReducedPotentials_Nearby := pot;
     GetTCR := GetTCR;
     AssessPanelPair := AssessPanelPair;
     TaylorDuffy := TaylorDuffy;
     TD_EPPFT1 := TD_EPPFT1; TD_EPPFT2 := TD_EPPFT2; TD_EPPFT3 := TD_EPPFT3;
     TD_EPPFT4 := TD_EPPFT4; TD_EPPFT5 := TD_EPPFT5; TD_EPPFT6 := TD_EPPFT6;
     TD_HELMHOLTZ := TD_HELMHOLTZ; TD_GRADHELMHOLTZ := TD_GRADHELMHOLTZ;
     getenv := getenv;
     LogLevel := LogLevel;
     SCUFF_VERBOSE2 := SCUFF_VERBOSE2 |}.

Section CubatureSpec.
Context {X : Collaborators}.

(** The cubature point number [np] that [GetEPPFTMatrixElements_Cubature]
    visits for the source edge [Ea] of surface [S] at the given order. *)
Definition SamplePoint (S : RWGSurface) (Ea : RWGEdge) (Order np : Z)
  : result PointGeometry :=
  QP <- aget (Vertices S) (iQP Ea) ;;
  V1 <- aget (Vertices S) (iV1 Ea) ;;
  V2 <- aget (Vertices S) (iV2 Ea) ;;
  QM <- aget (Vertices S) (iQM Ea) ;;
  let '(NumPts, TCR) := GetTCR Order in
  if (0 <=? np) && (np <? NumPts) then
    CubaturePoint Ea TCR QP QM (VecSub V1 QP) (VecSub V1 QM) (VecSub V2 V1)
                  (TorqueCenter S) np
  else Fault OutOfBounds.

End CubatureSpec.

(** Two sets of nearby fields agree on every sub-pair that the mask does
    not omit. *)
Definition agree_off_mask (m : PanelPairMask) (f g : NearbyFields) : Prop :=
  (omit00 m = false -> ePP f = ePP g /\ hPP f = hPP g)
  /\ (omit01 m = false -> ePM f = ePM g /\ hPM f = hPM g)
  /\ (omit10 m = false -> eMP f = eMP g /\ hMP f = hMP g)
  /\ (omit11 m = false -> eMM f = eMM g /\ hMM f = hMM g).

Definition all_omitted : PanelPairMask := mkMask true true true true.

(** ** Conditions under which the routines run to completion *)

Definition has_vertex (S : RWGSurface) (i : Z) : bool :=
  (0 <=? i) && (i <? Z.of_nat (List.length (Vertices S))).

Definition has_edge (S : RWGSurface) (e : Z) : bool :=
  (0 <=? e) && (e <? NumEdges S).

(** The vertices of a panel exist and its edges are basis functions of
    the surface. *)
Definition panel_ok (S : RWGSurface) (P : RWGPanel) : bool :=
  forallb (has_vertex S) [c0 (VI P); c1 (VI P); c2 (VI P)]
  && forallb (has_edge S) (panel_edges P).

(** A surface on which the overlap engine and [GetOPFT] stay within their
    arrays. *)
Definition wf_surface (S : RWGSurface) : bool :=
  wf_mesh S && forallb (panel_ok S) (Panels S).

(** The four vertices of an interior edge exist. *)
Definition edge_vertices_ok (S : RWGSurface) (E : RWGEdge) : bool :=
  has_vertex S (iQP E) && has_vertex S (iV1 E)
  && has_vertex S (iV2 E) && has_vertex S (iQM E).

(** A row is null or has at least [NE] entries. *)
Definition row_ok (NE : Z) (r : option (list double)) : bool :=
  match r with
  | None => true
  | Some row => (Z.to_nat NE <=? List.length row)%nat
  end.

(** The per-edge arrays, when supplied, have seven rows, each null or of
    at least [NE] entries. *)
Definition rows_ok (NE : Z) (B : ByEdgeArrays) : bool :=
  match B with
  | None => true
  | Some rows => (7 <=? List.length rows)%nat && forallb (row_ok NE) rows
  end.

(** The cubature table holds three numbers per point. *)
Definition tcr_ok {X : Collaborators} (Order : Z) : bool :=
  let '(NumPts, TCR) := GetTCR Order in
  3 * NumPts <=? Z.of_nat (List.length TCR).

(** ** Invariants of the loops *)

(** Row [q] of [rows], if there, sums to zero over the edges. *)
Definition zeroed (NE : Z) (rows : list (option (list double))) (q : Z)
  : Prop :=
  forall row, aget rows q = Ok (Some row) -> edge_total NE row = 0%Qc.

(** The invariant of the pair loops: each row that is there sums, over
    the edges, to the running total of its quantity. *)
Definition rows_match_sums (NE : Z) (st : PFTSums * ByEdgeArrays) : Prop :=
  forall q row, 0 <= q < 7 -> ByEdgeRow (snd st) q = Some row ->
                edge_total NE row = sums_component (fst st) q.

(** Two sets of matrix elements with the same three outputs that the
    omission mask governs. *)
Definition same_masked_outputs (me1 me2 : MatrixElements) : Prop :=
  divbe me1 = divbe me2 /\ divbh me1 = divbh me2 /\ bxe me1 = bxe me2.
(** * Closed forms and further specification-side definitions *)

(** ** Vector algebra on [double[3]] *)

Definition Vec3_sub (u v : Vec3) : Vec3 := v3map2 Qcminus u v.

Definition Vec3_cross (u v : Vec3) : Vec3 :=
  (mkV3 (c1 u * c2 v - c2 u * c1 v)
        (c2 u * c0 v - c0 u * c2 v)
        (c0 u * c1 v - c1 u * c0 v))%Qc.

Definition Vec3_dot (u v : Vec3) : double :=
  (c0 u * c0 v + c1 u * c1 v + c2 u * c2 v)%Qc.

(** The helpers [VecSub(a, b, out)] and [VecCross(a, b, out)] of libhrutil
    compute the difference [a - b] and the cross product [a x b]. *)
Definition exact_vector_algebra (X : Collaborators) : Prop :=
  (forall a b, VecSub a b = Vec3_sub a b)
  /\ (forall a b, VecCross a b = Vec3_cross a b).

(** ** The factors of [AddOverlapContributions] *)

(** Vertex [i] of panel [P]: [S->Vertices + 3*P->VI[i]]. *)
Definition panel_vertex (S : RWGSurface) (P : RWGPanel) (i : Z) : Vec3 :=
  match v3get (VI P) i with
  | Ok vi => match aget (Vertices S) vi with Ok v => v | Fault _ => vzero end
  | Fault _ => vzero
  end.

(** [BulletFactor1] for the hub vertices [iQa], [iQb] of panel [P]. *)
Definition BulletFactor1 (S : RWGSurface) (P : RWGPanel) (iQa iQb : Z)
  : double :=
  let Qa := panel_vertex S P iQa in
  let QaP1 := panel_vertex S P (Z.rem (iQa + 1) 3) in
  let QaP2 := panel_vertex S P (Z.rem (iQa + 2) 3) in
  let Qb := panel_vertex S P iQb in
  let L1 := Vec3_sub QaP1 Qa in
  let L2 := Vec3_sub QaP2 QaP1 in
  let DQ := Vec3_sub Qa Qb in
  ((Vec3_dot L1 L1 + Vec3_dot L1 L2) / D 4 + Vec3_dot L1 DQ / D 3
   + Vec3_dot L2 L2 / D 12 + Vec3_dot L2 DQ / D 6)%Qc.

(** [TimesFactor] for the hub vertices [iQa], [iQb] of panel [P]. *)
Definition TimesFactor (S : RWGSurface) (P : RWGPanel) (iQa iQb : Z)
  : double :=
  let Qa := panel_vertex S P iQa in
  let QaP1 := panel_vertex S P (Z.rem (iQa + 1) 3) in
  let QaP2 := panel_vertex S P (Z.rem (iQa + 2) 3) in
  let Qb := panel_vertex S P iQb in
  let L1 := Vec3_sub QaP1 Qa in
  let L2 := Vec3_sub QaP2 QaP1 in
  let DQ := Vec3_sub Qa Qb in
  let ZxDQ := Vec3_cross (ZHat P) DQ in
  (((D 2 * c0 L1 + c0 L2) * c0 ZxDQ
    + (D 2 * c1 L1 + c1 L2) * c1 ZxDQ
    + (D 2 * c2 L1 + c2 L2) * c2 ZxDQ) / D 6)%Qc.

(** What panel [np] adds to an overlap whose factor is [F]:
    [Sign*LL/(2*Area)] times the factor. *)
Definition PanelTerm (F : RWGSurface -> RWGPanel -> Z -> Z -> double)
    (S : RWGSurface) (np iQa iQb : Z) (Sign LL : double) : double :=
  match aget (Panels S) np with
  | Ok P => (Sign * LL / (D 2 * Area P) * F S P iQa iQb)%Qc
  | Fault _ => 0%Qc
  end.

(** The sum over the four panel comparisons of [GetOverlaps]. *)
Definition OverlapFormula (F : RWGSurface -> RWGPanel -> Z -> Z -> double)
    (S : RWGSurface) (Ea Eb : RWGEdge) : double :=
  let LL := (Length Ea * Length Eb)%Qc in
  ((if iPPanel Ea =? iPPanel Eb
    then PanelTerm F S (iPPanel Ea) (PIndex Ea) (PIndex Eb) 1 LL else 0)
   + (if iPPanel Ea =? iMPanel Eb
      then PanelTerm F S (iPPanel Ea) (PIndex Ea) (MIndex Eb) (- (1)) LL
      else 0)
   + (if negb (iMPanel Ea =? -1) && (iMPanel Ea =? iPPanel Eb)
      then PanelTerm F S (iMPanel Ea) (MIndex Ea) (PIndex Eb) (- (1)) LL
      else 0)
   + (if negb (iMPanel Ea =? -1) && (iMPanel Ea =? iMPanel Eb)
      then PanelTerm F S (iMPanel Ea) (MIndex Ea) (MIndex Eb) 1 LL
      else 0))%Qc.

(** ** The layout of the per-edge arrays *)

(** Which rows are there, and how long each row is. *)
Definition rows_layout (rows : list (option (list double)))
  : list (option nat) :=
  map (option_map (@List.length double)) rows.

Definition ByEdge_layout (B : ByEdgeArrays) : option (list (option nat)) :=
  option_map rows_layout B.

(** ** The range of [int] *)

(** [INT_MAX] of the 32-bit [int] of the source. *)
Definition INT_MAX : Z := 2147483647.

(** The bound [NE*NE] of the pair loop of [GetEPPFTTrace], which the
    source computes in [int], does not overflow: the surface has at most
    46340 edges. *)
Definition pair_count_fits (S : RWGSurface) : bool :=
  NumEdges S * NumEdges S <=? INT_MAX.

(** ** Frequencies and materials away from the singular cases *)

Definition nonzero (z : cdouble) : Prop := z <> C.zero.

(** The material of a region at frequency [Omega]: permittivity,
    permeability, relative wave impedance [csqrt(Mu/Eps)] and refractive
    index [csqrt(Eps*Mu)] are all different from zero. *)
Definition region_ok {X : Collaborators} (Omega : cdouble) (MP : MatProp)
  : Prop :=
  let '(Eps, Mu) := MP Omega in
  nonzero Eps /\ nonzero Mu
  /\ nonzero (csqrt (Mu / Eps)%C) /\ nonzero (csqrt (Eps * Mu)%C).

(** No formula of the reduction routines divides by zero: the frequency
    and the vacuum impedance are different from zero and the materials
    are regular.  (Where a denominator vanishes, C arithmetic produces
    infinities and NaN, which the embedding does not have.) *)
Definition nondegenerate {X : Collaborators} (Omega : cdouble)
    (MPs : list MatProp) : Prop :=
  nonzero Omega /\ ZVAC <> 0%Qc /\ Forall (region_ok Omega) MPs.

(** ** Current states *)

(** The current state the reduction routines read is identically zero:
    the vector when one is supplied, the matrix otherwise. *)
Definition quiet_currents (KNVector : option HVector)
    (Matrix : option HMatrix) : Prop :=
  match KNVector, Matrix with
  | Some KNV, _ => forall n, KNV n = C.zero
  | None, Some M => forall r c, M r c = C.zero
  | None, None => False
  end.

(** ** Matrix elements *)

(** Two sets of matrix elements with the same seven outputs that the
    omission mask does not govern. *)
Definition same_unmasked_outputs (me1 me2 : MatrixElements) : Prop :=
  be me1 = be me2 /\ bh me1 = bh me2 /\ bxh me1 = bxh me2
  /\ divbrxe me1 = divbrxe me2 /\ divbrxh me1 = divbrxh me2
  /\ rxbxe me1 = rxbxe me2 /\ rxbxh me1 = rxbxh me2.

(** No sub-pair of the two edges is assessed to have a common vertex. *)
Definition no_common_vertex {X : Collaborators} (S : RWGSurface)
    (Ea Eb : RWGEdge) : bool :=
  negb (shares_vertex S Ea Eb 0 0 || shares_vertex S Ea Eb 0 1
        || shares_vertex S Ea Eb 1 0 || shares_vertex S Ea Eb 1 1).

(** The current vector multiplied by the real factor [c]. *)
Definition scale_currents (c : double) (KNV : HVector) : HVector :=
  fun n => c *: KNV n.

(** The four current products multiplied by the real factor [s]. *)
Definition scale_products (s : double) (cp : CurrentProducts)
  : CurrentProducts :=
  mkCP (s *: KK cp) (s *: KN cp) (s *: NK cp) (s *: NN cp).

(** The correlation matrix multiplied by the real factor [s]. *)
Definition scale_matrix (s : double) (M : HMatrix) : HMatrix :=
  fun r c => s *: M r c.

(** The loop state of a run whose current products are all scaled by [s],
    against the state of the original run: the running totals are scaled
    by [s] and the per-edge arrays have the same layout. *)
Definition scaled_state (s : double) (st st' : PFTSums * ByEdgeArrays)
  : Prop :=
  fst st' = scale_sums s (fst st)
  /\ ByEdge_layout (snd st') = ByEdge_layout (snd st).

(** The loop state of a run without per-edge arrays, against the state of
    a run with them: the running totals are the same. *)
Definition same_totals (st st' : PFTSums * ByEdgeArrays) : Prop :=
  fst st' = fst st /\ snd st' = None.

(** Two current states of which the second yields, for every pair of
    edges, the current products of the first multiplied by [s]. *)
Definition products_scale {X : Collaborators} (s : double) (S : RWGSurface)
    (Offset : Z) (K K' : option HVector) (M M' : option HMatrix) : Prop :=
  forall nea neb cp,
    OPFT_CurrentProducts S Offset K M nea neb = Ok cp ->
    OPFT_CurrentProducts S Offset K' M' nea neb
    = Ok (scale_products s cp).

(** * Concrete geometries and collaborators

    Small meshes with rational coordinates, used to run the embedding. *)

Module Fixture.

Definition vec (x y z : Z) : Vec3 := mkV3 (D x) (D y) (D z).

Definition vsub (a b : Vec3) : Vec3 := v3map2 Qcminus a b.

Definition vcross (a b : Vec3) : Vec3 :=
  (mkV3 (c1 a * c2 b - c2 a * c1 b)
        (c2 a * c0 b - c0 a * c2 b)
        (c0 a * c1 b - c1 a * c0 b))%Qc.

(** A square root that is exact on the few values the fixtures meet. *)
Definition sqrt_table (z : cdouble) : cdouble :=
  if C.eqb z (C.of_double (D 4)) then C.of_double (D 2)
  else if C.eqb z (C.of_double (lit 1 4)) then C.of_double (lit 1 2)
  else z.

(** A stand-in for the reduced potentials: constant in the point, with a
    vector potential and a gradient that depend on the panel. *)
Definition potentials (G : RWGGeometry) (ns np iQ : Z) (X0 : Vec3)
    (k : cdouble) : Potentials :=
  let s := C.of_double (D (np + 2)) in
  let t := mkC (D (iQ + 1)) (D 1) in
  mkPotentials s (mkV3 s t C.one) (mkV3 t t s)
    (mkV3 (mkV3 C.zero s t) (mkV3 t C.zero s) (mkV3 s s C.zero))
    (mkV3 cvzero cvzero cvzero) (mkV3 cvzero cvzero cvzero).

(** Number of vertex indices two panels of one surface share. *)
Definition common_vertices (S : RWGSurface) (npa npb : Z) : Z :=
  match aget (Panels S) npa, aget (Panels S) npb with
  | Ok Pa, Ok Pb =>
      let va := [c0 (VI Pa); c1 (VI Pa); c2 (VI Pa)] in
      let vb := [c0 (VI Pb); c1 (VI Pb); c2 (VI Pb)] in
      Z.of_nat (List.length (filter (fun i => existsb (Z.eqb i) vb) va))
  | _, _ => 0
  end.

Definition panel_vertices (S : RWGSurface) (np : Z) : V3 Vec3 :=
  match aget (Panels S) np with
  | Ok P =>
      let v i :=
        match aget (Vertices S) i with Ok x => x | Fault _ => vzero end in
      mkV3 (v (c0 (VI P))) (v (c1 (VI P))) (v (c2 (VI P)))
  | Fault _ => mkV3 vzero vzero vzero
  end.

Definition assess (Sa : RWGSurface) (npa : Z) (Sb : RWGSurface) (npb : Z)
  : PanelPairAssessment :=
  mkAssessment (common_vertices Sa npa npb) 0%Qc
               (panel_vertices Sa npa) (panel_vertices Sb npb).

(** A stand-in for the Taylor-Duffy integrals. *)
Definition taylor_duffy (args : TaylorDuffyArgStruct) (i : Z) : cdouble :=
  mkC (D (i + 1) * (c0 (TD_nHat args) + D 2 * c1 (TD_nHat args)
                    + D 3 * c2 (TD_nHat args)))%Qc
      (D (WhichCase args)).

Definition env : Collaborators := {|
  ZVAC := lit 37673 100;
  csqrt := sqrt_table;
  VecSub := vsub;
  VecCross := vcross;
  GetReducedPotentials_Nearby := potentials;
  GetTCR := fun _ => (1, [lit 1 3; lit 1 3; lit 1 2]);
  AssessPanelPair := assess;
  TaylorDuffy := taylor_duffy;
  TD_EPPFT1 := 1; TD_EPPFT2 := 2; TD_EPPFT3 := 3;
  TD_EPPFT4 := 4; TD_EPPFT5 := 5; TD_EPPFT6 := 6;
  TD_HELMHOLTZ := 0; TD_GRADHELMHOLTZ := 1;
  getenv := fun _ => None;
  LogLevel := 0;
  SCUFF_VERBOSE2 := 2
|}.

(** The same collaborators, except that the reduced fields of the two
    field panels vanish. *)
Definition quiet_potentials (G : RWGGeometry) (ns np iQ : Z) (X0 : Vec3)
    (k : cdouble) : Potentials :=
  mkPotentials C.zero cvzero cvzero (mkV3 cvzero cvzero cvzero)
               (mkV3 cvzero cvzero cvzero) (mkV3 cvzero cvzero cvzero).

(** A closed surface: the tetrahedron on the origin and the three unit
    points, with outward normals.  Lengths, areas and normals are stored as
    a mesh file holds them, rounded to a few decimals. *)
Definition root2 : double := lit 14142 10000.
Definition tetra_vertices : list Vec3 :=
  [vec 0 0 0; vec 1 0 0; vec 0 1 0; vec 0 0 1].

Definition tetra_panels : list RWGPanel :=
  let n := lit 5774 10000 in
  [mkPanel (mkV3 0 2 1) (mkV3 3 0 1) (vec 0 0 (-1)) (lit 1 2);
   mkPanel (mkV3 0 1 3) (mkV3 4 2 0) (vec 0 (-1) 0) (lit 1 2);
   mkPanel (mkV3 0 3 2) (mkV3 5 1 2) (vec (-1) 0 0) (lit 1 2);
   mkPanel (mkV3 1 2 3) (mkV3 5 4 3) (mkV3 n n n) (lit 866 1000)].

Definition tetra_edges : list RWGEdge :=
  [mkEdge 0 1 2 3 0 1 1 2 (D 1);
   mkEdge 0 2 1 3 0 2 2 1 (D 1);
   mkEdge 0 3 1 2 1 2 1 2 (D 1);
   mkEdge 1 2 0 3 0 3 0 2 root2;
   mkEdge 1 3 0 2 1 3 0 1 root2;
   mkEdge 2 3 0 1 2 3 0 0 root2].

Definition tetrahedron (pec : bool) (regions : Z * Z) : RWGSurface :=
  mkSurface tetra_vertices tetra_panels tetra_edges pec regions None None.

Definition tetra : RWGSurface := tetrahedron false (0, 1).
Definition pec_tetra : RWGSurface := tetrahedron true (0, -1).

(** A single 3-4-5 triangle carrying three half-RWG functions (no negative
    panel). *)
Definition triangle_vertices : list Vec3 :=
  [vec 0 0 0; vec 3 0 0; vec 0 4 0].

Definition open_triangle : RWGSurface :=
  mkSurface triangle_vertices
            [mkPanel (mkV3 0 1 2) (mkV3 0 1 2) (vec 0 0 1) (D 6)]
            [mkEdge 1 2 0 (-1) 0 (-1) 0 (-1) (D 5);
             mkEdge 2 0 1 (-1) 0 (-1) 1 (-1) (D 4);
             mkEdge 0 1 2 (-1) 0 (-1) 2 (-1) (D 3)]
            true (0, -1) None None.

(** A single triangle without basis functions: all its edges are
    exterior. *)
Definition bare_triangle : RWGSurface :=
  mkSurface triangle_vertices
            [mkPanel (mkV3 0 1 2) (mkV3 (-1) (-2) (-3)) (vec 0 0 1) (D 6)]
            [] false (0, 1) None None.

Definition vacuum : MatProp := fun _ => (C.one, C.one).
Definition glass : MatProp := fun _ => (C.of_double (D 4), C.one).

(** Surface 0: a dielectric tetrahedron; surface 1: a PEC tetrahedron;
    surface 2: the triangle without edges; surface 3: the open PEC
    triangle. *)
Definition geometry : RWGGeometry :=
  mkGeometry [tetra; pec_tetra; bare_triangle; open_triangle]
             [0; 12; 18; 18]
             [vacuum; glass].

Definition Omega : cdouble := C.of_double (D 2).

(** A current vector and an excitation vector. *)
Definition currents : HVector := fun n => mkC (D (n + 1)) (D (2 * n - 3)).
Definition excitation : HVector := fun n => mkC (D (3 - n)) (D 1).
Definition correlations : HMatrix := fun r c => mkC (D (r + 2 * c)) (D (r - c)).

(** Per-edge arrays for a surface of [n] edges, holding stale values. *)
Definition stale_rows (n : nat) : ByEdgeArrays :=
  Some (repeat (Some (repeat (D 7) n)) 7).

(** The wavenumber handed to the matrix-element routines. *)
Definition wavenumber : cdouble := mkC (D 2) (D 1).

(** The first three edges and the last edge of the tetrahedron. *)
Definition edge0 : RWGEdge := mkEdge 0 1 2 3 0 1 1 2 (D 1).
Definition edge1 : RWGEdge := mkEdge 0 2 1 3 0 2 2 1 (D 1).
Definition edge5 : RWGEdge := mkEdge 2 3 0 1 2 3 0 0 root2.

(** The single cubature point of the fixture on the positive panel of
    edge 0. *)
Definition plus_point : Vec3 := mkV3 (lit 1 3) (lit 1 3) 0%Qc.

(** Potentials that differ from [potentials] in one place only: on panel
    2, the positive panel of edge 5, seen from [plus_point]. *)
Definition masked_potentials (G : RWGGeometry) (ns np iQ : Z) (X0 : Vec3)
    (k : cdouble) : Potentials :=
  if (np =? 2) && v3_eqb double_eqb X0 plus_point
  then quiet_potentials G ns np iQ X0 k
  else potentials G ns np iQ X0 k.

(** The mask that omits the sub-pair (positive, positive) only. *)
Definition omit_PP : PanelPairMask := mkMask true false false false.

(** Two triangles sharing the edge from (1,0,0) to (0,1,0), which carries
    the only basis function of the surface; the four outer edges are
    exterior and entered in [EI] as negative numbers. *)
Definition open_square : RWGSurface :=
  mkSurface [vec 0 0 0; vec 1 0 0; vec 0 1 0; vec 1 1 0]
            [mkPanel (mkV3 0 1 2) (mkV3 0 (-1) (-2)) (vec 0 0 1) (lit 1 2);
             mkPanel (mkV3 3 2 1) (mkV3 0 (-3) (-4)) (vec 0 0 1) (lit 1 2)]
            [mkEdge 1 2 0 3 0 1 0 0 root2]
            false (0, -1) None None.

End Fixture.

(** * Basic facts about the monad, arrays and complex numbers *)

Lemma bind_Ok {A B} (r : result A) (k : A -> result B) (b : B) :
  bind r k = Ok b -> exists a, r = Ok a /\ k a = Ok b.
Proof.
  destruct r as [a | f]; simpl; intro H.
  - exists a. split; [reflexivity | exact H].
  - discriminate H.
Qed.

(** Inversion of a successful monadic computation, one bind at a time. *)
Ltac inv_bind H :=
  let a := fresh "a" in
  let Ha := fresh "Ha" in
  apply bind_Ok in H; destruct H as [a [Ha H]].

Lemma aget_Ok_range {A} (a : list A) (i : Z) (x : A) :
  aget a i = Ok x -> 0 <= i < Z.of_nat (List.length a).
Proof.
  unfold aget. destruct (i <? 0) eqn:Hi; [discriminate |].
  destruct (nth_error a (Z.to_nat i)) eqn:Hn; [| discriminate].
  intros _. apply Z.ltb_ge in Hi.
  assert (Z.to_nat i < List.length a)%nat
    by (apply nth_error_Some; congruence).
  lia.
Qed.

Lemma aget_in_range {A} (a : list A) (i : Z) :
  0 <= i < Z.of_nat (List.length a) -> exists x, aget a i = Ok x.
Proof.
  intros [H0 H1]. unfold aget.
  destruct (i <? 0) eqn:Hi; [apply Z.ltb_lt in Hi; lia |].
  destruct (nth_error a (Z.to_nat i)) eqn:Hn; [eauto |].
  apply nth_error_None in Hn. lia.
Qed.

Lemma aget_out_of_range {A} (a : list A) (i : Z) :
  i < 0 \/ Z.of_nat (List.length a) <= i -> aget a i = Fault OutOfBounds.
Proof.
  intros H. unfold aget.
  destruct (i <? 0) eqn:Hi; [reflexivity |].
  apply Z.ltb_ge in Hi.
  destruct (nth_error a (Z.to_nat i)) eqn:Hn; [| reflexivity].
  assert (Z.to_nat i < List.length a)%nat
    by (apply nth_error_Some; congruence).
  lia.
Qed.

Lemma aget_nth_error {A} (a : list A) (i : nat) :
  aget a (Z.of_nat i) =
  match nth_error a i with Some x => Ok x | None => Fault OutOfBounds end.
Proof.
  unfold aget.
  destruct (Z.of_nat i <? 0) eqn:Hi; [apply Z.ltb_lt in Hi; lia |].
  now rewrite Nat2Z.id.
Qed.

Lemma has_panel_aget (S : RWGSurface) (np : Z) :
  has_panel S np = true -> exists P, aget (Panels S) np = Ok P.
Proof.
  unfold has_panel. intros H. apply andb_true_iff in H as [H0 H1].
  apply Z.leb_le in H0. apply Z.ltb_lt in H1.
  apply aget_in_range. lia.
Qed.

Lemma has_panel_nonneg (S : RWGSurface) (np : Z) :
  has_panel S np = true -> 0 <= np.
Proof.
  unfold has_panel. intros H. apply andb_true_iff in H as [H0 _].
  now apply Z.leb_le.
Qed.

Lemma v3get_Ok_range {A} (v : V3 A) (i : Z) (x : A) :
  v3get v i = Ok x -> i = 0 \/ i = 1 \/ i = 2.
Proof.
  destruct i as [| p | p]; simpl; [auto | | discriminate].
  destruct p as [p | p |]; [destruct p | destruct p |];
    simpl; try discriminate; auto.
Qed.

Lemma v3get_in_range {A} (v : V3 A) (i : Z) :
  0 <= i < 3 -> exists x, v3get v i = Ok x.
Proof.
  intros H.
  assert (i = 0 \/ i = 1 \/ i = 2) as [-> | [-> | ->]] by lia;
    simpl; eauto.
Qed.

(** [ring] and [field] on doubles: the goal is stated at type [Qc]. *)
Ltac qc_ring := ring.
Ltac qc_field := field.

(** Equations between complex doubles, component by component. *)
Ltac c_unfold :=
  unfold C.add, C.sub, C.mul, C.opp, C.scale, C.conj, C.of_double, C.zero,
         C.one, C.II in *;
  cbn [real imag] in *.

Ltac c_ring := c_unfold; f_equal; ring.

Lemma C_add_zero_r (z : cdouble) : (z + C.zero)%C = z.
Proof. destruct z. c_ring. Qed.

Lemma C_add_zero_l (z : cdouble) : (C.zero + z)%C = z.
Proof. destruct z. c_ring. Qed.

Lemma scale_zero_l (z : cdouble) : 0%Qc *: z = C.zero.
Proof. destruct z. c_ring. Qed.

(** * The overlap-integral engine *)

Section OverlapFacts.
Context {X : Collaborators}.

(** [GetOverlaps] leaves the zero-initialised array alone when none of its
    four panel comparisons holds. *)
Lemma GetOverlaps_no_common_panel (S : RWGSurface) (nea neb : Z)
    (Ea Eb : RWGEdge) :
  aget (Edges S) nea = Ok Ea ->
  aget (Edges S) neb = Ok Eb ->
  edge_panels_ok S Ea = true ->
  (iPPanel Ea =? iPPanel Eb) = false ->
  (iPPanel Ea =? iMPanel Eb) = false ->
  (negb (iMPanel Ea =? -1) && (iMPanel Ea =? iPPanel Eb)) = false ->
  (negb (iMPanel Ea =? -1) && (iMPanel Ea =? iMPanel Eb)) = false ->
  GetOverlaps S nea neb = Ok (repeat 0%Qc NUMOVERLAPS).
Proof.
  intros Ha Hb Hok H1 H2 H3 H4.
  unfold edge_panels_ok in Hok. apply andb_true_iff in Hok as [HP HM].
  destruct (has_panel_aget _ _ HP) as [PP HPP].
  unfold GetOverlaps. rewrite Ha, Hb. simpl. rewrite HPP. simpl.
  destruct (iMPanel Ea =? -1) eqn:HM1; simpl in *.
  - rewrite H1, H2. reflexivity.
  - destruct (has_panel_aget _ _ HM) as [PM HPM]. rewrite HPM. simpl.
    rewrite H1, H2, H3, H4. reflexivity.
Qed.

(** When the overlaps are not all zero, one of the four comparisons of
    [GetOverlaps] held: the two functions share a panel. *)
Lemma GetOverlaps_nonzero_shares (S : RWGSurface) (nea neb : Z)
    (Ea Eb : RWGEdge) (Overlaps : list double) :
  aget (Edges S) nea = Ok Ea ->
  aget (Edges S) neb = Ok Eb ->
  GetOverlaps S nea neb = Ok Overlaps ->
  Overlaps <> repeat 0%Qc NUMOVERLAPS ->
  iPPanel Ea = iPPanel Eb \/ iPPanel Ea = iMPanel Eb
  \/ (iMPanel Ea <> -1 /\ iMPanel Ea = iPPanel Eb)
  \/ (iMPanel Ea <> -1 /\ iMPanel Ea = iMPanel Eb).
Proof.
  intros Ha Hb HG Hnz.
  destruct (iPPanel Ea =? iPPanel Eb) eqn:H1;
    [left; now apply Z.eqb_eq |].
  destruct (iPPanel Ea =? iMPanel Eb) eqn:H2;
    [right; left; now apply Z.eqb_eq |].
  destruct (iMPanel Ea =? -1) eqn:HM1.
  - exfalso. apply Hnz.
    unfold GetOverlaps in HG. rewrite Ha, Hb in HG. simpl in HG.
    inv_bind HG. rewrite HM1 in HG. simpl in HG.
    rewrite H1, H2 in HG. simpl in HG.
    injection HG as <-. reflexivity.
  - assert (HMne : iMPanel Ea <> -1) by (now apply Z.eqb_neq).
    destruct (iMPanel Ea =? iPPanel Eb) eqn:H3;
      [right; right; left; split; [exact HMne | now apply Z.eqb_eq] |].
    destruct (iMPanel Ea =? iMPanel Eb) eqn:H4;
      [right; right; right; split; [exact HMne | now apply Z.eqb_eq] |].
    exfalso. apply Hnz.
    unfold GetOverlaps in HG. rewrite Ha, Hb in HG. simpl in HG.
    inv_bind HG. rewrite HM1 in HG. simpl in HG. inv_bind HG.
    rewrite H1, H2, H3, H4 in HG. simpl in HG.
    injection HG as <-. reflexivity.
Qed.

End OverlapFacts.

(** * Loops and array updates *)

(** A property that every iteration preserves holds after the loop. *)
Lemma for_each_invariant {I St} (P : St -> Prop)
    (body : I -> St -> result St) (idx : list I) :
  (forall i s s', In i idx -> P s -> body i s = Ok s' -> P s') ->
  forall s s', P s -> for_each body idx s = Ok s' -> P s'.
Proof.
  induction idx as [| i idx IH]; intros Hstep s s' Hs Hrun; simpl in Hrun.
  - injection Hrun as <-. exact Hs.
  - inv_bind Hrun.
    apply (IH (fun j t t' Hj => Hstep j t t' (or_intror Hj)) a s');
      [| exact Hrun].
    apply (Hstep i s a); [now left | exact Hs | exact Ha].
Qed.

Lemma in_range (n i : Z) : In i (range n) -> 0 <= i < n.
Proof.
  unfold range. rewrite in_map_iff. intros [k [<- Hk]].
  apply in_seq in Hk. lia.
Qed.

Lemma range_in (n i : Z) : 0 <= i < n -> In i (range n).
Proof.
  intros H. unfold range. rewrite in_map_iff.
  exists (Z.to_nat i). split; [lia |]. apply in_seq. lia.
Qed.

Lemma for_loop_invariant {St} (P : St -> Prop) (n : Z)
    (body : Z -> St -> result St) :
  (forall i s s', 0 <= i < n -> P s -> body i s = Ok s' -> P s') ->
  forall s s', P s -> for_loop n body s = Ok s' -> P s'.
Proof.
  intros Hstep. unfold for_loop. apply for_each_invariant.
  intros i s s' Hi. apply Hstep. now apply in_range.
Qed.

(** A loop all of whose iterations succeed, succeeds. *)
Lemma for_each_total {I St} (P : St -> Prop)
    (body : I -> St -> result St) (idx : list I) :
  (forall i s, In i idx -> P s -> exists s', body i s = Ok s' /\ P s') ->
  forall s, P s -> exists s', for_each body idx s = Ok s' /\ P s'.
Proof.
  induction idx as [| i idx IH]; intros Hstep s Hs; simpl.
  - eauto.
  - destruct (Hstep i s (or_introl eq_refl) Hs) as [s1 [H1 HP1]].
    rewrite H1. simpl.
    apply IH; [| exact HP1].
    intros j t Hj. apply Hstep. now right.
Qed.

Lemma for_loop_total {St} (P : St -> Prop) (n : Z)
    (body : Z -> St -> result St) :
  (forall i s, 0 <= i < n -> P s -> exists s', body i s = Ok s' /\ P s') ->
  forall s, P s -> exists s', for_loop n body s = Ok s' /\ P s'.
Proof.
  intros Hstep. unfold for_loop. apply for_each_total.
  intros i s Hi. apply Hstep. now apply in_range.
Qed.

Lemma aset_Ok {A} (a : list A) (i : nat) (x : A) (a' : list A) :
  aset a i x = Ok a' ->
  (i < List.length a)%nat /\ a' = firstn i a ++ x :: skipn (S i) a.
Proof.
  unfold aset. destruct (i <? List.length a)%nat eqn:Hi; [| discriminate].
  intros H. injection H as <-. apply Nat.ltb_lt in Hi. auto.
Qed.

Lemma aset_in_range {A} (a : list A) (i : nat) (x : A) :
  (i < List.length a)%nat -> exists a', aset a i x = Ok a'.
Proof.
  intros Hi. unfold aset. apply Nat.ltb_lt in Hi. rewrite Hi. eauto.
Qed.

Lemma aset_length {A} (a : list A) (i : nat) (x : A) (a' : list A) :
  aset a i x = Ok a' -> List.length a' = List.length a.
Proof.
  intros H. apply aset_Ok in H as [Hi ->].
  rewrite length_app, length_firstn.
  change (List.length (x :: skipn (S i) a))
    with (S (List.length (skipn (S i) a))).
  rewrite length_skipn. lia.
Qed.

Lemma nth_error_aset {A} (a : list A) (i : nat) (x : A) (a' : list A)
    (j : nat) :
  aset a i x = Ok a' ->
  nth_error a' j = if (j =? i)%nat then Some x else nth_error a j.
Proof.
  intros H. apply aset_Ok in H as [Hi ->].
  assert (Hlen : List.length (firstn i a) = i)
    by (rewrite length_firstn; lia).
  destruct (j =? i)%nat eqn:Hj.
  - apply Nat.eqb_eq in Hj. subst j.
    rewrite nth_error_app2 by lia. rewrite Hlen, Nat.sub_diag. reflexivity.
  - apply Nat.eqb_neq in Hj.
    destruct (Nat.lt_ge_cases j i) as [Hlt | Hge].
    + rewrite nth_error_app1 by lia.
      now rewrite nth_error_firstn, (proj2 (Nat.ltb_lt _ _) Hlt).
    + rewrite nth_error_app2 by lia. rewrite Hlen.
      destruct (j - i)%nat as [| k] eqn:Hk; [lia |].
      change (nth_error (x :: skipn (S i) a) (S k))
        with (nth_error (skipn (S i) a) k).
      rewrite nth_error_skipn. f_equal. lia.
Qed.

Lemma aget_aset {A} (a : list A) (i : nat) (x : A) (a' : list A) (j : Z) :
  aset a i x = Ok a' ->
  aget a' j = if j =? Z.of_nat i then Ok x else aget a j.
Proof.
  intros H. unfold aget.
  destruct (j <? 0) eqn:Hj0.
  - apply Z.ltb_lt in Hj0.
    destruct (j =? Z.of_nat i) eqn:Hji; [apply Z.eqb_eq in Hji; lia |].
    reflexivity.
  - apply Z.ltb_ge in Hj0.
    rewrite (nth_error_aset _ _ _ _ (Z.to_nat j) H).
    destruct (j =? Z.of_nat i) eqn:Hji.
    + apply Z.eqb_eq in Hji.
      replace (Z.to_nat j =? i)%nat with true
        by (symmetry; apply Nat.eqb_eq; lia).
      reflexivity.
    + apply Z.eqb_neq in Hji.
      replace (Z.to_nat j =? i)%nat with false
        by (symmetry; apply Nat.eqb_neq; lia).
      reflexivity.
Qed.

(** ** Sums over the edges of a row *)

Lemma edge_total_zero (NE : Z) (rest : list double) :
  edge_total NE (repeat 0%Qc (Z.to_nat NE) ++ rest) = 0%Qc.
Proof.
  unfold edge_total.
  rewrite firstn_app, repeat_length, Nat.sub_diag, firstn_O, app_nil_r.
  rewrite firstn_all2 by (rewrite repeat_length; lia).
  induction (Z.to_nat NE) as [| n IH]; simpl; [reflexivity |].
  rewrite IH. qc_ring.
Qed.

Lemma sum_firstn_update (row : list double) (i n : nat) (x d : double) :
  nth_error row i = Some x ->
  (i < n)%nat ->
  fold_right Qcplus 0%Qc
    (firstn n (firstn i row ++ (x + d)%Qc :: skipn (S i) row))
  = (fold_right Qcplus 0%Qc (firstn n row) + d)%Qc.
Proof.
  revert i n. induction row as [| y row IH]; intros i n Hx Hin.
  - destruct i; discriminate.
  - destruct n as [| n]; [lia |].
    destruct i as [| i]; simpl in *.
    + injection Hx as ->. qc_ring.
    + rewrite (IH i n Hx) by lia. qc_ring.
Qed.

Lemma edge_total_update (NE : Z) (row row' : list double) (nea : Z)
    (x d : double) :
  0 <= nea < NE ->
  aget row nea = Ok x ->
  aset row (Z.to_nat nea) (x + d)%Qc = Ok row' ->
  edge_total NE row' = (edge_total NE row + d)%Qc.
Proof.
  intros Hnea Hx Hset. apply aset_Ok in Hset as [_ ->].
  unfold edge_total. apply sum_firstn_update; [| lia].
  unfold aget in Hx.
  destruct (nea <? 0); [discriminate |].
  destruct (nth_error row (Z.to_nat nea)); congruence.
Qed.



(** Two loops over the same indices whose bodies keep a relation between
    their states: when the first returns, so does the second, in a
    related state. *)
Lemma for_each_related {I St} (R : St -> St -> Prop)
    (body1 body2 : I -> St -> result St) (idx : list I) :
  (forall i s1 s2 s1', In i idx -> R s1 s2 -> body1 i s1 = Ok s1' ->
                       exists s2', body2 i s2 = Ok s2' /\ R s1' s2') ->
  forall s1 s2 s1', R s1 s2 -> for_each body1 idx s1 = Ok s1' ->
                    exists s2', for_each body2 idx s2 = Ok s2' /\ R s1' s2'.
Proof.
  induction idx as [| i idx IH]; intros Hstep s1 s2 s1' HR Hrun;
    simpl in *.
  - injection Hrun as <-. eauto.
  - inv_bind Hrun.
    destruct (Hstep i s1 s2 a (or_introl eq_refl) HR Ha) as [b [Hb HRb]].
    rewrite Hb. simpl.
    apply (IH (fun j t1 t2 t1' Hj => Hstep j t1 t2 t1' (or_intror Hj))
              a b s1' HRb Hrun).
Qed.

Section OverlapClaims.
Context {X : Collaborators}.

(** C3.  Two basis functions of one surface whose panel supports are
    disjoint have all twenty overlap integrals exactly zero: [GetOverlaps]
    returns the zero-initialised array. *)
Theorem GetOverlaps_disjoint_support_zero (S : RWGSurface)
    (neAlpha neBeta : Z) (EAlpha EBeta : RWGEdge) :
  aget (Edges S) neAlpha = Ok EAlpha ->
  aget (Edges S) neBeta = Ok EBeta ->
  edge_panels_ok S EAlpha = true ->
  disjoint_support EAlpha EBeta = true ->
  GetOverlaps S neAlpha neBeta = Ok (repeat 0%Qc 20).
Proof.
  intros Ha Hb Hok Hdis.
  apply GetOverlaps_no_common_panel with (Ea := EAlpha) (Eb := EBeta);
    try assumption.
  all: pose proof Hok as Hok';
    unfold edge_panels_ok in Hok'; apply andb_true_iff in Hok' as [HP _];
    apply has_panel_nonneg in HP;
    unfold disjoint_support, support in Hdis;
    destruct (iMPanel EAlpha =? -1) eqn:HMa;
    destruct (iMPanel EBeta =? -1) eqn:HMb;
    simpl in Hdis;
    repeat rewrite ?andb_true_iff, ?negb_true_iff, ?orb_false_iff in Hdis;
    repeat match goal with H : _ /\ _ |- _ => destruct H end;
    simpl; try assumption; try reflexivity.
  all: try (apply Z.eqb_eq in HMb; rewrite HMb; apply Z.eqb_neq; lia).
Qed.

Lemma combine_range_In {A} (l : list A) (s k : nat) (x : A) :
  nth_error l k = Some x ->
  In (Z.of_nat (s + k), x)
     (combine (map Z.of_nat (seq s (List.length l))) l).
Proof.
  revert s k. induction l as [| y l IH]; intros s k Hk.
  - destruct k; discriminate.
  - destruct k as [| k]; simpl in *.
    + injection Hk as ->. left. now rewrite Nat.add_0_r.
    + right. replace (s + S k)%nat with (S s + k)%nat by lia.
      now apply IH.
Qed.

Lemma wf_mesh_edge_ok (S : RWGSurface) (ne : Z) (E : RWGEdge) :
  wf_mesh S = true -> aget (Edges S) ne = Ok E -> edge_ok S ne E = true.
Proof.
  intros Hwf Hget.
  pose proof (aget_Ok_range _ _ _ Hget) as Hr.
  unfold wf_mesh in Hwf. rewrite forallb_forall in Hwf.
  apply (Hwf (ne, E)).
  unfold range, NumEdges. rewrite Nat2Z.id.
  replace ne with (Z.of_nat (0 + Z.to_nat ne)) by lia.
  apply combine_range_In.
  replace ne with (Z.of_nat (Z.to_nat ne)) in Hget by lia.
  rewrite aget_nth_error in Hget.
  destruct (nth_error (Edges S) (Z.to_nat ne)); congruence.
Qed.

Lemma panel_lists_edge_In (S : RWGSurface) (np i ne : Z) (P : RWGPanel) :
  aget (Panels S) np = Ok P ->
  panel_lists_edge S np i ne = true ->
  In ne (panel_edges P).
Proof.
  unfold panel_lists_edge, panel_edges. intros ->.
  destruct (v3get (EI P) i) as [e | f] eqn:Hv; [| discriminate].
  intros He. apply Z.eqb_eq in He. subst e.
  destruct (v3get_Ok_range _ _ _ Hv) as [-> | [-> | ->]];
    simpl in Hv; injection Hv as <-; simpl; auto.
Qed.

(** The two entries [EI[(i+1)%3]] and [EI[(i+2)%3]] are the edges of the
    panel other than [EI[i]]. *)
Lemma other_two_edges (P : RWGPanel) (i ne : Z) :
  v3get (EI P) i = Ok ne ->
  exists e1 e2,
    v3get (EI P) (Z.rem (i + 1) 3) = Ok e1 /\
    v3get (EI P) (Z.rem (i + 2) 3) = Ok e2 /\
    Permutation (panel_edges P) [ne; e1; e2].
Proof.
  intros Hv. unfold panel_edges.
  destruct (v3get_Ok_range _ _ _ Hv) as [-> | [-> | ->]];
    simpl in Hv; injection Hv as <-; simpl;
    do 2 eexists; (split; [reflexivity | split; [reflexivity |]]).
  - apply Permutation_refl.
  - apply perm_trans with [c1 (EI P); c0 (EI P); c2 (EI P)].
    + apply perm_swap.
    + apply perm_skip. apply perm_swap.
  - apply perm_trans with [c0 (EI P); c2 (EI P); c1 (EI P)].
    + apply perm_skip. apply perm_swap.
    + apply perm_swap.
Qed.

Lemma panel_lists_edge_inv (S : RWGSurface) (np i ne : Z) :
  panel_lists_edge S np i ne = true ->
  exists P, aget (Panels S) np = Ok P /\ v3get (EI P) i = Ok ne.
Proof.
  unfold panel_lists_edge.
  destruct (aget (Panels S) np) as [P | f]; [| discriminate].
  destruct (v3get (EI P) i) as [e | f] eqn:Hv; [| discriminate].
  intros He. apply Z.eqb_eq in He. subst e. eauto.
Qed.

(** The shape of what [GetOverlappingEdgeIndices] returns on a consistent
    mesh. *)
Lemma GetOverlappingEdgeIndices_shape (S : RWGSurface) (nea : Z)
    (E : RWGEdge) (nebArray : list Z) :
  wf_mesh S = true ->
  aget (Edges S) nea = Ok E ->
  List.length nebArray = 5%nat ->
  exists r PP,
    GetOverlappingEdgeIndices S nea nebArray = Ok r
    /\ fst r = (if iMPanel E =? -1 then 3 else 5)
    /\ List.length (enumerated r) = Z.to_nat (fst r)
    /\ nth_error (enumerated r) 0 = Some nea
    /\ aget (Panels S) (iPPanel E) = Ok PP
    /\ Permutation (panel_edges PP) (firstn 3 (enumerated r))
    /\ (iMPanel E <> -1 ->
        exists PM, aget (Panels S) (iMPanel E) = Ok PM
                   /\ Permutation (panel_edges PM)
                                  (nea :: skipn 3 (enumerated r))).
Proof.
  intros Hwf HE Hlen.
  pose proof (wf_mesh_edge_ok _ _ _ Hwf HE) as Hok.
  unfold edge_ok in Hok. apply andb_true_iff in Hok as [HokP HokM].
  destruct (panel_lists_edge_inv _ _ _ _ HokP) as [PP [HPP HvP]].
  destruct (other_two_edges _ _ _ HvP) as [e1 [e2 [He1 [He2 HpermP]]]].
  destruct nebArray as [| a0 [| a1 [| a2 [| a3 [| a4 [| ? ?]]]]]];
    try discriminate Hlen.
  unfold GetOverlappingEdgeIndices. simpl. rewrite HE. simpl.
  rewrite HPP. simpl. rewrite He1. simpl. rewrite He2. simpl.
  destruct (iMPanel E =? -1) eqn:HM1.
  - eexists. exists PP. split; [reflexivity |]. simpl.
    repeat split; try assumption.
    intros Hne. apply Z.eqb_eq in HM1. contradiction.
  - simpl in HokM.
    destruct (panel_lists_edge_inv _ _ _ _ HokM) as [PM [HPM HvM]].
    destruct (other_two_edges _ _ _ HvM) as [e3 [e4 [He3 [He4 HpermM]]]].
    rewrite HPM. simpl. rewrite He3. simpl. rewrite He4. simpl.
    eexists. exists PP. split; [reflexivity |]. simpl.
    repeat split; try assumption.
    intros _. exists PM. split; [reflexivity | exact HpermM].
Qed.

(** C4.  On a surface whose edge/panel bookkeeping is consistent,
    [GetOverlappingEdgeIndices] enumerates [nea] itself and the other two
    edges of each adjoining panel -- three entries for an edge without
    negative panel, five otherwise -- and every [neb] whose overlaps with
    [nea] are not all zero is among them. *)
Theorem GetOverlappingEdgeIndices_superset (S : RWGSurface) (nea : Z)
    (E : RWGEdge) (nebArray : list Z) :
  wf_mesh S = true ->
  aget (Edges S) nea = Ok E ->
  List.length nebArray = 5%nat ->
  exists r PP,
    GetOverlappingEdgeIndices S nea nebArray = Ok r
    /\ fst r = (if iMPanel E =? -1 then 3 else 5)
    /\ List.length (enumerated r) = Z.to_nat (fst r)
    /\ nth_error (enumerated r) 0 = Some nea
    /\ aget (Panels S) (iPPanel E) = Ok PP
    /\ Permutation (panel_edges PP) (firstn 3 (enumerated r))
    /\ (iMPanel E <> -1 ->
        exists PM, aget (Panels S) (iMPanel E) = Ok PM
                   /\ Permutation (panel_edges PM)
                                  (nea :: skipn 3 (enumerated r)))
    /\ (forall neb Overlaps,
          GetOverlaps S nea neb = Ok Overlaps ->
          Overlaps <> repeat 0%Qc 20 ->
          In neb (enumerated r)).
Proof.
  intros Hwf HE Hlen.
  destruct (GetOverlappingEdgeIndices_shape _ _ _ _ Hwf HE Hlen)
    as [r [PP [Hr [Hcount [Hlenr [Hfirst [HPP [HpP HpM]]]]]]]].
  pose proof (wf_mesh_edge_ok _ _ _ Hwf HE) as Hok.
  unfold edge_ok in Hok. apply andb_true_iff in Hok as [HokP HokM].
  exists r, PP. repeat split; try assumption.
  (* every partner with a non-zero overlap is enumerated *)
  intros neb Overlaps HG Hnz.
  assert (HEb : exists Eb, aget (Edges S) neb = Ok Eb).
  { unfold GetOverlaps in HG. rewrite HE in HG. simpl in HG.
    inv_bind HG. eauto. }
  destruct HEb as [Eb HEb].
  pose proof (wf_mesh_edge_ok _ _ _ Hwf HEb) as Hokb.
  unfold edge_ok in Hokb. apply andb_true_iff in Hokb as [HokbP HokbM].
  pose proof (aget_Ok_range _ _ _ HPP) as HrangeP.
  assert (HinP : forall e, In e (panel_edges PP) -> In e (enumerated r)).
  { intros e He. apply (Permutation_in _ HpP) in He.
    rewrite <- (firstn_skipn 3 (enumerated r)). apply in_or_app. now left. }
  assert (HinM : forall PM e, iMPanel E <> -1 ->
            aget (Panels S) (iMPanel E) = Ok PM ->
            In e (panel_edges PM) -> In e (enumerated r)).
  { intros PM e Hne HPM He.
    destruct (HpM Hne) as [PM' [HPM' Hperm]].
    assert (PM' = PM) by congruence. subst PM'.
    apply (Permutation_in _ Hperm) in He. destruct He as [<- | He].
    - apply nth_error_In with (n := 0%nat). exact Hfirst.
    - rewrite <- (firstn_skipn 3 (enumerated r)). apply in_or_app.
      now right. }
  destruct (GetOverlaps_nonzero_shares _ _ _ _ _ _ HE HEb HG Hnz)
    as [Hs | [Hs | [[Hne Hs] | [Hne Hs]]]].
  - apply HinP. rewrite Hs in HPP.
    exact (panel_lists_edge_In _ _ _ _ _ HPP HokbP).
  - apply HinP.
    assert (HMb : (iMPanel Eb =? -1) = false)
      by (apply Z.eqb_neq; lia).
    rewrite HMb in HokbM. simpl in HokbM. rewrite Hs in HPP.
    exact (panel_lists_edge_In _ _ _ _ _ HPP HokbM).
  - destruct (HpM Hne) as [PM [HPM _]].
    apply (HinM PM); try assumption. rewrite Hs in HPM.
    exact (panel_lists_edge_In _ _ _ _ _ HPM HokbP).
  - destruct (HpM Hne) as [PM [HPM _]].
    apply (HinM PM); try assumption.
    assert (HMb : (iMPanel Eb =? -1) = false)
      by (apply Z.eqb_neq; lia).
    rewrite HMb in HokbM. simpl in HokbM. rewrite Hs in HPM.
    exact (panel_lists_edge_In _ _ _ _ _ HPM HokbM).
Qed.

End OverlapClaims.

(** * The overlap engine stays within its arrays on a well-formed surface *)

Section OverlapTotal.
Context {X : Collaborators}.

Lemma has_vertex_aget (S : RWGSurface) (i : Z) :
  has_vertex S i = true -> exists v, aget (Vertices S) i = Ok v.
Proof.
  unfold has_vertex. intros H. apply andb_true_iff in H as [H0 H1].
  apply Z.leb_le in H0. apply Z.ltb_lt in H1. apply aget_in_range. lia.
Qed.

Lemma has_edge_aget (S : RWGSurface) (e : Z) :
  has_edge S e = true -> exists E, aget (Edges S) e = Ok E.
Proof.
  unfold has_edge, NumEdges. intros H. apply andb_true_iff in H as [H0 H1].
  apply Z.leb_le in H0. apply Z.ltb_lt in H1. apply aget_in_range. lia.
Qed.

Lemma aget_In {A} (a : list A) (i : Z) (x : A) : aget a i = Ok x -> In x a.
Proof.
  unfold aget. destruct (i <? 0); [discriminate |].
  destruct (nth_error a (Z.to_nat i)) eqn:Hn; [| discriminate].
  intros H. injection H as <-. eapply nth_error_In. exact Hn.
Qed.

Lemma wf_surface_panel (S : RWGSurface) (np : Z) (P : RWGPanel) :
  wf_surface S = true -> aget (Panels S) np = Ok P -> panel_ok S P = true.
Proof.
  unfold wf_surface. intros H HP. apply andb_true_iff in H as [_ H].
  rewrite forallb_forall in H. apply H. eapply aget_In. exact HP.
Qed.

Lemma panel_ok_vertex (S : RWGSurface) (P : RWGPanel) (i vi : Z) :
  panel_ok S P = true -> v3get (VI P) i = Ok vi ->
  exists v, aget (Vertices S) vi = Ok v.
Proof.
  unfold panel_ok. intros H Hv. apply andb_true_iff in H as [H _].
  simpl in H. rewrite !andb_true_iff in H. destruct H as [H0 [H1 [H2 _]]].
  apply has_vertex_aget.
  destruct (v3get_Ok_range _ _ _ Hv) as [-> | [-> | ->]];
    simpl in Hv; injection Hv as <-; assumption.
Qed.

Lemma rem3_range (i : Z) (j : Z) :
  0 <= i < 3 -> 0 <= j -> 0 <= Z.rem (i + j) 3 < 3.
Proof.
  intros Hi Hj. apply Z.rem_bound_pos; lia.
Qed.

Lemma AddOverlapContributions_total (S : RWGSurface) (P : RWGPanel)
    (iQa iQb : Z) (Sign LL : double) (Overlaps : list double) :
  panel_ok S P = true ->
  0 <= iQa < 3 -> 0 <= iQb < 3 ->
  exists O, AddOverlapContributions S P iQa iQb Sign LL Overlaps = Ok O.
Proof.
  intros HP Ha Hb. unfold AddOverlapContributions.
  destruct (v3get_in_range (VI P) iQa Ha) as [v1 Hv1].
  destruct (v3get_in_range (VI P) _ (rem3_range iQa 1 Ha ltac:(lia)))
    as [v2 Hv2].
  destruct (v3get_in_range (VI P) _ (rem3_range iQa 2 Ha ltac:(lia)))
    as [v3 Hv3].
  destruct (v3get_in_range (VI P) iQb Hb) as [v4 Hv4].
  destruct (panel_ok_vertex _ _ _ _ HP Hv1) as [Q1 HQ1].
  destruct (panel_ok_vertex _ _ _ _ HP Hv2) as [Q2 HQ2].
  destruct (panel_ok_vertex _ _ _ _ HP Hv3) as [Q3 HQ3].
  destruct (panel_ok_vertex _ _ _ _ HP Hv4) as [Q4 HQ4].
  rewrite Hv1. cbn [bind]. rewrite HQ1. cbn [bind].
  rewrite Hv2. cbn [bind]. rewrite HQ2. cbn [bind].
  rewrite Hv3. cbn [bind]. rewrite HQ3. cbn [bind].
  rewrite Hv4. cbn [bind]. rewrite HQ4. cbn [bind].
  eauto.
Qed.

Lemma panel_lists_edge_index (S : RWGSurface) (np i ne : Z) :
  panel_lists_edge S np i ne = true -> 0 <= i < 3 /\ 0 <= np.
Proof.
  intros H. destruct (panel_lists_edge_inv _ _ _ _ H) as [P [HP Hv]].
  apply aget_Ok_range in HP.
  destruct (v3get_Ok_range _ _ _ Hv) as [-> | [-> | ->]]; lia.
Qed.

(** [GetOverlaps] returns on every pair of edges of a well-formed
    surface. *)
Lemma GetOverlaps_total (S : RWGSurface) (nea neb : Z) (Ea Eb : RWGEdge) :
  wf_surface S = true ->
  aget (Edges S) nea = Ok Ea ->
  aget (Edges S) neb = Ok Eb ->
  exists O, GetOverlaps S nea neb = Ok O.
Proof.
  intros Hwf HEa HEb.
  pose proof Hwf as Hwf'. unfold wf_surface in Hwf'.
  apply andb_true_iff in Hwf' as [Hmesh _].
  pose proof (wf_mesh_edge_ok _ _ _ Hmesh HEa) as Hoka.
  pose proof (wf_mesh_edge_ok _ _ _ Hmesh HEb) as Hokb.
  unfold edge_ok in Hoka, Hokb.
  apply andb_true_iff in Hoka as [HaP HaM].
  apply andb_true_iff in Hokb as [HbP HbM].
  destruct (panel_lists_edge_inv _ _ _ _ HaP) as [PP [HPP _]].
  destruct (panel_lists_edge_index _ _ _ _ HaP) as [HiPa HnPa].
  destruct (panel_lists_edge_index _ _ _ _ HbP) as [HiPb _].
  pose proof (wf_surface_panel _ _ _ Hwf HPP) as HokPP.
  assert (HiMb : iMPanel Eb <> -1 -> 0 <= MIndex Eb < 3).
  { intros Hne. apply Z.eqb_neq in Hne. rewrite Hne in HbM.
    simpl in HbM. now apply panel_lists_edge_index in HbM. }
  unfold GetOverlaps. rewrite HEa, HEb. cbn [bind]. rewrite HPP. cbn [bind].
  (* the contributions through the positive panel of the first edge *)
  assert (Hstep1 : forall O, exists O',
    (if iPPanel Ea =? iPPanel Eb
     then AddOverlapContributions S PP (PIndex Ea) (PIndex Eb) 1%Qc
            (Length Ea * Length Eb)%Qc O
     else Ok O) = Ok O').
  { intros O. destruct (iPPanel Ea =? iPPanel Eb); [| eauto].
    now apply AddOverlapContributions_total. }
  assert (Hstep2 : forall O, exists O',
    (if iPPanel Ea =? iMPanel Eb
     then AddOverlapContributions S PP (PIndex Ea) (MIndex Eb) (- (1))%Qc
            (Length Ea * Length Eb)%Qc O
     else Ok O) = Ok O').
  { intros O. destruct (iPPanel Ea =? iMPanel Eb) eqn:He; [| eauto].
    apply Z.eqb_eq in He.
    apply AddOverlapContributions_total; try assumption.
    apply HiMb. lia. }
  destruct (iMPanel Ea =? -1) eqn:HM1; cbn [bind negb andb].
  - destruct (Hstep1 (repeat 0%Qc NUMOVERLAPS)) as [O1 ->]. cbn [bind].
    destruct (Hstep2 O1) as [O2 ->]. cbn [bind]. eauto.
  - simpl in HaM.
    destruct (panel_lists_edge_inv _ _ _ _ HaM) as [PM [HPM _]].
    destruct (panel_lists_edge_index _ _ _ _ HaM) as [HiMa _].
    pose proof (wf_surface_panel _ _ _ Hwf HPM) as HokPM.
    rewrite HPM. cbn [bind].
    destruct (Hstep1 (repeat 0%Qc NUMOVERLAPS)) as [O1 ->]. cbn [bind].
    destruct (Hstep2 O1) as [O2 ->]. cbn [bind].
    assert (Hstep3 : exists O3,
      (if iMPanel Ea =? iPPanel Eb
       then P <- deref (Some PM) ;;
            AddOverlapContributions S P (MIndex Ea) (PIndex Eb) (- (1))%Qc
              (Length Ea * Length Eb)%Qc O2
       else Ok O2) = Ok O3).
    { destruct (iMPanel Ea =? iPPanel Eb); [| eauto]. cbn [deref bind].
      now apply AddOverlapContributions_total. }
    destruct Hstep3 as [O3 ->]. cbn [bind].
    assert (Hstep4 : exists O4,
      (if iMPanel Ea =? iMPanel Eb
       then P <- deref (Some PM) ;;
            AddOverlapContributions S P (MIndex Ea) (MIndex Eb) 1%Qc
              (Length Ea * Length Eb)%Qc O3
       else Ok O3) = Ok O4).
    { destruct (iMPanel Ea =? iMPanel Eb) eqn:He; [| eauto].
      cbn [deref bind]. apply Z.eqb_eq in He. apply Z.eqb_neq in HM1.
      apply AddOverlapContributions_total; try assumption.
      apply HiMb. lia. }
    destruct Hstep4 as [O4 ->]. cbn [bind]. eauto.
Qed.

End OverlapTotal.

(** * The per-edge arrays *)

Section ByEdgeFacts.
Variable NE : Z.

Lemma ZeroByEdge_step (nq : Z) (rows rows1 : list (option (list double))) :
  (r <- aget rows nq ;;
   match r with
   | None => Ok rows
   | Some row =>
       row <- memset_row NE row ;; aset rows (Z.to_nat nq) (Some row)
   end) = Ok rows1 ->
  zeroed NE rows1 nq /\ (forall q, zeroed NE rows q -> zeroed NE rows1 q).
Proof.
  intros H. inv_bind H.
  pose proof (aget_Ok_range _ _ _ Ha) as Hr.
  destruct a as [row |].
  - inv_bind H. unfold memset_row in Ha0.
    destruct (Z.to_nat NE <=? List.length row)%nat; [| discriminate].
    injection Ha0 as <-.
    assert (Hget : forall q, aget rows1 q =
              if q =? nq then Ok (Some (repeat 0%Qc (Z.to_nat NE)
                                         ++ skipn (Z.to_nat NE) row))
              else aget rows q).
    { intros q. rewrite (aget_aset _ _ _ _ q H).
      now replace (Z.of_nat (Z.to_nat nq)) with nq by lia. }
    split.
    + intros row' Hrow'. rewrite Hget, Z.eqb_refl in Hrow'.
      injection Hrow' as <-. apply edge_total_zero.
    + intros q Hq row' Hrow'. rewrite Hget in Hrow'.
      destruct (q =? nq).
      * injection Hrow' as <-. apply edge_total_zero.
      * now apply Hq.
  - injection H as <-. split.
    + intros row Hrow. congruence.
    + auto.
Qed.

Lemma ZeroByEdge_loop (idx : list Z) :
  forall rows rows',
    for_each (fun nq rows =>
                r <- aget rows nq ;;
                match r with
                | None => Ok rows
                | Some row =>
                    row <- memset_row NE row ;;
                    aset rows (Z.to_nat nq) (Some row)
                end) idx rows = Ok rows' ->
    forall q, In q idx \/ zeroed NE rows q -> zeroed NE rows' q.
Proof.
  induction idx as [| i idx IH]; intros rows rows' Hrun q Hq;
    simpl in Hrun.
  - injection Hrun as <-. destruct Hq as [[] | Hq]. exact Hq.
  - inv_bind Hrun. apply ZeroByEdge_step in Ha as [Hi Hkeep].
    apply (IH a rows' Hrun).
    destruct Hq as [[<- | Hq] | Hq]; [right | left | right]; auto.
Qed.

(** After [ZeroByEdge] each of the seven rows sums to zero. *)
Lemma ZeroByEdge_zeroed (B B' : ByEdgeArrays) :
  ZeroByEdge NE B = Ok B' ->
  forall q row, 0 <= q < 7 -> ByEdgeRow B' q = Some row ->
                edge_total NE row = 0%Qc.
Proof.
  unfold ZeroByEdge. destruct B as [rows |].
  - intros H. inv_bind H. injection H as <-.
    intros q row Hq Hrow. unfold ByEdgeRow in Hrow.
    destruct (aget a q) as [[row' |] | f] eqn:Hget; try discriminate.
    injection Hrow as ->.
    unfold for_loop in Ha.
    apply (ZeroByEdge_loop _ _ _ Ha q); [| exact Hget].
    left. apply range_in. exact Hq.
  - intros H. injection H as <-. intros q row _ Hrow. discriminate.
Qed.

Lemma ByEdgeAdd_row (q nea : Z) (d : double)
    (rows rows' : list (option (list double))) :
  0 <= nea < NE ->
  ByEdgeAdd q nea d rows = Ok rows' ->
  forall q0 row', aget rows' q0 = Ok (Some row') ->
    exists row, aget rows q0 = Ok (Some row)
                /\ edge_total NE row' =
                   (edge_total NE row + (if q0 =? q then d else 0))%Qc.
Proof.
  intros Hnea H q0 row' Hrow'. unfold ByEdgeAdd in H. inv_bind H.
  pose proof (aget_Ok_range _ _ _ Ha) as Hr.
  destruct a as [row |].
  - inv_bind H. inv_bind H.
    rewrite (aget_aset _ _ _ _ q0 H) in Hrow'.
    replace (Z.of_nat (Z.to_nat q)) with q in Hrow' by lia.
    destruct (q0 =? q) eqn:Hq.
    + apply Z.eqb_eq in Hq. subst q0. injection Hrow' as <-.
      exists row. split; [exact Ha |].
      now apply edge_total_update with (nea := nea) (x := a).
    + exists row'. split; [exact Hrow' | qc_ring].
  - injection H as <-. exists row'. split; [exact Hrow' |].
    destruct (q0 =? q) eqn:Hq; [| qc_ring].
    apply Z.eqb_eq in Hq. subst q0. congruence.
Qed.

Lemma AccumulateByEdge_row (nea : Z) (d : PFTSums) (B B' : ByEdgeArrays) :
  0 <= nea < NE ->
  AccumulateByEdge nea d B = Ok B' ->
  forall q row', 0 <= q < 7 -> ByEdgeRow B' q = Some row' ->
    exists row, ByEdgeRow B q = Some row
                /\ edge_total NE row' =
                   (edge_total NE row + sums_component d q)%Qc.
Proof.
  intros Hnea H q row' Hq Hrow'. unfold AccumulateByEdge in H.
  destruct B as [rows |].
  - do 7 inv_bind H. injection H as <-.
    unfold ByEdgeRow in Hrow'.
    destruct (aget a5 q) as [[r7 |] | f] eqn:H7; try discriminate.
    injection Hrow' as ->.
    destruct (ByEdgeAdd_row _ _ _ _ _ Hnea Ha5 _ _ H7) as [r6 [H6 E6]].
    destruct (ByEdgeAdd_row _ _ _ _ _ Hnea Ha4 _ _ H6) as [r5 [H5 E5]].
    destruct (ByEdgeAdd_row _ _ _ _ _ Hnea Ha3 _ _ H5) as [r4 [H4 E4]].
    destruct (ByEdgeAdd_row _ _ _ _ _ Hnea Ha2 _ _ H4) as [r3 [H3 E3]].
    destruct (ByEdgeAdd_row _ _ _ _ _ Hnea Ha1 _ _ H3) as [r2 [H2 E2]].
    destruct (ByEdgeAdd_row _ _ _ _ _ Hnea Ha0 _ _ H2) as [r1 [H1 E1]].
    destruct (ByEdgeAdd_row _ _ _ _ _ Hnea Ha _ _ H1) as [r0 [H0 E0]].
    exists r0. split.
    + unfold ByEdgeRow. now rewrite H0.
    + rewrite E6, E5, E4, E3, E2, E1, E0.
      assert (Hcases : q = 0 \/ q = 1 \/ q = 2 \/ q = 3 \/ q = 4 \/ q = 5
                       \/ q = 6) by lia.
      destruct Hcases as [-> | [-> | [-> | [-> | [-> | [-> | ->]]]]]];
        simpl; qc_ring.
  - injection H as <-. discriminate.
Qed.

Lemma sums_component_add (s d : PFTSums) (q : Z) :
  sums_component (add_sums s d) q
  = (sums_component s q + sums_component d q)%Qc.
Proof.
  unfold sums_component, add_sums.
  destruct q as [| p | p]; try reflexivity.
  do 3 (destruct p as [p | p |]; try reflexivity).
Qed.

Lemma rows_match_sums_accumulate (nea : Z) (d sums : PFTSums)
    (B B' : ByEdgeArrays) :
  0 <= nea < NE ->
  rows_match_sums NE (sums, B) ->
  AccumulateByEdge nea d B = Ok B' ->
  rows_match_sums NE (add_sums sums d, B').
Proof.
  intros Hnea Hinv Hacc q row' Hq Hrow'. simpl in *.
  destruct (AccumulateByEdge_row _ _ _ _ Hnea Hacc q row' Hq Hrow')
    as [row [Hrow ->]].
  rewrite sums_component_add. f_equal. now apply Hinv.
Qed.

Lemma rows_match_sums_init (B B' : ByEdgeArrays) :
  ZeroByEdge NE B = Ok B' -> rows_match_sums NE (zero_sums, B').
Proof.
  intros H q row Hq Hrow. simpl in *.
  rewrite (ZeroByEdge_zeroed _ _ H q row Hq Hrow).
  destruct q as [| p | p]; try reflexivity.
  do 3 (destruct p as [p | p |]; try reflexivity).
Qed.

End ByEdgeFacts.

(** * The reduction routine [GetOPFT] *)

Section GetOPFTFacts.
Context {X : Collaborators}.

(** The surface index passes the entry check exactly when it names a
    surface. *)
Lemma surface_check (G : RWGGeometry) (SurfaceIndex : Z) :
  (SurfaceIndex <? 0) || (SurfaceIndex >=? NumSurfaces G) = false
  <-> exists S, aget (Surfaces G) SurfaceIndex = Ok S.
Proof.
  unfold NumSurfaces. split.
  - intros H. apply orb_false_iff in H as [H0 H1].
    apply Z.ltb_ge in H0. rewrite Z.geb_leb in H1. apply Z.leb_gt in H1.
    apply aget_in_range. lia.
  - intros [S HS]. apply aget_Ok_range in HS.
    apply orb_false_iff. split; [apply Z.ltb_ge; lia |].
    rewrite Z.geb_leb. apply Z.leb_gt. lia.
Qed.

(** What a call that passes the entry check computes. *)
Lemma GetOPFT_valid (G : RWGGeometry) (SurfaceIndex : Z) (Omega : cdouble)
    (KNVector RHS : option HVector) (RytovMatrix : option HMatrix)
    (ByEdge : ByEdgeArrays) (S : RWGSurface) (out : PFTOutput) :
  aget (Surfaces G) SurfaceIndex = Ok S ->
  GetOPFT G SurfaceIndex Omega KNVector RHS RytovMatrix ByEdge = Ok out ->
  exists Offset ZZ k2 ByEdge0 sums,
    aget (BFIndexOffset G) SurfaceIndex = Ok Offset
    /\ ZeroByEdge (NumEdges S) ByEdge = Ok ByEdge0
    /\ for_loop (NumEdges S)
         (OPFT_OuterBody S Offset Omega ZZ k2 KNVector RytovMatrix)
         (zero_sums, ByEdge0) = Ok (sums, ByEdgeOut out)
    /\ Events out = []
    /\ PFT out =
       match KNVector, RHS with
       | Some KNV, Some RHSV =>
           [PAbs sums; (OPFT_Extinction S Offset KNV RHSV - PAbs sums)%Qc;
            Fx sums; Fy sums; Fz sums; Taux sums; Tauy sums; Tauz sums]
       | _, _ =>
           [PAbs sums; 0%Qc;
            Fx sums; Fy sums; Fz sums; Taux sums; Tauy sums; Tauz sums]
       end.
Proof.
  intros HS H. unfold GetOPFT in H.
  assert (Hchk : (SurfaceIndex <? 0) || (SurfaceIndex >=? NumSurfaces G)
                 = false) by (apply surface_check; eauto).
  rewrite Hchk, HS in H. simpl in H.
  inv_bind H. inv_bind H.
  destruct (a0 Omega) as [Eps Mu].
  inv_bind H. inv_bind H. destruct a2 as [sums ByEdge1].
  injection H as <-. simpl.
  exists a. do 2 eexists. exists a1, sums.
  repeat split; eassumption.
Qed.

(** On a PEC surface with a current vector the couplings KN and NK
    vanish, and with them the power contribution of the pair, which is
    [0.25*real((KN-NK)*Overlaps[OVERLAP_CROSS])]. *)
Lemma PEC_pair_power_zero (S : RWGSurface) (Offset : Z) (KNV : HVector)
    (RytovMatrix : option HMatrix) (nea neb : Z) (cp : CurrentProducts)
    (ZZ k2 Omega : cdouble) (Overlaps : list double) :
  IsPEC S = true ->
  OPFT_CurrentProducts S Offset (Some KNV) RytovMatrix nea neb = Ok cp ->
  KN cp = C.zero /\ NK cp = C.zero
  /\ PAbs (OPFT_PairContribution cp ZZ k2 Omega Overlaps) = 0%Qc.
Proof.
  intros HPEC H. unfold OPFT_CurrentProducts in H. rewrite HPEC in H.
  injection H as <-. simpl. repeat split. ring.
Qed.

(** The general form of the power contribution of a pair. *)
Lemma pair_power_formula (cp : CurrentProducts) (ZZ k2 Omega : cdouble)
    (Overlaps : list double) :
  PAbs (OPFT_PairContribution cp ZZ k2 Omega Overlaps)
  = (lit 1 4 * real (ov Overlaps OVERLAP_CROSS *: (KN cp - NK cp)%C))%Qc.
Proof. reflexivity. Qed.

Lemma OPFT_InnerBody_inv (NE : Z) (S : RWGSurface) (Offset : Z)
    (Omega ZZ k2 : cdouble) (KNVector : option HVector)
    (RytovMatrix : option HMatrix) (nea : Z) (nebArray : list Z) (nneb : Z)
    (st st' : PFTSums * ByEdgeArrays) :
  0 <= nea < NE ->
  rows_match_sums NE st ->
  OPFT_InnerBody S Offset Omega ZZ k2 KNVector RytovMatrix nea nebArray
                 nneb st = Ok st' ->
  rows_match_sums NE st'.
Proof.
  intros Hnea Hinv H. unfold OPFT_InnerBody in H.
  destruct st as [sums ByEdge].
  do 4 inv_bind H. injection H as <-.
  eapply rows_match_sums_accumulate; eassumption.
Qed.

Lemma OPFT_OuterBody_inv (NE : Z) (S : RWGSurface) (Offset : Z)
    (Omega ZZ k2 : cdouble) (KNVector : option HVector)
    (RytovMatrix : option HMatrix) (nea : Z)
    (st st' : PFTSums * ByEdgeArrays) :
  0 <= nea < NE ->
  rows_match_sums NE st ->
  OPFT_OuterBody S Offset Omega ZZ k2 KNVector RytovMatrix nea st = Ok st' ->
  rows_match_sums NE st'.
Proof.
  intros Hnea Hinv H. unfold OPFT_OuterBody in H.
  inv_bind H. destruct a as [nebCount nebArray].
  revert H. apply for_loop_invariant; [| exact Hinv].
  intros nneb s s' _ Hs. now apply OPFT_InnerBody_inv.
Qed.

(** Reduction consistency of [GetOPFT]: when the call passes the entry
    check and returns, every per-edge row that was supplied sums, over the
    edges of the surface, to the slot of [PFT] that holds its quantity. *)
Lemma GetOPFT_reduction_consistency (G : RWGGeometry) (SurfaceIndex : Z)
    (Omega : cdouble) (KNVector RHS : option HVector)
    (RytovMatrix : option HMatrix) (ByEdge : ByEdgeArrays)
    (S : RWGSurface) (out : PFTOutput) :
  aget (Surfaces G) SurfaceIndex = Ok S ->
  GetOPFT G SurfaceIndex Omega KNVector RHS RytovMatrix ByEdge = Ok out ->
  forall q row, 0 <= q < 7 -> ByEdgeRow (ByEdgeOut out) q = Some row ->
    edge_total (NumEdges S) row = nth (OPFT_slot q) (PFT out) 0%Qc.
Proof.
  intros HS H q row Hq Hrow.
  destruct (GetOPFT_valid _ _ _ _ _ _ _ _ _ HS H)
    as [Offset [ZZ [k2 [B0 [sums [_ [Hzero [Hloop [_ HPFT]]]]]]]]].
  assert (Hinv : rows_match_sums (NumEdges S) (sums, ByEdgeOut out)).
  { revert Hloop. apply for_loop_invariant.
    - intros nea s s' Hnea Hs. now apply OPFT_OuterBody_inv.
    - now apply rows_match_sums_init with (B := ByEdge). }
  rewrite (Hinv q row Hq Hrow). simpl. rewrite HPFT.
  assert (Hcases : q = 0 \/ q = 1 \/ q = 2 \/ q = 3 \/ q = 4 \/ q = 5
                   \/ q = 6) by lia.
  destruct KNVector, RHS;
    destruct Hcases as [-> | [-> | [-> | [-> | [-> | [-> | ->]]]]]];
    reflexivity.
Qed.

End GetOPFTFacts.

(** * [GetOPFT] runs to completion on well-formed input *)

Section RowsOk.
Variable NE : Z.

Lemma rows_ok_unfold (rows : list (option (list double))) :
  rows_ok NE (Some rows) = true <->
  (7 <= List.length rows)%nat /\ forallb (row_ok NE) rows = true.
Proof.
  unfold rows_ok. rewrite andb_true_iff, Nat.leb_le. reflexivity.
Qed.

Lemma forallb_firstn {A} (f : A -> bool) (l : list A) (n : nat) :
  forallb f l = true -> forallb f (firstn n l) = true.
Proof.
  revert n. induction l as [| x l IH]; intros [| n] H; simpl in *; auto.
  apply andb_true_iff in H as [Hx Hl]. rewrite Hx. simpl. now apply IH.
Qed.

Lemma forallb_skipn {A} (f : A -> bool) (l : list A) (n : nat) :
  forallb f l = true -> forallb f (skipn n l) = true.
Proof.
  revert n. induction l as [| x l IH]; intros [| n] H; simpl in *; auto.
  apply andb_true_iff in H as [Hx Hl]. now apply IH.
Qed.

Lemma rows_ok_aset (rows rows' : list (option (list double))) (i : nat)
    (r : option (list double)) :
  rows_ok NE (Some rows) = true ->
  row_ok NE r = true ->
  aset rows i r = Ok rows' ->
  rows_ok NE (Some rows') = true.
Proof.
  intros H Hr Hset. apply rows_ok_unfold in H as [Hlen Hall].
  apply rows_ok_unfold. split.
  - now rewrite (aset_length _ _ _ _ Hset).
  - apply aset_Ok in Hset as [_ ->].
    rewrite forallb_app. apply andb_true_iff. split.
    + now apply forallb_firstn.
    + cbn [forallb]. rewrite Hr. cbn [andb]. now apply forallb_skipn.
Qed.

Lemma rows_ok_row (rows : list (option (list double))) (q : Z)
    (r : option (list double)) :
  rows_ok NE (Some rows) = true -> aget rows q = Ok r -> row_ok NE r = true.
Proof.
  intros H Hget. apply rows_ok_unfold in H as [_ Hall].
  rewrite forallb_forall in Hall. apply Hall.
  unfold aget in Hget. destruct (q <? 0); [discriminate |].
  destruct (nth_error rows (Z.to_nat q)) eqn:Hn; [| discriminate].
  injection Hget as <-. eapply nth_error_In. exact Hn.
Qed.

Lemma rows_ok_aget (rows : list (option (list double))) (q : Z) :
  rows_ok NE (Some rows) = true -> 0 <= q < 7 ->
  exists r, aget rows q = Ok r.
Proof.
  intros H Hq. apply rows_ok_unfold in H as [Hlen _].
  apply aget_in_range. lia.
Qed.

Lemma ZeroByEdge_total (B : ByEdgeArrays) :
  rows_ok NE B = true ->
  exists B', ZeroByEdge NE B = Ok B' /\ rows_ok NE B' = true.
Proof.
  intros H. unfold ZeroByEdge. destruct B as [rows |]; [| eauto].
  destruct (for_loop_total
              (fun rows => rows_ok NE (Some rows) = true) NUMPFT
              (fun nq rows =>
                 r <- aget rows nq ;;
                 match r with
                 | None => Ok rows
                 | Some row =>
                     row <- memset_row NE row ;;
                     aset rows (Z.to_nat nq) (Some row)
                 end)) with (s := rows) as [rows' [Hrun Hok]].
  - intros nq rs Hnq Hrs. unfold NUMPFT in Hnq.
    destruct (rows_ok_aget _ _ Hrs Hnq) as [r Hr]. rewrite Hr. cbn [bind].
    destruct r as [row |]; [| eauto].
    pose proof (rows_ok_row _ _ _ Hrs Hr) as Hrow. simpl in Hrow.
    unfold memset_row. rewrite Hrow. cbn [bind].
    pose proof Hrs as Hrs'. apply rows_ok_unfold in Hrs' as [Hlen _].
    destruct (aset_in_range rs (Z.to_nat nq)
                (Some (repeat 0%Qc (Z.to_nat NE) ++ skipn (Z.to_nat NE) row)))
      as [rs' Hset]; [lia |].
    exists rs'. split; [exact Hset |].
    eapply rows_ok_aset; [exact Hrs | | exact Hset].
    simpl. apply Nat.leb_le. rewrite length_app, repeat_length. lia.
  - exact H.
  - rewrite Hrun. cbn [bind]. eauto.
Qed.

Lemma ByEdgeAdd_total (q nea : Z) (d : double)
    (rows : list (option (list double))) :
  rows_ok NE (Some rows) = true ->
  0 <= q < 7 -> 0 <= nea < NE ->
  exists rows', ByEdgeAdd q nea d rows = Ok rows'
                /\ rows_ok NE (Some rows') = true.
Proof.
  intros H Hq Hnea. unfold ByEdgeAdd.
  destruct (rows_ok_aget _ _ H Hq) as [r Hr]. rewrite Hr. cbn [bind].
  destruct r as [row |]; [| eauto].
  pose proof (rows_ok_row _ _ _ H Hr) as Hrow. simpl in Hrow.
  apply Nat.leb_le in Hrow.
  destruct (aget_in_range row nea) as [x Hx]; [lia |].
  rewrite Hx. cbn [bind].
  destruct (aset_in_range row (Z.to_nat nea) (x + d)%Qc) as [row' Hrow'];
    [lia |].
  rewrite Hrow'. cbn [bind].
  pose proof H as H'. apply rows_ok_unfold in H' as [Hlen _].
  destruct (aset_in_range rows (Z.to_nat q) (Some row')) as [rows' Hset];
    [lia |].
  exists rows'. split; [exact Hset |].
  eapply rows_ok_aset; [exact H | | exact Hset].
  simpl. apply Nat.leb_le. rewrite (aset_length _ _ _ _ Hrow'). exact Hrow.
Qed.

Lemma AccumulateByEdge_total (nea : Z) (d : PFTSums) (B : ByEdgeArrays) :
  rows_ok NE B = true ->
  0 <= nea < NE ->
  exists B', AccumulateByEdge nea d B = Ok B' /\ rows_ok NE B' = true.
Proof.
  intros H Hnea. unfold AccumulateByEdge. destruct B as [rows |]; [| eauto].
  destruct (ByEdgeAdd_total 0 nea (PAbs d) rows H) as [r0 [-> H0]];
    [lia | exact Hnea |]. cbn [bind].
  destruct (ByEdgeAdd_total 1 nea (Fx d) r0 H0) as [r1 [-> H1]];
    [lia | exact Hnea |]. cbn [bind].
  destruct (ByEdgeAdd_total 2 nea (Fy d) r1 H1) as [r2 [-> H2]];
    [lia | exact Hnea |]. cbn [bind].
  destruct (ByEdgeAdd_total 3 nea (Fz d) r2 H2) as [r3 [-> H3]];
    [lia | exact Hnea |]. cbn [bind].
  destruct (ByEdgeAdd_total 4 nea (Taux d) r3 H3) as [r4 [-> H4]];
    [lia | exact Hnea |]. cbn [bind].
  destruct (ByEdgeAdd_total 5 nea (Tauy d) r4 H4) as [r5 [-> H5]];
    [lia | exact Hnea |]. cbn [bind].
  destruct (ByEdgeAdd_total 6 nea (Tauz d) r5 H5) as [r6 [-> H6]];
    [lia | exact Hnea |]. cbn [bind].
  eauto.
Qed.

End RowsOk.

Section GetOPFTTotal.
Context {X : Collaborators}.

Lemma panel_ok_edge (S : RWGSurface) (P : RWGPanel) (e : Z) :
  panel_ok S P = true -> In e (panel_edges P) ->
  exists E, aget (Edges S) e = Ok E.
Proof.
  unfold panel_ok. intros H He. apply andb_true_iff in H as [_ H].
  rewrite forallb_forall in H. apply has_edge_aget. now apply H.
Qed.

(** The edges that [GetOverlappingEdgeIndices] enumerates on a well-formed
    surface are basis functions of the surface. *)
Lemma GetOverlappingEdgeIndices_total (S : RWGSurface) (nea : Z)
    (E : RWGEdge) :
  wf_surface S = true ->
  aget (Edges S) nea = Ok E ->
  exists nebCount nebArray,
    GetOverlappingEdgeIndices S nea (repeat 0 5) = Ok (nebCount, nebArray)
    /\ forall nneb, 0 <= nneb < nebCount ->
         exists neb Eb, aget nebArray nneb = Ok neb
                        /\ aget (Edges S) neb = Ok Eb.
Proof.
  intros Hwf HE.
  pose proof Hwf as Hwf'. unfold wf_surface in Hwf'.
  apply andb_true_iff in Hwf' as [Hmesh _].
  destruct (GetOverlappingEdgeIndices_shape S nea E (repeat 0 5) Hmesh HE
              eq_refl)
    as [[nebCount nebArray] [PP [Hr [Hcount [Hlen [Hfirst [HPP [HpP HpM]]]]]]]].
  exists nebCount, nebArray. split; [exact Hr |].
  unfold enumerated in *. cbn [fst snd] in *.
  intros nneb Hnneb.
  assert (Hn : exists neb, nth_error (firstn (Z.to_nat nebCount) nebArray)
                             (Z.to_nat nneb) = Some neb).
  { destruct (nth_error _ (Z.to_nat nneb)) eqn:Hn; [eauto |].
    apply nth_error_None in Hn. lia. }
  destruct Hn as [neb Hn].
  assert (Hget : aget nebArray nneb = Ok neb).
  { rewrite nth_error_firstn in Hn.
    destruct (Z.to_nat nneb <? Z.to_nat nebCount)%nat; [| discriminate].
    replace nneb with (Z.of_nat (Z.to_nat nneb)) by lia.
    rewrite aget_nth_error, Hn. reflexivity. }
  exists neb. apply nth_error_In in Hn.
  rewrite <- (firstn_skipn 3 (firstn (Z.to_nat nebCount) nebArray)) in Hn.
  pose proof (wf_surface_panel _ _ _ Hwf HPP) as HokPP.
  apply in_app_or in Hn as [Hn | Hn].
  - apply (Permutation_in _ (Permutation_sym HpP)) in Hn.
    destruct (panel_ok_edge _ _ _ HokPP Hn) as [Eb HEb]. eauto.
  - destruct (iMPanel E =? -1) eqn:HM1.
    + subst nebCount. exfalso.
      assert (Hnil : skipn 3 (firstn (Z.to_nat 3) nebArray) = []).
      { apply skipn_all2. rewrite Hlen. reflexivity. }
      rewrite Hnil in Hn. destruct Hn.
    + apply Z.eqb_neq in HM1. destruct (HpM HM1) as [PM [HPM Hperm]].
      pose proof (wf_surface_panel _ _ _ Hwf HPM) as HokPM.
      assert (HinM : In neb (panel_edges PM)).
      { apply (Permutation_in _ (Permutation_sym Hperm)). now right. }
      destruct (panel_ok_edge _ _ _ HokPM HinM) as [Eb HEb]. eauto.
Qed.

(** [GetOPFT] returns on a valid surface index when the geometry is
    well-formed, the per-edge arrays are large enough and a current vector
    or a matrix is supplied. *)
Lemma GetOPFT_total (G : RWGGeometry) (SurfaceIndex : Z) (Omega : cdouble)
    (KNVector RHS : option HVector) (RytovMatrix : option HMatrix)
    (ByEdge : ByEdgeArrays) (S : RWGSurface) (Offset : Z) (MP : MatProp) :
  aget (Surfaces G) SurfaceIndex = Ok S ->
  aget (BFIndexOffset G) SurfaceIndex = Ok Offset ->
  aget (RegionMPs G) (fst (RegionIndices S)) = Ok MP ->
  wf_surface S = true ->
  rows_ok (NumEdges S) ByEdge = true ->
  KNVector <> None \/ RytovMatrix <> None ->
  exists out,
    GetOPFT G SurfaceIndex Omega KNVector RHS RytovMatrix ByEdge = Ok out.
Proof.
  intros HS HOff HMP Hwf Hrows Hcur. unfold GetOPFT.
  assert (Hchk : (SurfaceIndex <? 0) || (SurfaceIndex >=? NumSurfaces G)
                 = false) by (apply surface_check; eauto).
  rewrite Hchk, HS. cbn [bind]. rewrite HOff. cbn [bind].
  rewrite HMP. cbn [bind]. destruct (MP Omega) as [Eps Mu].
  destruct (ZeroByEdge_total _ _ Hrows) as [B0 [-> HB0]]. cbn [bind].
  match goal with
  | |- context [for_loop ?n ?body ?s0] =>
      assert (Hloop : exists st',
                for_loop n body s0 = Ok st'
                /\ rows_ok (NumEdges S) (snd st') = true)
  end.
  { apply (for_loop_total
             (fun st => rows_ok (NumEdges S) (snd st) = true));
      [| exact HB0].
    intros nea st Hnea Hst. unfold OPFT_OuterBody.
    destruct (aget_in_range (Edges S) nea) as [E HE];
      [unfold NumEdges in Hnea; lia |].
    destruct (GetOverlappingEdgeIndices_total _ _ _ Hwf HE)
      as [nebCount [nebArray [-> Hneb]]]. cbn [bind].
    apply for_loop_total; [| exact Hst].
    intros nneb [sums B] Hnneb HB. unfold OPFT_InnerBody.
    destruct (Hneb nneb Hnneb) as [neb [Eb [-> HEb]]]. cbn [bind].
    destruct (GetOverlaps_total _ _ _ _ _ Hwf HE HEb) as [O ->]. cbn [bind].
    assert (Hcp : exists cp,
      OPFT_CurrentProducts S Offset KNVector RytovMatrix nea neb = Ok cp).
    { unfold OPFT_CurrentProducts.
      destruct KNVector as [KNV |]; [destruct (IsPEC S); eauto |].
      destruct RytovMatrix as [M |]; [simpl; eauto |].
      destruct Hcur as [Hc | Hc]; now destruct Hc. }
    destruct Hcp as [cp ->]. cbn [bind].
    simpl in HB.
    destruct (AccumulateByEdge_total _ nea
                (OPFT_PairContribution cp
                   (C.of_double ZVAC * csqrt (Mu / Eps))%C
                   (Omega * Omega * (Eps * Mu))%C Omega O) B HB Hnea)
      as [B' [-> HB']]. cbn [bind].
    eexists. split; [reflexivity | exact HB']. }
  destruct Hloop as [[sums B1] [-> _]]. cbn [bind]. eauto.
Qed.

End GetOPFTTotal.

Section ExtinctionAndPEC.
Context {X : Collaborators}.

(** The loop of the source walks the degrees of freedom with the counter
    [nbf]; after [ne] basis functions it stands at [ne] on a PEC surface
    and at [2*ne] otherwise, and the running extinction is the sum of the
    terms met so far. *)
Lemma OPFT_Extinction_loop (S : RWGSurface) (Offset : Z) (KNV RHSV : HVector)
    (n s : nat) (acc : double) :
  fold_left (fun st _ => OPFT_ExtinctionBody S Offset KNV RHSV st)
            (map Z.of_nat (seq s n))
            ((if IsPEC S then 1 else 2) * Z.of_nat s, acc)
  = ((if IsPEC S then 1 else 2) * Z.of_nat (s + n),
     (acc + fold_right Qcplus 0%Qc
              (map (ExtinctionTerm S Offset KNV RHSV)
                   (map Z.of_nat (seq s n))))%Qc).
Proof.
  revert s acc. induction n as [| n IH]; intros s acc.
  - simpl. rewrite Nat.add_0_r. f_equal. ring.
  - cbn [seq map fold_left fold_right].
    replace (s + Datatypes.S n)%nat with (Datatypes.S s + n)%nat by lia.
    unfold OPFT_ExtinctionBody at 2. unfold ExtinctionTerm at 1.
    destruct (IsPEC S) eqn:HPEC.
    + replace (1 * Z.of_nat s + 1) with (1 * Z.of_nat (Datatypes.S s)) by lia.
      rewrite (IH (Datatypes.S s)).
      f_equal. replace (1 * Z.of_nat s) with (Z.of_nat s) by lia. ring.
    + replace (2 * Z.of_nat s + 1 + 1) with (2 * Z.of_nat (Datatypes.S s))
        by lia.
      rewrite (IH (Datatypes.S s)).
      f_equal. rewrite !Z.add_assoc. ring.
Qed.

Lemma OPFT_Extinction_sum (S : RWGSurface) (Offset : Z) (KNV RHSV : HVector) :
  OPFT_Extinction S Offset KNV RHSV = ExtinctionSum S Offset KNV RHSV.
Proof.
  unfold OPFT_Extinction, ExtinctionSum, range.
  pose proof (OPFT_Extinction_loop S Offset KNV RHSV
                (Z.to_nat (NumEdges S)) 0 0%Qc) as H.
  replace ((if IsPEC S then 1 else 2) * Z.of_nat 0) with 0 in H
    by (destruct (IsPEC S); reflexivity).
  rewrite H. simpl. ring.
Qed.

(** C8.  [GetOPFT] stores in [PFT[1]] the extinction minus the absorbed
    power [PFT[0]] when both the current vector and the excitation vector
    are supplied, the extinction being the sum over the basis functions of
    half the real part of the conjugated current coefficient times the
    excitation entry; in every other case [PFT[1]] is exactly zero.  On a
    well-formed geometry the call returns. *)
Theorem GetOPFT_extinction_slot (G : RWGGeometry) (SurfaceIndex : Z)
    (Omega : cdouble) (KNVector RHS : option HVector)
    (RytovMatrix : option HMatrix) (ByEdge : ByEdgeArrays) :
  (forall out,
      GetOPFT G SurfaceIndex Omega KNVector RHS RytovMatrix ByEdge = Ok out ->
      (forall S Offset KNV RHSV,
          aget (Surfaces G) SurfaceIndex = Ok S ->
          aget (BFIndexOffset G) SurfaceIndex = Ok Offset ->
          KNVector = Some KNV -> RHS = Some RHSV ->
          nth 1 (PFT out) 0%Qc
          = (ExtinctionSum S Offset KNV RHSV - nth 0 (PFT out) 0%Qc)%Qc)
      /\ (KNVector = None \/ RHS = None -> nth 1 (PFT out) 0%Qc = 0%Qc)
      /\ ((forall S, aget (Surfaces G) SurfaceIndex <> Ok S) ->
          nth 1 (PFT out) 0%Qc = 0%Qc))
  /\ (forall S Offset MP,
        aget (Surfaces G) SurfaceIndex = Ok S ->
        aget (BFIndexOffset G) SurfaceIndex = Ok Offset ->
        aget (RegionMPs G) (fst (RegionIndices S)) = Ok MP ->
        wf_surface S = true ->
        rows_ok (NumEdges S) ByEdge = true ->
        KNVector <> None \/ RytovMatrix <> None ->
        exists out,
          GetOPFT G SurfaceIndex Omega KNVector RHS RytovMatrix ByEdge
          = Ok out).
Proof.
  split; [| intros S Offset MP; apply GetOPFT_total].
  intros out H. repeat split.
  - intros S Offset KNV RHSV HS HOff -> ->.
    destruct (GetOPFT_valid _ _ _ _ _ _ _ _ _ HS H)
      as [Offset' [ZZ [k2 [B0 [sums [HOff' [_ [_ [_ HPFT]]]]]]]]].
    assert (Offset' = Offset) by congruence. subst Offset'.
    rewrite HPFT. simpl. now rewrite OPFT_Extinction_sum.
  - intros Hnone.
    destruct (aget (Surfaces G) SurfaceIndex) as [S | f] eqn:HS.
    + destruct (GetOPFT_valid _ _ _ _ _ _ _ _ _ HS H)
        as [Offset [ZZ [k2 [B0 [sums [_ [_ [_ [_ HPFT]]]]]]]]].
      rewrite HPFT.
      destruct Hnone as [-> | ->]; [| destruct KNVector]; reflexivity.
    + unfold GetOPFT in H.
      destruct ((SurfaceIndex <? 0) || (SurfaceIndex >=? NumSurfaces G))
        eqn:Hchk.
      * injection H as <-. reflexivity.
      * apply surface_check in Hchk as [S HS']. congruence.
  - intros Hno. unfold GetOPFT in H.
    destruct ((SurfaceIndex <? 0) || (SurfaceIndex >=? NumSurfaces G))
      eqn:Hchk.
    + injection H as <-. reflexivity.
    + apply surface_check in Hchk as [S HS']. now apply Hno in HS'.
Qed.

(** The power total stays at zero through the pair loops of a PEC surface
    with a current vector. *)
Lemma OPFT_OuterBody_PEC_power (S : RWGSurface) (Offset : Z)
    (Omega ZZ k2 : cdouble) (KNV : HVector) (RytovMatrix : option HMatrix)
    (nea : Z) (st st' : PFTSums * ByEdgeArrays) :
  IsPEC S = true ->
  PAbs (fst st) = 0%Qc ->
  OPFT_OuterBody S Offset Omega ZZ k2 (Some KNV) RytovMatrix nea st = Ok st' ->
  PAbs (fst st') = 0%Qc.
Proof.
  intros HPEC Hst H. unfold OPFT_OuterBody in H.
  inv_bind H. destruct a as [nebCount nebArray].
  revert H.
  apply (for_loop_invariant (fun st => PAbs (fst st) = 0%Qc));
    [| exact Hst].
  intros nneb [sums B] s' _ Hs Hbody. unfold OPFT_InnerBody in Hbody.
  do 4 inv_bind Hbody. injection Hbody as <-.
  match goal with
  | Hcp : OPFT_CurrentProducts _ _ _ _ _ _ = Ok _,
    Hov : GetOverlaps _ _ _ = Ok ?Overlaps |- _ =>
      destruct (PEC_pair_power_zero _ _ _ _ _ _ _ ZZ k2 Omega Overlaps
                                    HPEC Hcp) as [_ [_ Hzero]]
  end.
  cbn [fst add_sums PAbs]. simpl in Hs. rewrite Hs, Hzero. ring.
Qed.

(** C10.  On a PEC surface, with a valid surface index and a current
    vector supplied, the absorbed power [PFT[0]] is exactly zero: every
    pair contributes [0.25*real((KN-NK)*Overlaps[OVERLAP_CROSS])] and the
    PEC branch sets KN and NK to zero.  On a well-formed geometry the call
    returns. *)
Theorem GetOPFT_PEC_absorbed_power_zero (G : RWGGeometry) (SurfaceIndex : Z)
    (Omega : cdouble) (KNV : HVector) (RHS : option HVector)
    (RytovMatrix : option HMatrix) (ByEdge : ByEdgeArrays) (S : RWGSurface) :
  aget (Surfaces G) SurfaceIndex = Ok S ->
  IsPEC S = true ->
  (forall out,
      GetOPFT G SurfaceIndex Omega (Some KNV) RHS RytovMatrix ByEdge = Ok out ->
      nth 0 (PFT out) 0%Qc = 0%Qc)
  /\ (forall Offset MP,
        aget (BFIndexOffset G) SurfaceIndex = Ok Offset ->
        aget (RegionMPs G) (fst (RegionIndices S)) = Ok MP ->
        wf_surface S = true ->
        rows_ok (NumEdges S) ByEdge = true ->
        exists out,
          GetOPFT G SurfaceIndex Omega (Some KNV) RHS RytovMatrix ByEdge
          = Ok out
          /\ nth 0 (PFT out) 0%Qc = 0%Qc).
Proof.
  intros HS HPEC.
  assert (Hpartial : forall out,
    GetOPFT G SurfaceIndex Omega (Some KNV) RHS RytovMatrix ByEdge = Ok out ->
    nth 0 (PFT out) 0%Qc = 0%Qc).
  { intros out H.
    destruct (GetOPFT_valid _ _ _ _ _ _ _ _ _ HS H)
      as [Offset [ZZ [k2 [B0 [sums [_ [_ [Hloop [_ HPFT]]]]]]]]].
    assert (Hzero : PAbs (fst (sums, ByEdgeOut out)) = 0%Qc).
    { revert Hloop.
      apply (for_loop_invariant (fun st => PAbs (fst st) = 0%Qc));
        [| reflexivity].
      intros nea s s' _ Hs. now apply OPFT_OuterBody_PEC_power. }
    rewrite HPFT. destruct RHS; exact Hzero. }
  split; [exact Hpartial |].
  intros Offset MP HOff HMP Hwf Hrows.
  destruct (GetOPFT_total G SurfaceIndex Omega (Some KNV) RHS RytovMatrix
              ByEdge S Offset MP HS HOff HMP Hwf Hrows)
    as [out Hout]; [left; discriminate |].
  exists out. split; [exact Hout | now apply Hpartial].
Qed.

End ExtinctionAndPEC.

(** * The reduction routine [GetEPPFTTrace] *)

Section GetEPPFTTraceFacts.
Context {X : Collaborators}.

(** What a call on a surface with an interior region, neither PEC,
    computes. *)
Lemma GetEPPFTTrace_valid (G : RWGGeometry) (SurfaceIndex : Z)
    (Omega : cdouble) (KNVector : option HVector)
    (SigmaMatrix : option HMatrix) (ByEdge : ByEdgeArrays) (Exterior : bool)
    (S : RWGSurface) (out : PFTOutput) :
  aget (Surfaces G) SurfaceIndex = Ok S ->
  IsPEC S = false ->
  snd (RegionIndices S) <> -1 ->
  GetEPPFTTrace G SurfaceIndex Omega KNVector SigmaMatrix ByEdge Exterior
  = Ok out ->
  exists Offset k Sign pf ByEdge0 sums,
    ZeroByEdge (NumEdges S) ByEdge = Ok ByEdge0
    /\ for_loop (NumEdges S * NumEdges S)
         (EPPFT_PairBody G S SurfaceIndex Offset k Sign pf (negb Exterior)
                         KNVector SigmaMatrix)
         (zero_sums, ByEdge0) = Ok (sums, ByEdgeOut out)
    /\ PFT out = [PAbs sums; Fx sums; Fy sums; Fz sums;
                  Taux sums; Tauy sums; Tauz sums].
Proof.
  intros HS HPEC Hin H. unfold GetEPPFTTrace in H.
  rewrite HS in H. simpl in H. inv_bind H.
  apply Z.eqb_neq in Hin. rewrite HPEC, Hin in H. simpl in H.
  inv_bind H. inv_bind H.
  destruct (a0 Omega) as [EpsOut MuOut]. destruct (a1 Omega) as [EpsIn MuIn].
  destruct Exterior; inv_bind H; inv_bind H; destruct a3 as [sums B];
    injection H as <-; simpl; do 4 eexists; exists a2, sums;
    repeat split; eassumption.
Qed.

Lemma EPPFT_PairBody_inv (G : RWGGeometry) (S : RWGSurface)
    (SurfaceIndex Offset : Z) (k : cdouble) (Sign : double) (pf : Prefactors)
    (Interior : bool) (KNVector : option HVector)
    (SigmaMatrix : option HMatrix) (neab : Z)
    (st st' : PFTSums * ByEdgeArrays) :
  0 <= neab < NumEdges S * NumEdges S ->
  rows_match_sums (NumEdges S) st ->
  EPPFT_PairBody G S SurfaceIndex Offset k Sign pf Interior
                 KNVector SigmaMatrix neab st = Ok st' ->
  rows_match_sums (NumEdges S) st'.
Proof.
  intros Hneab Hinv H. unfold EPPFT_PairBody in H.
  destruct st as [sums ByEdge].
  do 4 inv_bind H. injection H as <-.
  eapply rows_match_sums_accumulate; try eassumption.
  assert (0 <= NumEdges S) by (unfold NumEdges; lia).
  assert (0 < NumEdges S) by nia.
  split.
  - apply Z.quot_pos; lia.
  - apply Z.quot_lt_upper_bound; lia.
Qed.

(** Reduction consistency of [GetEPPFTTrace] past its entry check. *)
Lemma GetEPPFTTrace_reduction_consistency (G : RWGGeometry)
    (SurfaceIndex : Z) (Omega : cdouble) (KNVector : option HVector)
    (SigmaMatrix : option HMatrix) (ByEdge : ByEdgeArrays) (Exterior : bool)
    (S : RWGSurface) (out : PFTOutput) :
  aget (Surfaces G) SurfaceIndex = Ok S ->
  IsPEC S = false ->
  snd (RegionIndices S) <> -1 ->
  GetEPPFTTrace G SurfaceIndex Omega KNVector SigmaMatrix ByEdge Exterior
  = Ok out ->
  forall q row, 0 <= q < 7 -> ByEdgeRow (ByEdgeOut out) q = Some row ->
    edge_total (NumEdges S) row = nth (EPPFT_slot q) (PFT out) 0%Qc.
Proof.
  intros HS HPEC Hin H q row Hq Hrow.
  destruct (GetEPPFTTrace_valid _ _ _ _ _ _ _ _ _ HS HPEC Hin H)
    as [Offset [k [Sign [pf [B0 [sums [Hzero [Hloop HPFT]]]]]]]].
  assert (Hinv : rows_match_sums (NumEdges S) (sums, ByEdgeOut out)).
  { revert Hloop. apply for_loop_invariant.
    - intros neab s s' Hneab Hs. now apply EPPFT_PairBody_inv.
    - now apply rows_match_sums_init with (B := ByEdge). }
  rewrite (Hinv q row Hq Hrow). simpl. rewrite HPFT.
  assert (Hcases : q = 0 \/ q = 1 \/ q = 2 \/ q = 3 \/ q = 4 \/ q = 5
                   \/ q = 6) by lia.
  destruct Hcases as [-> | [-> | [-> | [-> | [-> | [-> | ->]]]]]];
    reflexivity.
Qed.

(** C9.  On a surface that is PEC or has no interior region
    [GetEPPFTTrace] returns the all-zero vector of seven components and
    emits exactly one event, a warning; the per-edge arrays are not
    touched. *)
Theorem GetEPPFTTrace_PEC_zero (G : RWGGeometry) (SurfaceIndex : Z)
    (Omega : cdouble) (KNVector : option HVector)
    (SigmaMatrix : option HMatrix) (ByEdge : ByEdgeArrays) (Exterior : bool)
    (S : RWGSurface) (Offset : Z) :
  aget (Surfaces G) SurfaceIndex = Ok S ->
  aget (BFIndexOffset G) SurfaceIndex = Ok Offset ->
  IsPEC S = true \/ snd (RegionIndices S) = -1 ->
  GetEPPFTTrace G SurfaceIndex Omega KNVector SigmaMatrix ByEdge Exterior
  = Ok (mkOutput (repeat 0%Qc 7) ByEdge
                 [EvWarn "EPPFTTrace() not implemented for PEC bodies"]).
Proof.
  intros HS HOff Hpec. unfold GetEPPFTTrace. rewrite HS, HOff. simpl.
  replace (IsPEC S || (snd (RegionIndices S) =? -1)) with true;
    [reflexivity |].
  symmetry. apply orb_true_iff.
  destruct Hpec as [-> | ->]; [now left | now right].
Qed.

End GetEPPFTTraceFacts.

(** * Rejected and degenerate calls *)

Section EntryChecks.
Context {X : Collaborators}.






(** C6.  For a surface index out of range [GetOPFT] emits one warning and
    returns the zero-filled vector, leaving the per-edge arrays alone;
    [GetEPPFTTrace] has no such check and indexes the array of surfaces
    out of bounds. *)
Theorem invalid_surface_index (G : RWGGeometry) (SurfaceIndex : Z)
    (Omega : cdouble) (KNVector RHS : option HVector)
    (Matrix : option HMatrix) (ByEdge : ByEdgeArrays) (Exterior : bool) :
  SurfaceIndex < 0 \/ NumSurfaces G <= SurfaceIndex ->
  GetOPFT G SurfaceIndex Omega KNVector RHS Matrix ByEdge
  = Ok (mkOutput (repeat 0%Qc 8) ByEdge
                 [EvWarn "GetOPFT called for unknown surface #i"])
  /\ GetEPPFTTrace G SurfaceIndex Omega KNVector Matrix ByEdge Exterior
     = Fault OutOfBounds.
Proof.
  intros Hidx. split.
  - unfold GetOPFT.
    replace ((SurfaceIndex <? 0) || (SurfaceIndex >=? NumSurfaces G))
      with true; [reflexivity |].
    symmetry. apply orb_true_iff. rewrite Z.geb_leb.
    destruct Hidx; [left; now apply Z.ltb_lt | right; now apply Z.leb_le].
  - unfold GetEPPFTTrace.
    rewrite (aget_out_of_range (Surfaces G) SurfaceIndex) by exact Hidx.
    reflexivity.
Qed.


End EntryChecks.

(** * The matrix-element routines run to completion on well-formed input *)

Section MatrixElementsTotal.
Context {X : Collaborators}.

Lemma edge_vertices_ok_aget (S : RWGSurface) (E : RWGEdge) :
  edge_vertices_ok S E = true ->
  (exists v, aget (Vertices S) (iQP E) = Ok v)
  /\ (exists v, aget (Vertices S) (iV1 E) = Ok v)
  /\ (exists v, aget (Vertices S) (iV2 E) = Ok v)
  /\ (exists v, aget (Vertices S) (iQM E) = Ok v).
Proof.
  unfold edge_vertices_ok. rewrite !andb_true_iff.
  intros [[[H1 H2] H3] H4]. repeat split; now apply has_vertex_aget.
Qed.

Lemma CubaturePoint_total (Ea : RWGEdge) (TCR : list double)
    (QP QM APlus AMinus B X0 : Vec3) (NumPts np : Z) :
  3 * NumPts <= Z.of_nat (List.length TCR) ->
  0 <= np < NumPts ->
  exists pg, CubaturePoint Ea TCR QP QM APlus AMinus B X0 np = Ok pg.
Proof.
  intros Hlen Hnp. unfold CubaturePoint.
  destruct (aget_in_range TCR (3 * np)) as [u ->]; [lia |]. cbn [bind].
  destruct (aget_in_range TCR (3 * np + 1)) as [v ->]; [lia |]. cbn [bind].
  destruct (aget_in_range TCR (3 * np + 2)) as [w ->]; [lia |]. cbn [bind].
  eauto.
Qed.

(** The cubature integrator returns when the four vertices of the source
    edge exist and the cubature table is complete. *)
Lemma GetEPPFTMatrixElements_Cubature_total (G : RWGGeometry)
    (nsa nsb nea neb : Z) (k : cdouble) (mask : PanelPairMask) (Order : Z)
    (S : RWGSurface) (Ea Eb : RWGEdge) :
  aget (Surfaces G) nsa = Ok S ->
  aget (Edges S) nea = Ok Ea ->
  aget (Edges S) neb = Ok Eb ->
  edge_vertices_ok S Ea = true ->
  tcr_ok Order = true ->
  exists me,
    GetEPPFTMatrixElements_Cubature G nsa nsb nea neb k mask Order = Ok me.
Proof.
  intros HS HEa HEb Hv Htcr. unfold GetEPPFTMatrixElements_Cubature.
  rewrite HS. cbn [bind]. rewrite HEa, HEb. cbn [bind].
  destruct (edge_vertices_ok_aget _ _ Hv)
    as [[QP ->] [[V1 ->] [[V2 ->] [QM ->]]]]. cbn [bind].
  unfold tcr_ok in Htcr. destruct (GetTCR Order) as [NumPts TCR].
  apply Z.leb_le in Htcr.
  match goal with
  | |- context [for_loop ?n ?body ?s0] =>
      destruct (for_loop_total (fun _ => True) n body) with (s := s0)
        as [me [Hrun _]]
  end.
  - intros np me Hnp _.
    destruct (CubaturePoint_total Ea TCR QP QM (VecSub V1 QP) (VecSub V1 QM)
                (VecSub V2 V1) (TorqueCenter S) NumPts np Htcr Hnp)
      as [pg ->].
    cbn [bind]. eauto.
  - exact I.
  - eauto.
Qed.

Lemma TD_PairBody_total (S : RWGSurface) (Ea Eb : RWGEdge) (LL : double)
    (k : cdouble) (A B : Z) (st : TDState) :
  edge_vertices_ok S Ea = true ->
  edge_vertices_ok S Eb = true ->
  exists st', TD_PairBody S S Ea Eb LL k A B st = Ok st'.
Proof.
  intros Ha Hb. unfold TD_PairBody.
  destruct (ncv _ >? 0); [| eauto].
  destruct (edge_vertices_ok_aget _ _ Ha) as [[QPa HQPa] [_ [_ [QMa HQMa]]]].
  destruct (edge_vertices_ok_aget _ _ Hb) as [[QPb HQPb] [_ [_ [QMb HQMb]]]].
  destruct (A =? 0), (B =? 0);
    rewrite ?HQPa, ?HQMa; cbn [bind]; rewrite ?HQPb, ?HQMb; cbn [bind];
    eauto.
Qed.

(** [GetEPPFTMatrixElements] returns for two edges of one surface whose
    vertices exist, the cubature table being complete. *)
Lemma GetEPPFTMatrixElements_total (G : RWGGeometry) (ns nea neb : Z)
    (k : cdouble) (Order : Z) (S : RWGSurface) (Ea Eb : RWGEdge) :
  aget (Surfaces G) ns = Ok S ->
  aget (Edges S) nea = Ok Ea ->
  aget (Edges S) neb = Ok Eb ->
  edge_vertices_ok S Ea = true ->
  edge_vertices_ok S Eb = true ->
  tcr_ok Order = true ->
  exists me, GetEPPFTMatrixElements G ns ns nea neb k Order = Ok me.
Proof.
  intros HS HEa HEb Hva Hvb Htcr. unfold GetEPPFTMatrixElements.
  rewrite HS. cbn [bind]. rewrite HEa, HEb. cbn [bind].
  assert (Hst : exists st,
    (if (ns =? ns) && negb match getenv "SCUFF_FORCECUBATURE" with
                           | Some _ => true
                           | None => false
                           end
     then for_loop 2
            (fun A st =>
               for_loop 2
                 (TD_PairBody S S Ea Eb (Length Ea * Length Eb)%Qc k A) st)
            TD_init
     else Ok TD_init) = Ok st).
  { destruct ((ns =? ns) && _); [| eauto].
    destruct (for_loop_total (fun _ => True) 2
                (fun A st =>
                   for_loop 2
                     (TD_PairBody S S Ea Eb (Length Ea * Length Eb)%Qc k A)
                     st)) with (s := TD_init) as [st [Hrun _]];
      [| exact I | eauto].
    intros A st _ _.
    apply (for_loop_total (fun _ => True)); [| exact I].
    intros B st1 _ _.
    destruct (TD_PairBody_total S Ea Eb (Length Ea * Length Eb)%Qc k A B st1
                Hva Hvb) as [st' ->].
    eauto. }
  destruct Hst as [st ->]. cbn [bind].
  destruct (GetEPPFTMatrixElements_Cubature_total G ns ns nea neb k
              (OmitPanelPair st) Order S Ea Eb HS HEa HEb Hva Htcr)
    as [me ->].
  cbn [bind]. destruct (HaveTDContributions st); eauto.
Qed.

End MatrixElementsTotal.

Section GetEPPFTTraceTotal.
Context {X : Collaborators}.

(** [GetEPPFTTrace] returns on a surface that passes its entry check when
    the geometry is well-formed, every edge of the surface is interior
    with existing vertices, the cubature table of order 9 is complete, the
    per-edge arrays are large enough and a current vector or a matrix is
    supplied. *)
Lemma GetEPPFTTrace_total (G : RWGGeometry) (SurfaceIndex : Z)
    (Omega : cdouble) (KNVector : option HVector)
    (SigmaMatrix : option HMatrix) (ByEdge : ByEdgeArrays) (Exterior : bool)
    (S : RWGSurface) (Offset : Z) (MPOut MPIn : MatProp) :
  aget (Surfaces G) SurfaceIndex = Ok S ->
  aget (BFIndexOffset G) SurfaceIndex = Ok Offset ->
  IsPEC S = false ->
  snd (RegionIndices S) <> -1 ->
  aget (RegionMPs G) (fst (RegionIndices S)) = Ok MPOut ->
  aget (RegionMPs G) (snd (RegionIndices S)) = Ok MPIn ->
  wf_surface S = true ->
  forallb (edge_vertices_ok S) (Edges S) = true ->
  tcr_ok 9 = true ->
  rows_ok (NumEdges S) ByEdge = true ->
  KNVector <> None \/ SigmaMatrix <> None ->
  exists out,
    GetEPPFTTrace G SurfaceIndex Omega KNVector SigmaMatrix ByEdge Exterior
    = Ok out.
Proof.
  intros HS HOff HPEC Hin HOut HIn Hwf Hverts Htcr Hrows Hcur.
  unfold GetEPPFTTrace. rewrite HS. cbn [bind]. rewrite HOff. cbn [bind].
  apply Z.eqb_neq in Hin. rewrite HPEC, Hin. cbn [orb].
  rewrite HOut. cbn [bind]. rewrite HIn. cbn [bind].
  destruct (MPOut Omega) as [EpsOut MuOut].
  destruct (MPIn Omega) as [EpsIn MuIn].
  assert (Hbody : forall k Sign pf Interior B0,
    rows_ok (NumEdges S) B0 = true ->
    exists st',
      for_loop (NumEdges S * NumEdges S)
        (EPPFT_PairBody G S SurfaceIndex Offset k Sign pf Interior
                        KNVector SigmaMatrix)
        (zero_sums, B0) = Ok st').
  { intros k Sign pf Interior B0 HB0.
    destruct (for_loop_total
                (fun st => rows_ok (NumEdges S) (snd st) = true)
                (NumEdges S * NumEdges S)
                (EPPFT_PairBody G S SurfaceIndex Offset k Sign pf Interior
                                KNVector SigmaMatrix))
      with (s := (zero_sums, B0)) as [st' [Hrun _]];
      [| exact HB0 | eauto].
    intros neab [sums B] Hneab HB. unfold EPPFT_PairBody.
    assert (0 <= NumEdges S) by (unfold NumEdges; lia).
    assert (HNE : 0 < NumEdges S) by nia.
    assert (Hnea : 0 <= Z.quot neab (NumEdges S) < NumEdges S).
    { split; [apply Z.quot_pos; lia | apply Z.quot_lt_upper_bound; lia]. }
    assert (Hneb : 0 <= Z.rem neab (NumEdges S) < NumEdges S)
      by (apply Z.rem_bound_pos; lia).
    destruct (aget_in_range (Edges S) (Z.quot neab (NumEdges S)))
      as [Ea HEa]; [unfold NumEdges in *; lia |].
    destruct (aget_in_range (Edges S) (Z.rem neab (NumEdges S)))
      as [Eb HEb]; [unfold NumEdges in *; lia |].
    rewrite forallb_forall in Hverts.
    destruct (GetEPPFTMatrixElements_total G SurfaceIndex _ _ k 9 S Ea Eb
                HS HEa HEb (Hverts _ (aget_In _ _ _ HEa))
                (Hverts _ (aget_In _ _ _ HEb)) Htcr) as [me ->].
    cbn [bind].
    assert (Hcp : exists cp,
      EPPFT_CurrentProducts Offset KNVector SigmaMatrix
        (Z.quot neab (NumEdges S)) (Z.rem neab (NumEdges S)) = Ok cp).
    { unfold EPPFT_CurrentProducts.
      destruct KNVector as [KNV |]; [eauto |].
      destruct SigmaMatrix as [M |]; [simpl; eauto |].
      destruct Hcur as [Hc | Hc]; now destruct Hc. }
    destruct Hcp as [cp ->]. cbn [bind].
    assert (Hd : exists d,
      (if Interior
       then Overlaps <- GetOverlaps S (Z.quot neab (NumEdges S))
                                    (Z.rem neab (NumEdges S)) ;;
            Ok (EPPFT_InteriorCorrection pf cp Overlaps
                  (EPPFT_PairContribution Sign pf cp me))
       else Ok (EPPFT_PairContribution Sign pf cp me)) = Ok d).
    { destruct Interior; [| eauto].
      destruct (GetOverlaps_total _ _ _ _ _ Hwf HEa HEb) as [O ->].
      cbn [bind]. eauto. }
    destruct Hd as [d ->]. cbn [bind]. simpl in HB.
    destruct (AccumulateByEdge_total _ (Z.quot neab (NumEdges S))
                (scale_sums 1%Qc d) B HB Hnea) as [B' [-> HB']].
    cbn [bind]. eexists. split; [reflexivity | exact HB']. }
  destruct (ZeroByEdge_total _ _ Hrows) as [B0 [HB0 HB0ok]].
  destruct Exterior; rewrite HB0; cbn [bind];
    match goal with
    | |- context [for_loop _ (EPPFT_PairBody _ _ _ _ ?k ?Sign ?pf ?I _ _) _] =>
        destruct (Hbody k Sign pf I B0 HB0ok) as [[sums B1] ->]
    end; cbn [bind]; eauto.
Qed.

End GetEPPFTTraceTotal.

(** * Cubature and Taylor-Duffy matrix elements *)

Section MatrixElementFacts.
Context {X : Collaborators}.

(** One pass of the body of the loops over [A] and [B], for two edges of
    one surface: a sub-pair with a common vertex is marked as omitted and
    adds its scaled Taylor-Duffy result, any other leaves the state as it
    is. *)
Lemma TD_PairBody_spec (S : RWGSurface) (Ea Eb : RWGEdge) (k : cdouble)
    (A B : Z) (st st' : TDState) :
  TD_PairBody S S Ea Eb (Length Ea * Length Eb)%Qc k A B st = Ok st' ->
  st' =
  if shares_vertex S Ea Eb A B then
    mkTDState
      (v3map2 C.add (divbeTD st) (SubPairContribution td_divbe S Ea Eb k A B))
      (v3map2 C.add (divbhTD st) (SubPairContribution td_divbh S Ea Eb k A B))
      (v3map2 C.add (bxeTD st) (SubPairContribution td_bxe S Ea Eb k A B))
      (set_omitted (OmitPanelPair st) A B)
      true
  else st.
Proof.
  unfold TD_PairBody, SubPairContribution, shares_vertex, SubPairTD,
         edge_panel, edge_hub, polarity_sign.
  destruct (ncv _ >? 0); [| congruence].
  intros H. do 2 inv_bind H. rewrite Ha, Ha0. injection H as <-.
  reflexivity.
Qed.

Lemma v3_add_zero_r (v : CVec3) : v3map2 C.add v cvzero = v.
Proof.
  destruct v. unfold v3map2, cvzero. simpl. now rewrite !C_add_zero_r.
Qed.

Lemma v3_add_zero_l (v : CVec3) : v3map2 C.add cvzero v = v.
Proof.
  destruct v. unfold v3map2, cvzero. simpl. now rewrite !C_add_zero_l.
Qed.

(** The state after the four passes. *)
Lemma TD_loops_spec (S : RWGSurface) (Ea Eb : RWGEdge) (k : cdouble)
    (st : TDState) :
  for_loop 2
    (fun A st =>
       for_loop 2 (TD_PairBody S S Ea Eb (Length Ea * Length Eb)%Qc k A) st)
    TD_init = Ok st ->
  divbeTD st = TDTotal td_divbe S Ea Eb k
  /\ divbhTD st = TDTotal td_divbh S Ea Eb k
  /\ bxeTD st = TDTotal td_bxe S Ea Eb k
  /\ OmitPanelPair st = TDMask S Ea Eb
  /\ HaveTDContributions st
     = shares_vertex S Ea Eb 0 0 || shares_vertex S Ea Eb 0 1
       || shares_vertex S Ea Eb 1 0 || shares_vertex S Ea Eb 1 1.
Proof.
  unfold for_loop, range. simpl. intros H.
  apply bind_Ok in H as [s1 [Hin0 H]].
  apply bind_Ok in H as [s2 [Hin1 H]]. injection H as <-.
  apply bind_Ok in Hin0 as [x1 [H00 Hin0]].
  apply bind_Ok in Hin0 as [x2 [H01 Hin0]]. injection Hin0 as <-.
  apply bind_Ok in Hin1 as [x3 [H10 Hin1]].
  apply bind_Ok in Hin1 as [x4 [H11 Hin1]]. injection Hin1 as <-.
  apply TD_PairBody_spec in H00, H01, H10, H11.
  unfold TDTotal, TDMask.
  unfold SubPairContribution in *.
  destruct (shares_vertex S Ea Eb 0 0), (shares_vertex S Ea Eb 0 1),
           (shares_vertex S Ea Eb 1 0), (shares_vertex S Ea Eb 1 1);
    subst; cbn [divbeTD divbhTD bxeTD OmitPanelPair HaveTDContributions
                TD_init set_omitted no_omission omit00 omit01 omit10 omit11
                orb];
    rewrite ?v3_add_zero_r, ?v3_add_zero_l;
    repeat split; reflexivity.
Qed.

(** C5.  For two basis functions of one surface, with the cubature-only
    override off, [GetEPPFTMatrixElements] returns the cubature values
    computed with the common-vertex sub-pairs omitted, and adds to
    [divbe], [divbh] and [bxe] the Taylor-Duffy contributions of exactly
    those sub-pairs, each scaled by the product of the two edge lengths
    and by +1 for equal polarity of source and field panel, -1
    otherwise; the other outputs are those of the cubature.  The call
    returns when the vertices of the two edges exist and the cubature
    table is complete. *)
Theorem GetEPPFTMatrixElements_TD_contribution (G : RWGGeometry)
    (ns nea neb : Z) (k : cdouble) (Order : Z)
    (S : RWGSurface) (Ea Eb : RWGEdge) :
  getenv "SCUFF_FORCECUBATURE" = None ->
  aget (Surfaces G) ns = Ok S ->
  aget (Edges S) nea = Ok Ea ->
  aget (Edges S) neb = Ok Eb ->
  (forall me,
      GetEPPFTMatrixElements G ns ns nea neb k Order = Ok me ->
      exists cub,
        GetEPPFTMatrixElements_Cubature G ns ns nea neb k (TDMask S Ea Eb)
                                        Order = Ok cub
        /\ divbe me = v3map2 C.add (divbe cub) (TDTotal td_divbe S Ea Eb k)
        /\ divbh me = v3map2 C.add (divbh cub) (TDTotal td_divbh S Ea Eb k)
        /\ bxe me = v3map2 C.add (bxe cub) (TDTotal td_bxe S Ea Eb k)
        /\ be me = be cub /\ bh me = bh cub /\ bxh me = bxh cub
        /\ divbrxe me = divbrxe cub /\ divbrxh me = divbrxh cub
        /\ rxbxe me = rxbxe cub /\ rxbxh me = rxbxh cub)
  /\ (edge_vertices_ok S Ea = true ->
      edge_vertices_ok S Eb = true ->
      tcr_ok Order = true ->
      exists me, GetEPPFTMatrixElements G ns ns nea neb k Order = Ok me).
Proof.
  intros Henv HS HEa HEb.
  split; [| now apply GetEPPFTMatrixElements_total].
  intros me H. unfold GetEPPFTMatrixElements in H.
  rewrite HS in H. simpl in H. rewrite HEa, HEb in H. simpl in H.
  rewrite Henv, Z.eqb_refl in H. simpl in H.
  inv_bind H. inv_bind H.
  destruct (TD_loops_spec _ _ _ _ _ Ha) as [Hbe [Hbh [Hxe [Hmask Hhave]]]].
  rewrite Hmask in Ha0. exists a0. split; [exact Ha0 |].
  destruct (HaveTDContributions a) eqn:Hany.
  - injection H as <-. simpl. rewrite Hbe, Hbh, Hxe.
    repeat split; reflexivity.
  - injection H as <-.
    symmetry in Hhave. rewrite !orb_false_iff in Hhave.
    destruct Hhave as [[[H00 H01] H10] H11].
    unfold TDTotal, SubPairContribution.
    rewrite H00, H01, H10, H11, !v3_add_zero_r.
    repeat split; reflexivity.
Qed.

End MatrixElementFacts.

Section CubatureMask.

(** A field that is omitted enters with the factor zero, a field that is
    kept is the same on both sides. *)
Lemma masked_entry (omit : bool) (c : double) (e1 e2 : cdouble) :
  (omit = false -> e1 = e2) ->
  (if omit then 0%Qc else c) *: e1 = (if omit then 0%Qc else c) *: e2.
Proof.
  destruct omit; intros H.
  - now rewrite !scale_zero_l.
  - now rewrite H.
Qed.

Lemma masked_cross (omit : bool) (c x y : double) (f1 f2 : CVec3) (i j : Z) :
  (omit = false -> f1 = f2) ->
  (if omit then 0%Qc else c) *: (x *: vnth f1 i - y *: vnth f1 j)%C
  = (if omit then 0%Qc else c) *: (x *: vnth f2 i - y *: vnth f2 j)%C.
Proof.
  destruct omit; intros H.
  - now rewrite !scale_zero_l.
  - now rewrite H.
Qed.

(** One cubature point adds the same amounts to [divbe], [divbh] and
    [bxe] whenever the fields of the sub-pairs that are not omitted
    agree. *)
Lemma CubatureStep_masked (m : PanelPairMask) (pg : PointGeometry)
    (nf1 nf2 : NearbyFields) (me1 me2 : MatrixElements) :
  agree_off_mask m nf1 nf2 ->
  same_masked_outputs me1 me2 ->
  same_masked_outputs
    (CubatureStep (if omitted m 0 0 then 0%Qc else 1%Qc)
                  (if omitted m 0 1 then 0%Qc else (- (1))%Qc)
                  (if omitted m 1 0 then 0%Qc else (- (1))%Qc)
                  (if omitted m 1 1 then 0%Qc else 1%Qc) pg nf1 me1)
    (CubatureStep (if omitted m 0 0 then 0%Qc else 1%Qc)
                  (if omitted m 0 1 then 0%Qc else (- (1))%Qc)
                  (if omitted m 1 0 then 0%Qc else (- (1))%Qc)
                  (if omitted m 1 1 then 0%Qc else 1%Qc) pg nf2 me2).
Proof.
  intros [H00 [H01 [H10 H11]]] [Hbe [Hbh Hxe]].
  unfold same_masked_outputs, CubatureStep, CubatureAccumulate.
  cbn [fold_left divbe divbh bxe omitted]. rewrite Hbe, Hbh, Hxe.
  repeat split.
  - rewrite !(masked_entry (omit00 m) _ (vnth (ePP nf1) _) (vnth (ePP nf2) _))
      by (intros Hm; now rewrite (proj1 (H00 Hm))).
    rewrite !(masked_entry (omit01 m) _ (vnth (ePM nf1) _) (vnth (ePM nf2) _))
      by (intros Hm; now rewrite (proj1 (H01 Hm))).
    rewrite !(masked_entry (omit10 m) _ (vnth (eMP nf1) _) (vnth (eMP nf2) _))
      by (intros Hm; now rewrite (proj1 (H10 Hm))).
    rewrite !(masked_entry (omit11 m) _ (vnth (eMM nf1) _) (vnth (eMM nf2) _))
      by (intros Hm; now rewrite (proj1 (H11 Hm))).
    reflexivity.
  - rewrite !(masked_entry (omit00 m) _ (vnth (hPP nf1) _) (vnth (hPP nf2) _))
      by (intros Hm; now rewrite (proj2 (H00 Hm))).
    rewrite !(masked_entry (omit01 m) _ (vnth (hPM nf1) _) (vnth (hPM nf2) _))
      by (intros Hm; now rewrite (proj2 (H01 Hm))).
    rewrite !(masked_entry (omit10 m) _ (vnth (hMP nf1) _) (vnth (hMP nf2) _))
      by (intros Hm; now rewrite (proj2 (H10 Hm))).
    rewrite !(masked_entry (omit11 m) _ (vnth (hMM nf1) _) (vnth (hMM nf2) _))
      by (intros Hm; now rewrite (proj2 (H11 Hm))).
    reflexivity.
  - rewrite !(masked_cross (omit00 m) _ _ _ (ePP nf1) (ePP nf2))
      by (intros Hm; exact (proj1 (H00 Hm))).
    rewrite !(masked_cross (omit01 m) _ _ _ (ePM nf1) (ePM nf2))
      by (intros Hm; exact (proj1 (H01 Hm))).
    rewrite !(masked_cross (omit10 m) _ _ _ (eMP nf1) (eMP nf2))
      by (intros Hm; exact (proj1 (H10 Hm))).
    rewrite !(masked_cross (omit11 m) _ _ _ (eMM nf1) (eMM nf2))
      by (intros Hm; exact (proj1 (H11 Hm))).
    reflexivity.
Qed.

Lemma scale_C_zero (x : double) : x *: C.zero = C.zero.
Proof. c_ring. Qed.

Lemma vadd_at_zero (v : CVec3) (Mu : Z) : vadd_at v Mu C.zero = v.
Proof.
  destruct v. unfold vadd_at.
  destruct Mu as [| [p | p |] | p]; cbn [c0 c1 c2];
    now rewrite C_add_zero_r.
Qed.

(** With all four sub-pairs omitted a cubature point adds nothing to
    [divbe], [divbh] and [bxe]. *)
Lemma CubatureStep_all_omitted (pg : PointGeometry) (nf : NearbyFields)
    (me : MatrixElements) :
  let me' := CubatureStep 0%Qc 0%Qc 0%Qc 0%Qc pg nf me in
  divbe me' = divbe me /\ divbh me' = divbh me /\ bxe me' = bxe me.
Proof.
  unfold CubatureStep, CubatureAccumulate.
  cbn [fold_left divbe divbh bxe].
  rewrite !scale_zero_l, !C_add_zero_r, !scale_C_zero, !vadd_at_zero.
  repeat split.
Qed.

(** With all four sub-pairs omitted the cubature integrator returns
    exactly zero in [divbe], [divbh] and [bxe]. *)
Lemma cubature_all_omitted_zero {X : Collaborators} (G : RWGGeometry)
    (nsa nsb nea neb : Z) (k : cdouble) (Order : Z) (me : MatrixElements) :
  GetEPPFTMatrixElements_Cubature G nsa nsb nea neb k all_omitted Order
  = Ok me ->
  divbe me = cvzero /\ divbh me = cvzero /\ bxe me = cvzero.
Proof.
  intros H. unfold GetEPPFTMatrixElements_Cubature in H.
  do 7 inv_bind H. cbn [all_omitted omitted omit00 omit01 omit10 omit11] in H.
  destruct (GetTCR Order) as [NumPts TCR].
  revert H.
  apply (for_loop_invariant
           (fun me => divbe me = cvzero /\ divbh me = cvzero
                      /\ bxe me = cvzero));
    [| repeat split].
  intros np s s' _ [H1 [H2 H3]] Hbody.
  inv_bind Hbody. injection Hbody as <-.
  match goal with
  | |- context [CubatureStep _ _ _ _ ?pg ?nf s] =>
      destruct (CubatureStep_all_omitted pg nf s) as [E1 [E2 E3]]
  end.
  rewrite E1, E2, E3. auto.
Qed.

Variable X : Collaborators.
Variable pot : RWGGeometry -> Z -> Z -> Z -> Vec3 -> cdouble -> Potentials.

(** C1, as the code has it.  The omission mask acts on [divbe], [divbh]
    and [bxe] only: these three outputs of
    [GetEPPFTMatrixElements_Cubature] do not depend on the nearby fields of
    a sub-pair that is marked as omitted.  Whatever potentials [pot]
    replace those of the collaborators, as long as the fields of the
    sub-pairs that are kept agree at every cubature point, the integrator
    returns the same three outputs. *)
Theorem cubature_mask_divb_bxe (G : RWGGeometry) (nsa nsb nea neb : Z)
    (k : cdouble) (mask : PanelPairMask) (Order : Z)
    (S : RWGSurface) (Ea Eb : RWGEdge) :
  aget (Surfaces G) nsa = Ok S ->
  aget (Edges S) nea = Ok Ea ->
  aget (Edges S) neb = Ok Eb ->
  edge_vertices_ok S Ea = true ->
  tcr_ok (X := X) Order = true ->
  (forall np pg,
      SamplePoint (X := X) S Ea Order np = Ok pg ->
      agree_off_mask mask
        (GetNearbyFields (X := X) G nsb Eb pg k)
        (GetNearbyFields (X := with_potentials X pot) G nsb Eb pg k)) ->
  exists me me',
    GetEPPFTMatrixElements_Cubature (X := X) G nsa nsb nea neb k mask Order
    = Ok me
    /\ GetEPPFTMatrixElements_Cubature (X := with_potentials X pot)
         G nsa nsb nea neb k mask Order = Ok me'
    /\ divbe me' = divbe me /\ divbh me' = divbh me /\ bxe me' = bxe me.
Proof.
  intros HS HEa HEb Hv Htcr Hagree.
  destruct (GetEPPFTMatrixElements_Cubature_total (X := X) G nsa nsb nea neb
              k mask Order S Ea Eb HS HEa HEb Hv Htcr) as [me H].
  exists me. rewrite H.
  unfold GetEPPFTMatrixElements_Cubature in *.
  rewrite HS in *. simpl in *. rewrite HEa, HEb in *. simpl in *.
  apply bind_Ok in H as [QP [HQP H]].
  apply bind_Ok in H as [V1 [HV1 H]].
  apply bind_Ok in H as [V2 [HV2 H]].
  apply bind_Ok in H as [QM [HQM H]].
  rewrite HQP, HV1, HV2, HQM. simpl.
  unfold SamplePoint in Hagree. rewrite HQP, HV1, HV2, HQM in Hagree.
  simpl in Hagree.
  destruct (@GetTCR X Order) as [NumPts TCR] eqn:HTCR.
  unfold for_loop in *.
  assert (Hrel : exists me',
    for_each
      (fun np me =>
         pg <- CubaturePoint Ea TCR QP QM (@VecSub X V1 QP)
                 (@VecSub X V1 QM) (@VecSub X V2 V1)
                 (TorqueCenter S) np ;;
         Ok (CubatureStep
               (if omitted mask 0 0 then 0%Qc else 1%Qc)
               (if omitted mask 0 1 then 0%Qc else (- (1))%Qc)
               (if omitted mask 1 0 then 0%Qc else (- (1))%Qc)
               (if omitted mask 1 1 then 0%Qc else 1%Qc) pg
               (GetNearbyFields (X := with_potentials X pot) G nsb Eb pg k)
               me))
      (range NumPts) zero_ME = Ok me'
    /\ same_masked_outputs me me').
  { eapply for_each_related with (R := same_masked_outputs);
      [| | exact H].
    - intros np s1 s2 s1' Hnp HR Hbody.
      apply bind_Ok in Hbody as [pg [Hpg Hbody]]. injection Hbody as <-.
      rewrite Hpg. simpl. eexists. split; [reflexivity |].
      apply CubatureStep_masked; [| exact HR].
      apply (Hagree np). apply in_range in Hnp.
      replace ((0 <=? np) && (np <? NumPts)) with true; [exact Hpg |].
      symmetry. apply andb_true_iff.
      split; [apply Z.leb_le | apply Z.ltb_lt]; lia.
    - repeat split. }
  destruct Hrel as [me' [Hrun' [Hbe [Hbh Hxe]]]].
  exists me'. split; [reflexivity |].
  split; [exact Hrun' |]. repeat split; congruence.
Qed.

End CubatureMask.
(** * Symmetry of the overlap integrals *)

Ltac qc_nonzero :=
  let Hz := fresh "Hz" in
  intro Hz; apply (f_equal this) in Hz; vm_compute in Hz; discriminate Hz.

Lemma D_sum2 : D 2 = (1 + 1)%Qc.
Proof. apply Qc_is_canon; reflexivity. Qed.
Lemma D_sum3 : D 3 = (1 + 1 + 1)%Qc.
Proof. apply Qc_is_canon; reflexivity. Qed.
Lemma D_sum4 : D 4 = ((1 + 1) * (1 + 1))%Qc.
Proof. apply Qc_is_canon; reflexivity. Qed.
Lemma D_sum6 : D 6 = ((1 + 1) * (1 + 1 + 1))%Qc.
Proof. apply Qc_is_canon; reflexivity. Qed.
Lemma D_sum12 : D 12 = ((1 + 1) * (1 + 1) * (1 + 1 + 1))%Qc.
Proof. apply Qc_is_canon; reflexivity. Qed.

(** Equations between doubles with the integer literals of the overlap
    factors in denominators. *)
Ltac overlap_field :=
  rewrite ?D_sum2, ?D_sum3, ?D_sum4, ?D_sum6, ?D_sum12;
  field; repeat split; qc_nonzero.

Lemma length_add_to (i : nat) (x : double) (a : list double) :
  List.length (add_to i x a) = List.length a.
Proof.
  revert i. induction a as [| y a IH]; intros [| i]; simpl; auto.
Qed.

Lemma ov_add_to_same (i : nat) (x : double) (a : list double) :
  (i < List.length a)%nat -> ov (add_to i x a) i = (ov a i + x)%Qc.
Proof.
  revert i. induction a as [| y a IH]; intros [| i] Hi; simpl in *;
    try lia; [reflexivity |].
  apply IH. lia.
Qed.

Lemma ov_add_to_other (i j : nat) (x : double) (a : list double) :
  i <> j -> ov (add_to i x a) j = ov a j.
Proof.
  revert i j. induction a as [| y a IH]; intros [| i] [| j] Hij; simpl;
    try reflexivity; try congruence.
  apply IH. congruence.
Qed.

Lemma Ok_inj {A} (a b : A) : Ok a = Ok b -> a = b.
Proof. congruence. Qed.

Section OverlapSymmetry.
Context {X : Collaborators}.
Local Open Scope Qc_scope.

Lemma AddOverlapContributions_length (S : RWGSurface) (P : RWGPanel)
    (iQa iQb : Z) (Sign LL : double) (O O' : list double) :
  AddOverlapContributions S P iQa iQb Sign LL O = Ok O' ->
  List.length O' = List.length O.
Proof.
  unfold AddOverlapContributions. intro H.
  do 8 inv_bind H. cbv zeta in H. apply Ok_inj in H. subst O'.
  unfold sub_from. now rewrite !length_add_to.
Qed.

Lemma panel_vertex_eq (S : RWGSurface) (P : RWGPanel) (i vi : Z) (v : Vec3) :
  v3get (VI P) i = Ok vi -> aget (Vertices S) vi = Ok v ->
  panel_vertex S P i = v.
Proof. intros H1 H2. unfold panel_vertex. now rewrite H1, H2. Qed.

(** The first two entries after one call of [AddOverlapContributions]. *)
Lemma AddOverlapContributions_slots (S : RWGSurface) (P : RWGPanel)
    (iQa iQb : Z) (Sign LL : double) (O O' : list double) :
  exact_vector_algebra X ->
  (2 <= List.length O)%nat ->
  AddOverlapContributions S P iQa iQb Sign LL O = Ok O' ->
  ov O' 0 = ov O 0 + Sign * LL / (D 2 * Area P) * BulletFactor1 S P iQa iQb
  /\ ov O' 1 = ov O 1 + Sign * LL / (D 2 * Area P) * TimesFactor S P iQa iQb.
Proof.
  intros [Hsub Hcross] Hlen H. unfold AddOverlapContributions in H.
  apply bind_Ok in H as [viQa [H1 H]]. apply bind_Ok in H as [Qa [H2 H]].
  apply bind_Ok in H as [viQaP1 [H3 H]]. apply bind_Ok in H as [QaP1 [H4 H]].
  apply bind_Ok in H as [viQaP2 [H5 H]]. apply bind_Ok in H as [QaP2 [H6 H]].
  apply bind_Ok in H as [viQb [H7 H]]. apply bind_Ok in H as [Qb [H8 H]].
  cbv zeta in H. apply Ok_inj in H. subst O'.
  unfold BulletFactor1, TimesFactor. cbv zeta.
  rewrite (panel_vertex_eq _ _ _ _ _ H1 H2), (panel_vertex_eq _ _ _ _ _ H3 H4),
          (panel_vertex_eq _ _ _ _ _ H5 H6), (panel_vertex_eq _ _ _ _ _ H7 H8).
  unfold sub_from.
  split.
  - rewrite !(ov_add_to_other _ 0) by discriminate.
    rewrite ov_add_to_same by lia.
    rewrite !Hsub. reflexivity.
  - rewrite !(ov_add_to_other _ 1) by discriminate.
    rewrite ov_add_to_same by (rewrite length_add_to; lia).
    rewrite ov_add_to_other by discriminate.
    rewrite !Hsub, !Hcross. reflexivity.
Qed.

End OverlapSymmetry.
Section OverlapSymmetry2.
Context {X : Collaborators}.
Local Open Scope Qc_scope.

Ltac three_cases i :=
  let H := fresh in
  match goal with
  | Hi : (0 <= i < 3)%Z |- _ =>
      assert (H : i = 0%Z \/ i = 1%Z \/ i = 2%Z) by lia;
      destruct H as [-> | [-> | ->]]; clear Hi
  end.

(** The integral of [(x - Qa).(x - Qb)] over a panel does not depend on
    which of the two hub vertices the parametrisation starts from. *)
Lemma BulletFactor1_swap (S : RWGSurface) (P : RWGPanel) (i j : Z) :
  (0 <= i < 3)%Z -> (0 <= j < 3)%Z ->
  BulletFactor1 S P i j = BulletFactor1 S P j i.
Proof.
  intros Hi Hj. three_cases i; three_cases j; try reflexivity;
    unfold BulletFactor1; cbv zeta;
    change (Z.rem (0 + 1) 3) with 1%Z; change (Z.rem (0 + 2) 3) with 2%Z;
    change (Z.rem (1 + 1) 3) with 2%Z; change (Z.rem (1 + 2) 3) with 0%Z;
    change (Z.rem (2 + 1) 3) with 0%Z; change (Z.rem (2 + 2) 3) with 1%Z;
    generalize (panel_vertex S P 0), (panel_vertex S P 1),
               (panel_vertex S P 2);
    intros [a0 a1 a2] [b0 b1 b2] [d0 d1 d2];
    unfold Vec3_dot, Vec3_sub, v3map2; cbn [c0 c1 c2];
    overlap_field.
Qed.

(** The integral of [(x - Qa).(n x (x - Qb))] changes sign when the two
    hub vertices are exchanged. *)
Lemma TimesFactor_swap (S : RWGSurface) (P : RWGPanel) (i j : Z) :
  (0 <= i < 3)%Z -> (0 <= j < 3)%Z ->
  TimesFactor S P i j = - TimesFactor S P j i.
Proof.
  intros Hi Hj. three_cases i; three_cases j;
    unfold TimesFactor; cbv zeta;
    change (Z.rem (0 + 1) 3) with 1%Z; change (Z.rem (0 + 2) 3) with 2%Z;
    change (Z.rem (1 + 1) 3) with 2%Z; change (Z.rem (1 + 2) 3) with 0%Z;
    change (Z.rem (2 + 1) 3) with 0%Z; change (Z.rem (2 + 2) 3) with 1%Z;
    generalize (ZHat P), (panel_vertex S P 0), (panel_vertex S P 1),
               (panel_vertex S P 2);
    intros [z0 z1 z2] [a0 a1 a2] [b0 b1 b2] [d0 d1 d2];
    unfold Vec3_cross, Vec3_sub, v3map2; cbn [c0 c1 c2];
    overlap_field.
Qed.

Lemma PanelTerm_swap (S : RWGSurface) (np np' i j : Z) (Sign la lb : double) :
  np = np' -> (0 <= i < 3)%Z -> (0 <= j < 3)%Z ->
  PanelTerm BulletFactor1 S np i j Sign (la * lb)
  = PanelTerm BulletFactor1 S np' j i Sign (lb * la).
Proof.
  intros <- Hi Hj. unfold PanelTerm.
  destruct (aget (Panels S) np) as [P |]; [| reflexivity].
  rewrite (BulletFactor1_swap S P i j Hi Hj).
  unfold Qcdiv. ring.
Qed.

Lemma PanelTerm_antiswap (S : RWGSurface) (np np' i j : Z)
    (Sign la lb : double) :
  np = np' -> (0 <= i < 3)%Z -> (0 <= j < 3)%Z ->
  PanelTerm TimesFactor S np i j Sign (la * lb)
  = - PanelTerm TimesFactor S np' j i Sign (lb * la).
Proof.
  intros <- Hi Hj. unfold PanelTerm.
  destruct (aget (Panels S) np) as [P |]; [| ring].
  rewrite (TimesFactor_swap S P i j Hi Hj).
  unfold Qcdiv. ring.
Qed.

(** One conditional call of [AddOverlapContributions] in [GetOverlaps]. *)
Lemma GetOverlaps_step (S : RWGSurface) (np : Z) (P : RWGPanel) (c : bool)
    (iQa iQb : Z) (Sign LL : double) (O O' : list double) :
  exact_vector_algebra X ->
  aget (Panels S) np = Ok P ->
  (2 <= List.length O)%nat ->
  (if c then AddOverlapContributions S P iQa iQb Sign LL O else Ok O)
  = Ok O' ->
  List.length O' = List.length O
  /\ ov O' 0 = ov O 0
               + (if c then PanelTerm BulletFactor1 S np iQa iQb Sign LL
                  else 0)
  /\ ov O' 1 = ov O 1
               + (if c then PanelTerm TimesFactor S np iQa iQb Sign LL
                  else 0).
Proof.
  intros HX HP Hlen H. destruct c.
  - split; [eapply AddOverlapContributions_length; eauto |].
    unfold PanelTerm. rewrite HP.
    eapply AddOverlapContributions_slots; eauto.
  - apply Ok_inj in H. subst O'. repeat split; ring.
Qed.

(** The plain and the crossed overlap that [GetOverlaps] returns, as sums
    over the panels the two basis functions share. *)
Lemma GetOverlaps_formula (S : RWGSurface) (nea neb : Z) (Ea Eb : RWGEdge)
    (O : list double) :
  exact_vector_algebra X ->
  aget (Edges S) nea = Ok Ea ->
  aget (Edges S) neb = Ok Eb ->
  GetOverlaps S nea neb = Ok O ->
  List.length O = 20%nat
  /\ ov O OVERLAP_OVERLAP = OverlapFormula BulletFactor1 S Ea Eb
  /\ ov O OVERLAP_CROSS = OverlapFormula TimesFactor S Ea Eb.
Proof.
  intros HX Ha Hb H. unfold GetOverlaps in H. rewrite Ha, Hb in H.
  cbn [bind] in H.
  apply bind_Ok in H as [PP [HPP H]].
  apply bind_Ok in H as [PM [HPM H]].
  apply bind_Ok in H as [O1 [H1 H]].
  apply bind_Ok in H as [O2 [H2 H]].
  apply bind_Ok in H as [O3 [H3 H]].
  apply bind_Ok in H as [O4 [H4 H]].
  apply Ok_inj in H. subst O4.
  assert (H0 : List.length (repeat 0 NUMOVERLAPS) = 20%nat) by reflexivity.
  eapply GetOverlaps_step in H1 as (L1 & A1 & B1); eauto; [| rewrite H0; lia].
  eapply GetOverlaps_step in H2 as (L2 & A2 & B2); eauto; [| lia].
  assert (H34 :
    List.length O = List.length O2
    /\ ov O 0 = ov O2 0
         + (if negb (iMPanel Ea =? -1) && (iMPanel Ea =? iPPanel Eb)
            then PanelTerm BulletFactor1 S (iMPanel Ea) (MIndex Ea)
                           (PIndex Eb) (- (1)) (Length Ea * Length Eb)
            else 0)
         + (if negb (iMPanel Ea =? -1) && (iMPanel Ea =? iMPanel Eb)
            then PanelTerm BulletFactor1 S (iMPanel Ea) (MIndex Ea)
                           (MIndex Eb) 1 (Length Ea * Length Eb)
            else 0)
    /\ ov O 1 = ov O2 1
         + (if negb (iMPanel Ea =? -1) && (iMPanel Ea =? iPPanel Eb)
            then PanelTerm TimesFactor S (iMPanel Ea) (MIndex Ea)
                           (PIndex Eb) (- (1)) (Length Ea * Length Eb)
            else 0)
         + (if negb (iMPanel Ea =? -1) && (iMPanel Ea =? iMPanel Eb)
            then PanelTerm TimesFactor S (iMPanel Ea) (MIndex Ea)
                           (MIndex Eb) 1 (Length Ea * Length Eb)
            else 0)).
  { destruct (iMPanel Ea =? -1) eqn:HM; cbn [negb andb] in *.
    - apply Ok_inj in H3, H4. subst O3 O. repeat split; ring.
    - apply bind_Ok in HPM as [PAM [HPAM HPM]]. apply Ok_inj in HPM.
      subst PM.
      assert (H3' :
        (if iMPanel Ea =? iPPanel Eb
         then AddOverlapContributions S PAM (MIndex Ea) (PIndex Eb) (- (1))
                (Length Ea * Length Eb) O2
         else Ok O2) = Ok O3)
        by (destruct (iMPanel Ea =? iPPanel Eb); exact H3).
      assert (H4' :
        (if iMPanel Ea =? iMPanel Eb
         then AddOverlapContributions S PAM (MIndex Ea) (MIndex Eb) 1
                (Length Ea * Length Eb) O3
         else Ok O3) = Ok O)
        by (destruct (iMPanel Ea =? iMPanel Eb); exact H4).
      eapply GetOverlaps_step in H3' as (L3 & A3 & B3); eauto; [| lia].
      eapply GetOverlaps_step in H4' as (L4 & A4 & B4); eauto; [| lia].
      rewrite L4, L3, A4, A3, B4, B3. repeat split; ring. }
  destruct H34 as (L34 & A34 & B34).
  unfold OVERLAP_OVERLAP, OVERLAP_CROSS, OverlapFormula. cbv zeta.
  rewrite L34, L2, L1, A34, A2, A1, B34, B2, B1.
  change (ov (repeat 0 NUMOVERLAPS) 0) with 0.
  change (ov (repeat 0 NUMOVERLAPS) 1) with 0.
  repeat split; ring.
Qed.

End OverlapSymmetry2.
Section OverlapSymmetry3.
Context {X : Collaborators}.
Local Open Scope Qc_scope.

Lemma edge_indices_ok (S : RWGSurface) (ne : Z) (E : RWGEdge) :
  wf_mesh S = true -> aget (Edges S) ne = Ok E ->
  (0 <= PIndex E < 3)%Z /\ (0 <= iPPanel E)%Z
  /\ ((iMPanel E =? -1)%Z = false -> (0 <= MIndex E < 3)%Z).
Proof.
  intros Hwf HE. pose proof (wf_mesh_edge_ok _ _ _ Hwf HE) as Hok.
  unfold edge_ok in Hok. apply andb_true_iff in Hok as [HP HM].
  destruct (panel_lists_edge_index _ _ _ _ HP) as [H1 H2].
  split; [exact H1 |]. split; [exact H2 |].
  intro HM1. rewrite HM1 in HM. cbn [orb] in HM.
  now destruct (panel_lists_edge_index _ _ _ _ HM).
Qed.

Ltac eqb_facts :=
  repeat match goal with
         | H : (_ =? _)%Z = true |- _ => apply Z.eqb_eq in H
         | H : (_ =? _)%Z = false |- _ => apply Z.eqb_neq in H
         end.

(** Exchanging the two basis functions permutes the four panel
    comparisons of [GetOverlaps] and exchanges the hub vertices in each. *)
Lemma OverlapFormula_swap (S : RWGSurface) (nea neb : Z) (Ea Eb : RWGEdge) :
  wf_mesh S = true ->
  aget (Edges S) nea = Ok Ea ->
  aget (Edges S) neb = Ok Eb ->
  OverlapFormula BulletFactor1 S Ea Eb = OverlapFormula BulletFactor1 S Eb Ea
  /\ OverlapFormula TimesFactor S Ea Eb
     = - OverlapFormula TimesFactor S Eb Ea.
Proof.
  intros Hwf Ha Hb.
  destruct (edge_indices_ok _ _ _ Hwf Ha) as (HPa & HPa0 & HMa).
  destruct (edge_indices_ok _ _ _ Hwf Hb) as (HPb & HPb0 & HMb).
  unfold OverlapFormula. cbv zeta.
  rewrite (Z.eqb_sym (iPPanel Eb) (iPPanel Ea)),
          (Z.eqb_sym (iPPanel Eb) (iMPanel Ea)),
          (Z.eqb_sym (iMPanel Eb) (iPPanel Ea)),
          (Z.eqb_sym (iMPanel Eb) (iMPanel Ea)).
  clear Ha Hb Hwf. revert HPa0 HPb0 HMa HMb.
  generalize (iPPanel Ea), (iPPanel Eb), (iMPanel Ea), (iMPanel Eb).
  intros pa pb ma mb HPa0 HPb0 HMa HMb.
  destruct (pa =? pb)%Z eqn:C1;
    destruct (pa =? mb)%Z eqn:C2;
    destruct (ma =? pb)%Z eqn:C3;
    destruct (ma =? mb)%Z eqn:C4;
    destruct (ma =? -1)%Z eqn:Ma;
    destruct (mb =? -1)%Z eqn:Mb;
    cbn [negb andb];
    try (exfalso; eqb_facts; lia);
    try specialize (HMa eq_refl); try specialize (HMb eq_refl);
    eqb_facts; subst;
    (split;
     [ repeat match goal with
              | |- context [PanelTerm BulletFactor1 S ?p ?i ?j ?s
                              (Length Eb * Length Ea)] =>
                  rewrite (PanelTerm_swap S p _ i j s (Length Eb) (Length Ea))
                    by (assumption || reflexivity || lia)
              end; try ring
     | repeat match goal with
              | |- context [PanelTerm TimesFactor S ?p ?i ?j ?s
                              (Length Eb * Length Ea)] =>
                  rewrite (PanelTerm_antiswap S p _ i j s
                             (Length Eb) (Length Ea))
                    by (assumption || reflexivity || lia)
              end; try ring ]).
Qed.

End OverlapSymmetry3.
Section OverlapTheorems.
Context {X : Collaborators}.
Local Open Scope Qc_scope.

Lemma GetOverlaps_length (S : RWGSurface) (nea neb : Z) (O : list double) :
  GetOverlaps S nea neb = Ok O -> List.length O = 20%nat.
Proof.
  intro H. unfold GetOverlaps in H.
  apply bind_Ok in H as [Ea [_ H]]. apply bind_Ok in H as [Eb [_ H]].
  apply bind_Ok in H as [PP [_ H]]. apply bind_Ok in H as [PM [_ H]].
  apply bind_Ok in H as [O1 [H1 H]]. apply bind_Ok in H as [O2 [H2 H]].
  apply bind_Ok in H as [O3 [H3 H]]. apply bind_Ok in H as [O4 [H4 H]].
  apply Ok_inj in H. subst O4.
  assert (step : forall (c : bool) r (A B : list double),
             (if c then r else Ok A) = Ok B ->
             (forall B', r = Ok B' -> List.length B' = List.length A) ->
             List.length B = List.length A).
  { intros [|] r A B Hr Hlen; [now apply Hlen |].
    apply Ok_inj in Hr. now subst. }
  apply step in H1;
    [| intros B'; apply AddOverlapContributions_length].
  apply step in H2;
    [| intros B'; apply AddOverlapContributions_length].
  apply step in H3;
    [| intros B' HB; apply bind_Ok in HB as [P [_ HB]];
       now apply AddOverlapContributions_length in HB].
  apply step in H4;
    [| intros B' HB; apply bind_Ok in HB as [P [_ HB]];
       now apply AddOverlapContributions_length in HB].
  rewrite H4, H3, H2, H1. reflexivity.
Qed.

(** X1.  [GetOverlaps] stays within the arrays of a well-formed surface:
    for any two basis functions of the surface it returns, and what it
    returns is an array of exactly 20 overlap integrals.  With an edge
    index outside [0, NumEdges) it reads [Edges] out of bounds. *)
Theorem GetOverlaps_in_bounds (S : RWGSurface) (nea neb : Z) :
  (wf_surface S = true ->
   has_edge S nea = true -> has_edge S neb = true ->
   exists O, GetOverlaps S nea neb = Ok O /\ List.length O = 20%nat)
  /\ (has_edge S nea = false \/ has_edge S neb = false ->
      GetOverlaps S nea neb = Fault OutOfBounds).
Proof.
  split.
  - intros Hwf Ha Hb.
    destruct (has_edge_aget _ _ Ha) as [Ea HEa].
    destruct (has_edge_aget _ _ Hb) as [Eb HEb].
    destruct (GetOverlaps_total S nea neb Ea Eb Hwf HEa HEb) as [O HO].
    exists O. split; [exact HO | exact (GetOverlaps_length _ _ _ _ HO)].
  - assert (out : forall e, has_edge S e = false ->
                            aget (Edges S) e = Fault OutOfBounds).
    { intros e He. apply aget_out_of_range. unfold has_edge, NumEdges in He.
      apply andb_false_iff in He as [He | He];
        [apply Z.leb_gt in He | apply Z.ltb_ge in He]; lia. }
    intros [Ha | Hb]; unfold GetOverlaps.
    + now rewrite (out _ Ha).
    + rewrite (out _ Hb).
      destruct (aget (Edges S) nea) as [Ea | f] eqn:HEa; [reflexivity |].
      cbn [bind]. f_equal. unfold aget in HEa.
      destruct (nea <? 0)%Z; [congruence |].
      destruct (nth_error (Edges S) (Z.to_nat nea)); congruence.
Qed.

(** X2.  The plain overlap of two RWG basis functions is symmetric:
    on a well-formed surface, [GetOverlaps(nea, neb)] and
    [GetOverlaps(neb, nea)] both return and agree in entry 0, although the
    closed form is evaluated from a different hub vertex in each call. *)
Theorem GetOverlaps_overlap_symmetric (S : RWGSurface) (nea neb : Z)
    (Ea Eb : RWGEdge) :
  exact_vector_algebra X ->
  wf_surface S = true ->
  aget (Edges S) nea = Ok Ea ->
  aget (Edges S) neb = Ok Eb ->
  exists Oab Oba,
    GetOverlaps S nea neb = Ok Oab
    /\ GetOverlaps S neb nea = Ok Oba
    /\ ov Oab OVERLAP_OVERLAP = ov Oba OVERLAP_OVERLAP.
Proof.
  intros HX Hwf Ha Hb.
  destruct (GetOverlaps_total S nea neb Ea Eb Hwf Ha Hb) as [Oab Hab].
  destruct (GetOverlaps_total S neb nea Eb Ea Hwf Hb Ha) as [Oba Hba].
  exists Oab, Oba. split; [exact Hab |]. split; [exact Hba |].
  destruct (GetOverlaps_formula S nea neb Ea Eb Oab HX Ha Hb Hab)
    as (_ & -> & _).
  destruct (GetOverlaps_formula S neb nea Eb Ea Oba HX Hb Ha Hba)
    as (_ & -> & _).
  unfold wf_surface in Hwf. apply andb_true_iff in Hwf as [Hmesh _].
  now destruct (OverlapFormula_swap S nea neb Ea Eb Hmesh Ha Hb).
Qed.

(** X3.  The crossed overlap (entry 1, the integral of
    [f_a . (nHat x f_b)]) is antisymmetric: exchanging the two basis
    functions flips its sign, and the crossed overlap of a basis function
    with itself is zero. *)
Theorem GetOverlaps_cross_antisymmetric (S : RWGSurface) (nea neb : Z)
    (Ea Eb : RWGEdge) :
  exact_vector_algebra X ->
  wf_surface S = true ->
  aget (Edges S) nea = Ok Ea ->
  aget (Edges S) neb = Ok Eb ->
  exists Oab Oba,
    GetOverlaps S nea neb = Ok Oab
    /\ GetOverlaps S neb nea = Ok Oba
    /\ ov Oab OVERLAP_CROSS = - ov Oba OVERLAP_CROSS
    /\ (nea = neb -> ov Oab OVERLAP_CROSS = 0).
Proof.
  intros HX Hwf Ha Hb.
  destruct (GetOverlaps_total S nea neb Ea Eb Hwf Ha Hb) as [Oab Hab].
  destruct (GetOverlaps_total S neb nea Eb Ea Hwf Hb Ha) as [Oba Hba].
  exists Oab, Oba. split; [exact Hab |]. split; [exact Hba |].
  assert (Hanti : ov Oab OVERLAP_CROSS = - ov Oba OVERLAP_CROSS).
  { destruct (GetOverlaps_formula S nea neb Ea Eb Oab HX Ha Hb Hab)
      as (_ & _ & ->).
    destruct (GetOverlaps_formula S neb nea Eb Ea Oba HX Hb Ha Hba)
      as (_ & _ & ->).
    unfold wf_surface in Hwf. apply andb_true_iff in Hwf as [Hmesh _].
    now destruct (OverlapFormula_swap S nea neb Ea Eb Hmesh Ha Hb). }
  split; [exact Hanti |].
  intros ->. rewrite Hab in Hba. apply Ok_inj in Hba. subst Oba.
  assert (H2 : (1 + 1) * ov Oab OVERLAP_CROSS = 0).
  { transitivity (ov Oab OVERLAP_CROSS + ov Oab OVERLAP_CROSS); [ring |].
    rewrite Hanti at 1. ring. }
  apply Qcmult_integral in H2 as [H2 | H2]; [| exact H2].
  exfalso. revert H2. qc_nonzero.
Qed.

(** X4.  [RWGSurface::GetOverlap], the two-number interface to the
    overlap engine: on a well-formed surface it returns the plain overlap
    and, when [pOTimes] is not null, stores the crossed overlap; with the
    two basis functions exchanged it returns the same overlap and stores
    the opposite crossed overlap; with [pOTimes] null it returns the same
    overlap and stores nothing. *)
Theorem GetOverlap_exchange (S : RWGSurface) (nea neb : Z)
    (Ea Eb : RWGEdge) :
  exact_vector_algebra X ->
  wf_surface S = true ->
  aget (Edges S) nea = Ok Ea ->
  aget (Edges S) neb = Ok Eb ->
  exists overlap crossed,
    GetOverlap S nea neb true = Ok (overlap, Some crossed)
    /\ GetOverlap S neb nea true = Ok (overlap, Some (- crossed))
    /\ GetOverlap S nea neb false = Ok (overlap, None).
Proof.
  intros HX Hwf Ha Hb.
  destruct (GetOverlaps_total S nea neb Ea Eb Hwf Ha Hb) as [Oab Hab].
  destruct (GetOverlaps_total S neb nea Eb Ea Hwf Hb Ha) as [Oba Hba].
  destruct (GetOverlaps_formula S nea neb Ea Eb Oab HX Ha Hb Hab)
    as (_ & Hab0 & Hab1).
  destruct (GetOverlaps_formula S neb nea Eb Ea Oba HX Hb Ha Hba)
    as (_ & Hba0 & Hba1).
  unfold wf_surface in Hwf. apply andb_true_iff in Hwf as [Hmesh _].
  destruct (OverlapFormula_swap S nea neb Ea Eb Hmesh Ha Hb) as [H0 H1].
  unfold OVERLAP_OVERLAP, OVERLAP_CROSS in *.
  exists (ov Oab 0), (ov Oab 1). unfold GetOverlap.
  rewrite Hab, Hba. cbn [bind]. repeat split.
  do 2 f_equal; [congruence |]. f_equal.
  rewrite Hba1, Hab1, H1. ring.
Qed.

End OverlapTheorems.
(** * The array that [GetOverlappingEdgeIndices] fills *)

Section NeighbourArray.
Context {X : Collaborators}.

(** X5.  [GetOverlappingEdgeIndices] reads nothing of the array it
    fills: called with any two arrays of five entries (such as the
    uninitialised local array of [GetOPFT]) it returns the same count and
    enumerates the same edges. *)
Theorem GetOverlappingEdgeIndices_ignores_array (S : RWGSurface) (nea : Z)
    (a1 a2 : list Z) (r1 : Z * list Z) :
  List.length a1 = 5%nat ->
  List.length a2 = 5%nat ->
  GetOverlappingEdgeIndices S nea a1 = Ok r1 ->
  exists r2,
    GetOverlappingEdgeIndices S nea a2 = Ok r2
    /\ fst r2 = fst r1
    /\ enumerated r2 = enumerated r1.
Proof.
  intros H1 H2.
  destruct a1 as [| x0 [| x1 [| x2 [| x3 [| x4 [|]]]]]]; try discriminate.
  destruct a2 as [| y0 [| y1 [| y2 [| y3 [| y4 [|]]]]]]; try discriminate.
  unfold GetOverlappingEdgeIndices.
  cbn [aset List.length Nat.ltb Nat.leb firstn skipn app bind].
  intro H.
  apply bind_Ok in H as [E [-> H]]. cbn [bind].
  apply bind_Ok in H as [PP [-> H]]. cbn [bind].
  apply bind_Ok in H as [e1 [-> H]]. cbn [bind].
  apply bind_Ok in H as [e2 [-> H]]. cbn [bind].
  destruct (iMPanel E =? -1).
  - apply Ok_inj in H. subst r1. eexists. split; [reflexivity |].
    split; reflexivity.
  - apply bind_Ok in H as [PM [-> H]]. cbn [bind].
    apply bind_Ok in H as [e3 [-> H]]. cbn [bind].
    apply bind_Ok in H as [e4 [-> H]]. cbn [bind].
    apply Ok_inj in H. subst r1. eexists. split; [reflexivity |].
    split; reflexivity.
Qed.

End NeighbourArray.
(** * The layout of the per-edge arrays is kept *)

Lemma aget_Ok_nth_error {A} (a : list A) (i : Z) (x : A) :
  aget a i = Ok x -> nth_error a (Z.to_nat i) = Some x.
Proof.
  unfold aget. destruct (i <? 0); [discriminate |].
  destruct (nth_error a (Z.to_nat i)); congruence.
Qed.

Lemma map_aset {A B} (f : A -> B) (a a' : list A) (i : nat) (x y : A) :
  aset a i x = Ok a' -> nth_error a i = Some y -> f x = f y ->
  map f a' = map f a.
Proof.
  intros Hset Hnth Hf. apply aset_Ok in Hset as [_ ->].
  apply nth_error_split in Hnth as (l1 & l2 & -> & <-).
  rewrite firstn_app, firstn_all, Nat.sub_diag, app_nil_r.
  replace (skipn (Datatypes.S (List.length l1)) (l1 ++ y :: l2)) with l2.
  - rewrite !map_app. cbn [map]. now rewrite Hf.
  - rewrite skipn_app, skipn_all2 by lia.
    now replace (Datatypes.S (List.length l1) - List.length l1)%nat
      with 1%nat by lia.
Qed.

Lemma memset_row_length (NE : Z) (row row' : list double) :
  memset_row NE row = Ok row' -> List.length row' = List.length row.
Proof.
  unfold memset_row.
  destruct (Z.to_nat NE <=? List.length row)%nat eqn:Hle; [| discriminate].
  intro H. apply Ok_inj in H. subst row'. apply Nat.leb_le in Hle.
  rewrite length_app, repeat_length, length_skipn. lia.
Qed.

Lemma ZeroByEdge_layout (NE : Z) (B B' : ByEdgeArrays) :
  ZeroByEdge NE B = Ok B' -> ByEdge_layout B' = ByEdge_layout B.
Proof.
  unfold ZeroByEdge. destruct B as [rows |].
  - intro H. apply bind_Ok in H as [rows' [Hloop H]].
    apply Ok_inj in H. subst B'. cbn [ByEdge_layout option_map]. f_equal.
    revert Hloop.
    apply (for_loop_invariant
             (fun r => rows_layout r = rows_layout rows)); [| reflexivity].
    intros nq r r' _ IH Hstep.
    apply bind_Ok in Hstep as [[row |] [Hget Hstep]].
    + apply bind_Ok in Hstep as [row' [Hmem Hset]].
      rewrite <- IH. unfold rows_layout.
      apply (map_aset _ _ _ _ _ _ Hset (aget_Ok_nth_error _ _ _ Hget)).
      cbn [option_map]. f_equal. now apply memset_row_length in Hmem.
    + apply Ok_inj in Hstep. now subst r'.
  - intro H. apply Ok_inj in H. now subst B'.
Qed.

Lemma ByEdgeAdd_layout (q nea : Z) (d : double)
    (rows rows' : list (option (list double))) :
  ByEdgeAdd q nea d rows = Ok rows' -> rows_layout rows' = rows_layout rows.
Proof.
  unfold ByEdgeAdd. intro H.
  apply bind_Ok in H as [[row |] [Hget H]].
  - apply bind_Ok in H as [x [Hx H]]. apply bind_Ok in H as [row' [Hrow H]].
    unfold rows_layout.
    apply (map_aset _ _ _ _ _ _ H (aget_Ok_nth_error _ _ _ Hget)).
    cbn [option_map]. f_equal. now apply aset_length in Hrow.
  - apply Ok_inj in H. now subst rows'.
Qed.

Lemma AccumulateByEdge_layout (nea : Z) (d : PFTSums) (B B' : ByEdgeArrays) :
  AccumulateByEdge nea d B = Ok B' -> ByEdge_layout B' = ByEdge_layout B.
Proof.
  unfold AccumulateByEdge. destruct B as [rows |].
  - intro H.
    repeat match type of H with
           | bind _ _ = Ok _ =>
               let r := fresh "r" in
               let Hr := fresh "Hr" in
               apply bind_Ok in H as [r [Hr H]];
               apply ByEdgeAdd_layout in Hr
           end.
    apply Ok_inj in H. subst B'. cbn [ByEdge_layout option_map].
    congruence.
  - intro H. apply Ok_inj in H. now subst B'.
Qed.

(** A row that was supplied is still there, with its length. *)
Lemma ByEdge_layout_row (B B' : ByEdgeArrays) (q : Z) (row : list double) :
  ByEdge_layout B' = ByEdge_layout B ->
  ByEdgeRow B q = Some row ->
  exists row', ByEdgeRow B' q = Some row'
               /\ List.length row' = List.length row.
Proof.
  unfold ByEdge_layout, ByEdgeRow.
  destruct B as [rows |]; [| discriminate].
  destruct B' as [rows' |]; [| discriminate].
  cbn [option_map]. intros Hlay Hrow. injection Hlay as Hlay.
  destruct (aget rows q) as [[row0 |] | f] eqn:Hget; try discriminate.
  injection Hrow as ->.
  pose proof (aget_Ok_range _ _ _ Hget) as Hq.
  apply aget_Ok_nth_error in Hget.
  assert (Hn : nth_error (rows_layout rows') (Z.to_nat q)
               = Some (Some (List.length row))).
  { rewrite Hlay. unfold rows_layout. rewrite nth_error_map, Hget.
    reflexivity. }
  unfold rows_layout in Hn. rewrite nth_error_map in Hn.
  destruct (nth_error rows' (Z.to_nat q)) as [[row' |] |] eqn:Hget';
    try discriminate.
  cbn [option_map] in Hn. injection Hn as Hn.
  exists row'. split; [| exact Hn].
  unfold aget. destruct (q <? 0) eqn:Hneg; [apply Z.ltb_lt in Hneg; lia |].
  now rewrite Hget'.
Qed.

Section LayoutLoops.
Context {X : Collaborators}.

Lemma OPFT_OuterBody_layout (S : RWGSurface) (Offset : Z)
    (Omega ZZ k2 : cdouble) (KNVector : option HVector)
    (RytovMatrix : option HMatrix) (nea : Z)
    (st st' : PFTSums * ByEdgeArrays) :
  OPFT_OuterBody S Offset Omega ZZ k2 KNVector RytovMatrix nea st = Ok st' ->
  ByEdge_layout (snd st') = ByEdge_layout (snd st).
Proof.
  unfold OPFT_OuterBody. intro H.
  apply bind_Ok in H as [[nebCount nebArray] [_ H]].
  revert H.
  apply (for_loop_invariant
           (fun s => ByEdge_layout (snd s) = ByEdge_layout (snd st)));
    [| reflexivity].
  intros nneb [sums B] [sums' B'] _ IH Hstep. unfold OPFT_InnerBody in Hstep.
  apply bind_Ok in Hstep as [neb [_ Hstep]].
  apply bind_Ok in Hstep as [O [_ Hstep]].
  apply bind_Ok in Hstep as [cp [_ Hstep]].
  apply bind_Ok in Hstep as [B1 [Hacc Hstep]].
  apply Ok_inj in Hstep. injection Hstep as _ <-.
  cbn [snd] in *. rewrite <- IH. now apply AccumulateByEdge_layout in Hacc.
Qed.

Lemma EPPFT_PairBody_layout (G : RWGGeometry) (S : RWGSurface)
    (SurfaceIndex Offset : Z) (k : cdouble) (Sign : double) (pf : Prefactors)
    (Interior : bool) (KNVector : option HVector)
    (SigmaMatrix : option HMatrix) (neab : Z)
    (st st' : PFTSums * ByEdgeArrays) :
  EPPFT_PairBody G S SurfaceIndex Offset k Sign pf Interior
                 KNVector SigmaMatrix neab st = Ok st' ->
  ByEdge_layout (snd st') = ByEdge_layout (snd st).
Proof.
  destruct st as [sums B]. unfold EPPFT_PairBody. cbv zeta. intro H.
  apply bind_Ok in H as [me [_ H]].
  apply bind_Ok in H as [cp [_ H]].
  apply bind_Ok in H as [d [_ H]].
  apply bind_Ok in H as [B1 [Hacc H]].
  apply Ok_inj in H. subst st'. cbn [snd].
  now apply AccumulateByEdge_layout in Hacc.
Qed.

End LayoutLoops.
(** * The reduction routines on accepted calls *)

Section ReductionTheorems.
Context {X : Collaborators}.

(** X6.  [GetOPFT] on a well-formed call: it returns without a warning,
    the per-edge arrays keep their layout (the same rows are null, every
    row keeps its length), and each row that is there sums over the edges
    to the entry of [PFT] for its quantity: row 0 to [PFT[0]], row [q >= 1]
    to [PFT[q+1]]. *)
Theorem GetOPFT_rows_sum_to_PFT (G : RWGGeometry) (SurfaceIndex : Z)
    (Omega : cdouble) (KNVector RHS : option HVector)
    (RytovMatrix : option HMatrix) (ByEdge : ByEdgeArrays)
    (S : RWGSurface) (Offset : Z) (MP : MatProp) :
  aget (Surfaces G) SurfaceIndex = Ok S ->
  aget (BFIndexOffset G) SurfaceIndex = Ok Offset ->
  aget (RegionMPs G) (fst (RegionIndices S)) = Ok MP ->
  wf_surface S = true ->
  rows_ok (NumEdges S) ByEdge = true ->
  KNVector <> None \/ RytovMatrix <> None ->
  exists out,
    GetOPFT G SurfaceIndex Omega KNVector RHS RytovMatrix ByEdge = Ok out
    /\ Events out = []
    /\ ByEdge_layout (ByEdgeOut out) = ByEdge_layout ByEdge
    /\ forall q row, 0 <= q < 7 ->
         ByEdgeRow (ByEdgeOut out) q = Some row ->
         edge_total (NumEdges S) row = nth (OPFT_slot q) (PFT out) 0%Qc.
Proof.
  intros HS HOff HMP Hwf Hrows Hcur.
  destruct (GetOPFT_total G SurfaceIndex Omega KNVector RHS RytovMatrix
              ByEdge S Offset MP HS HOff HMP Hwf Hrows Hcur) as [out Hout].
  exists out. split; [exact Hout |].
  destruct (GetOPFT_valid _ _ _ _ _ _ _ _ _ HS Hout)
    as (Offset' & ZZ & k2 & B0 & sums & _ & HZero & Hloop & Hev & _).
  split; [exact Hev |]. split.
  - rewrite <- (ZeroByEdge_layout _ _ _ HZero).
    change (ByEdgeOut out) with (snd (sums, ByEdgeOut out)).
    change B0 with (snd (zero_sums, B0)).
    revert Hloop.
    apply (for_loop_invariant
             (fun st => ByEdge_layout (snd st)
                        = ByEdge_layout (snd (zero_sums, B0))));
      [| reflexivity].
    intros nea st st' _ IH Hstep. rewrite <- IH.
    eapply OPFT_OuterBody_layout; eauto.
  - eapply GetOPFT_reduction_consistency; eauto.
Qed.


(** X8.  The excitation vector [RHS] reaches nothing but [PFT[1]]: a call
    of [GetOPFT] that returns would also return without [RHS], with the
    same per-edge arrays, the same events and the same [PFT] except for
    entry 1, which is then zero. *)
Theorem GetOPFT_RHS_only_scattered_power (G : RWGGeometry)
    (SurfaceIndex : Z) (Omega : cdouble) (KNVector RHS : option HVector)
    (RytovMatrix : option HMatrix) (ByEdge : ByEdgeArrays)
    (out : PFTOutput) :
  GetOPFT G SurfaceIndex Omega KNVector RHS RytovMatrix ByEdge = Ok out ->
  exists out0,
    GetOPFT G SurfaceIndex Omega KNVector None RytovMatrix ByEdge = Ok out0
    /\ ByEdgeOut out0 = ByEdgeOut out
    /\ Events out0 = Events out
    /\ nth 1 (PFT out0) 0%Qc = 0%Qc
    /\ forall n, n <> 1%nat -> nth n (PFT out0) 0%Qc = nth n (PFT out) 0%Qc.
Proof.
  unfold GetOPFT.
  destruct ((SurfaceIndex <? 0) || (SurfaceIndex >=? NumSurfaces G)).
  - intro H. apply Ok_inj in H. subst out. eexists.
    split; [reflexivity |]. repeat split; reflexivity.
  - intro H.
    apply bind_Ok in H as [S [-> H]]. cbn [bind].
    apply bind_Ok in H as [Offset [-> H]]. cbn [bind]. cbv zeta in H |- *.
    apply bind_Ok in H as [MP [-> H]]. cbn [bind].
    destruct (MP Omega) as [Eps Mu].
    apply bind_Ok in H as [B0 [-> H]]. cbn [bind].
    apply bind_Ok in H as [[sums B1] [-> H]]. cbn [bind].
    apply Ok_inj in H. subst out. eexists. split; [reflexivity |].
    cbn [ByEdgeOut Events PFT].
    split; [reflexivity |]. split; [reflexivity |].
    destruct KNVector as [KNV |], RHS as [RHSV |]; cbn [store nth];
      (split; [reflexivity |]);
      intros [| [| n]] Hn; try reflexivity; congruence.
Qed.

(** X9.  On a PEC surface the scattered power that [GetOPFT] reports is
    the whole extinction: with a current vector and an excitation vector,
    [PFT[1]] is the sum over the basis functions of
    [0.5*Re(conj(k_ne) * (-ZVAC*RHS_ne))], nothing being absorbed. *)
Theorem GetOPFT_PEC_scattered_is_extinction (G : RWGGeometry)
    (SurfaceIndex : Z) (Omega : cdouble) (KNV RHSV : HVector)
    (RytovMatrix : option HMatrix) (ByEdge : ByEdgeArrays)
    (S : RWGSurface) (Offset : Z) (MP : MatProp) :
  aget (Surfaces G) SurfaceIndex = Ok S ->
  aget (BFIndexOffset G) SurfaceIndex = Ok Offset ->
  aget (RegionMPs G) (fst (RegionIndices S)) = Ok MP ->
  wf_surface S = true ->
  rows_ok (NumEdges S) ByEdge = true ->
  IsPEC S = true ->
  exists out,
    GetOPFT G SurfaceIndex Omega (Some KNV) (Some RHSV) RytovMatrix ByEdge
    = Ok out
    /\ nth 1 (PFT out) 0%Qc
       = fold_right Qcplus 0%Qc
           (map (fun ne : Z =>
                   (lit 1 2
                    * real (C.conj (KNV (Offset + ne)%Z)
                            * ((- ZVAC)%Qc *: RHSV (Offset + ne)%Z))%C)%Qc)
                (range (NumEdges S))).
Proof.
  intros HS HOff HMP Hwf Hrows HPEC.
  destruct (GetOPFT_total G SurfaceIndex Omega (Some KNV) (Some RHSV)
              RytovMatrix ByEdge S Offset MP HS HOff HMP Hwf Hrows)
    as [out Hout]; [left; discriminate |].
  exists out. split; [exact Hout |].
  destruct (GetOPFT_valid _ _ _ _ _ _ _ _ _ HS Hout)
    as (Offset' & ZZ & k2 & B0 & sums & HOff' & _ & Hloop & _ & ->).
  assert (Offset' = Offset) by congruence. subst Offset'.
  assert (HP : PAbs (fst (sums, ByEdgeOut out)) = 0%Qc).
  { revert Hloop.
    apply (for_loop_invariant (fun st => PAbs (fst st) = 0%Qc));
      [| reflexivity].
    intros nea st st' _ IH Hstep.
    eapply OPFT_OuterBody_PEC_power; eauto. }
  cbn [fst] in HP. cbn [nth]. rewrite HP, OPFT_Extinction_sum.
  unfold ExtinctionSum.
  replace (map (ExtinctionTerm S Offset KNV RHSV) (range (NumEdges S)))
    with (map (fun ne : Z =>
                 (lit 1 2
                  * real (C.conj (KNV (Offset + ne)%Z)
                          * ((- ZVAC)%Qc *: RHSV (Offset + ne)%Z))%C)%Qc)
              (range (NumEdges S))).
  - ring.
  - apply map_ext. intro ne. unfold ExtinctionTerm. now rewrite HPEC.
Qed.

End ReductionTheorems.
(** * Reduction consistency on the calls that pass the entry checks *)

Section ReductionConsistency.
Context {X : Collaborators}.

Lemma GetOPFT_layout (G : RWGGeometry) (SurfaceIndex : Z) (Omega : cdouble)
    (KNVector RHS : option HVector) (RytovMatrix : option HMatrix)
    (ByEdge : ByEdgeArrays) (S : RWGSurface) (out : PFTOutput) :
  aget (Surfaces G) SurfaceIndex = Ok S ->
  GetOPFT G SurfaceIndex Omega KNVector RHS RytovMatrix ByEdge = Ok out ->
  ByEdge_layout (ByEdgeOut out) = ByEdge_layout ByEdge.
Proof.
  intros HS Hout.
  destruct (GetOPFT_valid _ _ _ _ _ _ _ _ _ HS Hout)
    as (Offset & ZZ & k2 & B0 & sums & _ & HZero & Hloop & _).
  rewrite <- (ZeroByEdge_layout _ _ _ HZero).
  change (ByEdgeOut out) with (snd (sums, ByEdgeOut out)).
  change B0 with (snd (zero_sums, B0)).
  revert Hloop.
  apply (for_loop_invariant
           (fun st => ByEdge_layout (snd st)
                      = ByEdge_layout (snd (zero_sums, B0))));
    [| reflexivity].
  intros nea st st' _ IH Hstep. rewrite <- IH.
  eapply OPFT_OuterBody_layout; eauto.
Qed.

Lemma GetEPPFTTrace_layout (G : RWGGeometry) (SurfaceIndex : Z)
    (Omega : cdouble) (KNVector : option HVector)
    (SigmaMatrix : option HMatrix) (ByEdge : ByEdgeArrays) (Exterior : bool)
    (S : RWGSurface) (out : PFTOutput) :
  aget (Surfaces G) SurfaceIndex = Ok S ->
  IsPEC S = false ->
  snd (RegionIndices S) <> -1 ->
  GetEPPFTTrace G SurfaceIndex Omega KNVector SigmaMatrix ByEdge Exterior
  = Ok out ->
  ByEdge_layout (ByEdgeOut out) = ByEdge_layout ByEdge.
Proof.
  intros HS HPEC HIn Hout.
  destruct (GetEPPFTTrace_valid _ _ _ _ _ _ _ _ _ HS HPEC HIn Hout)
    as (Offset & k & Sign & pf & B0 & sums & HZero & Hloop & _).
  rewrite <- (ZeroByEdge_layout _ _ _ HZero).
  change (ByEdgeOut out) with (snd (sums, ByEdgeOut out)).
  change B0 with (snd (zero_sums, B0)).
  revert Hloop.
  apply (for_loop_invariant
           (fun st => ByEdge_layout (snd st)
                      = ByEdge_layout (snd (zero_sums, B0))));
    [| reflexivity].
  intros neab st st' _ IH Hstep. rewrite <- IH.
  eapply EPPFT_PairBody_layout; eauto.
Qed.

(** C2, on the calls that pass the entry checks.  For [GetOPFT] with a
    valid surface index, and for [GetEPPFTTrace] with a valid surface
    index on a surface that is not PEC and has an interior region: when
    the call returns, every per-edge array [ByEdge[q]] that was supplied
    is still there and the sum over the edges of [ByEdge[q][ne]] is the
    entry of the returned [PFT] for its quantity ([PFT[0]] for row 0 and
    [PFT[q+1]] for the rows [q >= 1] in [GetOPFT]; [PFT[q]] in
    [GetEPPFTTrace]).  On a well-formed geometry both calls return (for
    [GetEPPFTTrace], on a surface whose pair count [NE*NE] fits in an
    [int]). *)
Theorem reduction_consistency_on_accepted_calls (G : RWGGeometry)
    (SurfaceIndex : Z) (Omega : cdouble) (KNVector RHS : option HVector)
    (Matrix : option HMatrix) (ByEdge : ByEdgeArrays) (Exterior : bool)
    (S : RWGSurface) :
  aget (Surfaces G) SurfaceIndex = Ok S ->
  (forall out,
      GetOPFT G SurfaceIndex Omega KNVector RHS Matrix ByEdge = Ok out ->
      forall q supplied, 0 <= q < 7 ->
        ByEdgeRow ByEdge q = Some supplied ->
        exists row,
          ByEdgeRow (ByEdgeOut out) q = Some row
          /\ edge_total (NumEdges S) row
             = nth (OPFT_slot q) (PFT out) 0%Qc)
  /\ (IsPEC S = false ->
      snd (RegionIndices S) <> -1 ->
      forall out,
        GetEPPFTTrace G SurfaceIndex Omega KNVector Matrix ByEdge Exterior
        = Ok out ->
        forall q supplied, 0 <= q < 7 ->
          ByEdgeRow ByEdge q = Some supplied ->
          exists row,
            ByEdgeRow (ByEdgeOut out) q = Some row
            /\ edge_total (NumEdges S) row
               = nth (EPPFT_slot q) (PFT out) 0%Qc)
  /\ (forall Offset MP,
        aget (BFIndexOffset G) SurfaceIndex = Ok Offset ->
        aget (RegionMPs G) (fst (RegionIndices S)) = Ok MP ->
        wf_surface S = true ->
        rows_ok (NumEdges S) ByEdge = true ->
        KNVector <> None \/ Matrix <> None ->
        exists out,
          GetOPFT G SurfaceIndex Omega KNVector RHS Matrix ByEdge = Ok out)
  /\ (forall Offset MPOut MPIn,
        aget (BFIndexOffset G) SurfaceIndex = Ok Offset ->
        IsPEC S = false ->
        snd (RegionIndices S) <> -1 ->
        aget (RegionMPs G) (fst (RegionIndices S)) = Ok MPOut ->
        aget (RegionMPs G) (snd (RegionIndices S)) = Ok MPIn ->
        wf_surface S = true ->
        forallb (edge_vertices_ok S) (Edges S) = true ->
        pair_count_fits S = true ->
        tcr_ok 9 = true ->
        rows_ok (NumEdges S) ByEdge = true ->
        KNVector <> None \/ Matrix <> None ->
        exists out,
          GetEPPFTTrace G SurfaceIndex Omega KNVector Matrix ByEdge Exterior
          = Ok out).
Proof.
  intro HS. split; [| split; [| split]].
  - intros out Hout q supplied Hq Hrow.
    destruct (ByEdge_layout_row ByEdge (ByEdgeOut out) q supplied
                (GetOPFT_layout _ _ _ _ _ _ _ _ _ HS Hout) Hrow)
      as (row & Hrow' & _).
    exists row. split; [exact Hrow' |].
    eapply GetOPFT_reduction_consistency; eauto.
  - intros HPEC HIn out Hout q supplied Hq Hrow.
    destruct (ByEdge_layout_row ByEdge (ByEdgeOut out) q supplied
                (GetEPPFTTrace_layout _ _ _ _ _ _ _ _ _ HS HPEC HIn Hout)
                Hrow)
      as (row & Hrow' & _).
    exists row. split; [exact Hrow' |].
    eapply GetEPPFTTrace_reduction_consistency; eauto.
  - intros Offset MP HOff HMP Hwf Hrows Hcur.
    eapply GetOPFT_total; eauto.
  - intros Offset MPOut MPIn HOff HPEC HIn HOut HInn Hwf Hverts _ Htcr
           Hrows Hcur.
    eapply GetEPPFTTrace_total; eauto.
Qed.

End ReductionConsistency.
(** * Vanishing currents and surfaces without basis functions *)

Lemma add_zero_sums (d : PFTSums) :
  d = zero_sums -> add_sums zero_sums d = zero_sums.
Proof. intros ->. unfold add_sums, zero_sums. cbn. f_equal; ring. Qed.

Lemma for_loop_zero {St} (n : Z) (body : Z -> St -> result St) (s : St) :
  n <= 0 -> for_loop n body s = Ok s.
Proof.
  intro Hn. unfold for_loop, range.
  now replace (Z.to_nat n) with 0%nat by lia.
Qed.

Section QuietCurrents.
Context {X : Collaborators}.

Lemma OPFT_CurrentProducts_quiet (S : RWGSurface) (Offset : Z)
    (KNVector : option HVector) (RytovMatrix : option HMatrix) (nea neb : Z)
    (cp : CurrentProducts) :
  quiet_currents KNVector RytovMatrix ->
  OPFT_CurrentProducts S Offset KNVector RytovMatrix nea neb = Ok cp ->
  cp = mkCP C.zero C.zero C.zero C.zero.
Proof.
  unfold quiet_currents, OPFT_CurrentProducts.
  destruct KNVector as [KNV |].
  - intros HK H. destruct (IsPEC S); apply Ok_inj in H; subst cp;
      rewrite !HK; f_equal; c_ring.
  - destruct RytovMatrix as [M |]; [| intros []].
    intros HM H. cbn in H. apply Ok_inj in H. subst cp. now rewrite !HM.
Qed.


Lemma OPFT_PairContribution_quiet (ZZ k2 Omega : cdouble)
    (Overlaps : list double) :
  OPFT_PairContribution (mkCP C.zero C.zero C.zero C.zero) ZZ k2 Omega
                        Overlaps
  = zero_sums.
Proof.
  unfold OPFT_PairContribution, OPFT_component, zero_sums. cbv zeta.
  cbn [KK KN NK NN].
  unfold C.div, C.norm2. c_unfold. unfold Qcdiv.
  f_equal; ring.
Qed.



Lemma OPFT_Extinction_quiet (S : RWGSurface) (Offset : Z) (KNV RHSV : HVector) :
  (forall n, KNV n = C.zero) ->
  OPFT_Extinction S Offset KNV RHSV = 0%Qc.
Proof.
  intro HK. rewrite OPFT_Extinction_sum. unfold ExtinctionSum.
  induction (range (NumEdges S)) as [| ne l IH]; [reflexivity |].
  cbn [map fold_right]. rewrite IH. unfold ExtinctionTerm.
  destruct (IsPEC S); rewrite !HK; c_unfold; ring.
Qed.

(** X10.  No current, no power, force or torque: when the current vector
    (or, without a vector, the matrix) is identically zero, [GetOPFT]
    returns eight zeros on a well-formed call, with or without an
    excitation vector.  The frequency and the exterior medium are taken
    away from the values at which the force formula divides by zero. *)
Theorem GetOPFT_zero_currents (G : RWGGeometry) (SurfaceIndex : Z)
    (Omega : cdouble) (KNVector RHS : option HVector)
    (RytovMatrix : option HMatrix) (ByEdge : ByEdgeArrays)
    (S : RWGSurface) (Offset : Z) (MP : MatProp) :
  aget (Surfaces G) SurfaceIndex = Ok S ->
  aget (BFIndexOffset G) SurfaceIndex = Ok Offset ->
  aget (RegionMPs G) (fst (RegionIndices S)) = Ok MP ->
  wf_surface S = true ->
  rows_ok (NumEdges S) ByEdge = true ->
  nondegenerate Omega [MP] ->
  quiet_currents KNVector RytovMatrix ->
  exists out,
    GetOPFT G SurfaceIndex Omega KNVector RHS RytovMatrix ByEdge = Ok out
    /\ PFT out = repeat 0%Qc 8.
Proof.
  intros HS HOff HMP Hwf Hrows _ Hquiet.
  destruct (GetOPFT_total G SurfaceIndex Omega KNVector RHS RytovMatrix
              ByEdge S Offset MP HS HOff HMP Hwf Hrows) as [out Hout].
  { unfold quiet_currents in Hquiet.
    destruct KNVector; [left; discriminate |].
    destruct RytovMatrix; [right; discriminate | destruct Hquiet]. }
  exists out. split; [exact Hout |].
  destruct (GetOPFT_valid _ _ _ _ _ _ _ _ _ HS Hout)
    as (Offset' & ZZ & k2 & B0 & sums & HOff' & _ & Hloop & _ & ->).
  assert (Hz : fst (sums, ByEdgeOut out) = zero_sums).
  { revert Hloop.
    apply (for_loop_invariant (fun st => fst st = zero_sums));
      [| reflexivity].
    intros nea st st' _ IH Hstep. unfold OPFT_OuterBody in Hstep.
    apply bind_Ok in Hstep as [[nebCount nebArray] [_ Hstep]].
    revert Hstep.
    apply (for_loop_invariant (fun st => fst st = zero_sums)); [| exact IH].
    intros nneb [s1 B1] [s2 B2] _ IH1 Hin. cbn [fst] in IH1. subst s1.
    unfold OPFT_InnerBody in Hin.
    apply bind_Ok in Hin as [neb [_ Hin]].
    apply bind_Ok in Hin as [O [_ Hin]].
    apply bind_Ok in Hin as [cp [Hcp Hin]].
    apply bind_Ok in Hin as [B' [_ Hin]].
    apply Ok_inj in Hin. injection Hin as <- _. cbn [fst].
    apply add_zero_sums.
    rewrite (OPFT_CurrentProducts_quiet _ _ _ _ _ _ _ Hquiet Hcp).
    apply OPFT_PairContribution_quiet. }
  cbn [fst] in Hz. subst sums. unfold zero_sums.
  cbn [PAbs Fx Fy Fz Taux Tauy Tauz].
  destruct KNVector as [KNV |]; [| reflexivity].
  destruct RHS as [RHSV |]; [| reflexivity].
  rewrite OPFT_Extinction_quiet by exact Hquiet.
  cbn [repeat]. repeat f_equal; try ring.
Qed.


End QuietCurrents.
(** * Power, force and torque are quadratic in the currents *)

Lemma aget_layout (rows rows' : list (option (list double))) (q : Z)
    (r : option (list double)) :
  rows_layout rows' = rows_layout rows ->
  aget rows q = Ok r ->
  exists r', aget rows' q = Ok r'
             /\ option_map (@List.length double) r'
                = option_map (@List.length double) r.
Proof.
  intros Hlay Hget.
  pose proof (aget_Ok_range _ _ _ Hget) as Hq.
  apply aget_Ok_nth_error in Hget.
  assert (Hn : nth_error (rows_layout rows') (Z.to_nat q)
               = Some (option_map (@List.length double) r)).
  { rewrite Hlay. unfold rows_layout. now rewrite nth_error_map, Hget. }
  unfold rows_layout in Hn. rewrite nth_error_map in Hn.
  destruct (nth_error rows' (Z.to_nat q)) as [r' |] eqn:Hget';
    [| discriminate].
  cbn [option_map] in Hn. injection Hn as Hn.
  exists r'. split; [| exact Hn].
  unfold aget. destruct (q <? 0) eqn:Hneg; [apply Z.ltb_lt in Hneg; lia |].
  now rewrite Hget'.
Qed.

(** Whether an update of the per-edge arrays stays within bounds depends
    on their layout only. *)
Lemma ByEdgeAdd_same_layout (q nea : Z) (d d' : double)
    (rows rows' rows1 : list (option (list double))) :
  rows_layout rows' = rows_layout rows ->
  ByEdgeAdd q nea d rows = Ok rows1 ->
  exists rows1', ByEdgeAdd q nea d' rows' = Ok rows1'
                 /\ rows_layout rows1' = rows_layout rows1.
Proof.
  intros Hlay H.
  assert (Hlay1 := ByEdgeAdd_layout _ _ _ _ _ H).
  assert (Hex : exists rows1', ByEdgeAdd q nea d' rows' = Ok rows1').
  { unfold ByEdgeAdd in *.
    apply bind_Ok in H as [r [Hget H]].
    destruct (aget_layout _ _ _ _ Hlay Hget) as (r' & Hget' & Hlen).
    rewrite Hget'. cbn [bind].
    destruct r as [row |], r' as [row' |]; try discriminate; [| eauto].
    cbn [option_map] in Hlen. injection Hlen as Hlen.
    apply bind_Ok in H as [x [Hx H]].
    apply bind_Ok in H as [row1 [Hrow1 H]].
    destruct (aget_in_range row' nea) as [x' Hx'];
      [apply aget_Ok_range in Hx; lia |].
    rewrite Hx'. cbn [bind].
    destruct (aset_in_range row' (Z.to_nat nea) (x' + d')%Qc) as [row1' Hr'];
      [apply aget_Ok_range in Hx; lia |].
    rewrite Hr'. cbn [bind].
    apply aset_in_range. apply aset_Ok in H as [H _].
    assert (List.length rows' = List.length rows).
    { apply (f_equal (@List.length _)) in Hlay. unfold rows_layout in Hlay.
      now rewrite !length_map in Hlay. }
    lia. }
  destruct Hex as [rows1' H'].
  exists rows1'. split; [exact H' |].
  rewrite (ByEdgeAdd_layout _ _ _ _ _ H'). congruence.
Qed.

Lemma AccumulateByEdge_same_layout (nea : Z) (d d' : PFTSums)
    (B B' B1 : ByEdgeArrays) :
  ByEdge_layout B' = ByEdge_layout B ->
  AccumulateByEdge nea d B = Ok B1 ->
  exists B1', AccumulateByEdge nea d' B' = Ok B1'
              /\ ByEdge_layout B1' = ByEdge_layout B1.
Proof.
  unfold AccumulateByEdge, ByEdge_layout.
  destruct B as [rows |], B' as [rows' |]; try discriminate.
  - cbn [option_map]. intros Hlay H. injection Hlay as Hlay.
    apply bind_Ok in H as [r0 [H0 H]].
    destruct (ByEdgeAdd_same_layout _ _ _ (PAbs d') _ _ _ Hlay H0)
      as (r0' & -> & L0). cbn [bind].
    apply bind_Ok in H as [r1 [H1 H]].
    destruct (ByEdgeAdd_same_layout _ _ _ (Fx d') _ _ _ L0 H1)
      as (r1' & -> & L1). cbn [bind].
    apply bind_Ok in H as [r2 [H2 H]].
    destruct (ByEdgeAdd_same_layout _ _ _ (Fy d') _ _ _ L1 H2)
      as (r2' & -> & L2). cbn [bind].
    apply bind_Ok in H as [r3 [H3 H]].
    destruct (ByEdgeAdd_same_layout _ _ _ (Fz d') _ _ _ L2 H3)
      as (r3' & -> & L3). cbn [bind].
    apply bind_Ok in H as [r4 [H4 H]].
    destruct (ByEdgeAdd_same_layout _ _ _ (Taux d') _ _ _ L3 H4)
      as (r4' & -> & L4). cbn [bind].
    apply bind_Ok in H as [r5 [H5 H]].
    destruct (ByEdgeAdd_same_layout _ _ _ (Tauy d') _ _ _ L4 H5)
      as (r5' & -> & L5). cbn [bind].
    apply bind_Ok in H as [r6 [H6 H]].
    destruct (ByEdgeAdd_same_layout _ _ _ (Tauz d') _ _ _ L5 H6)
      as (r6' & -> & L6). cbn [bind].
    apply Ok_inj in H. subst B1. eexists. split; [reflexivity |].
    cbn [option_map]. now rewrite L6.
  - intros _ H. apply Ok_inj in H. subst B1. eexists.
    split; reflexivity.
Qed.

Lemma scale_sums_add (s : double) (a b : PFTSums) :
  add_sums (scale_sums s a) (scale_sums s b) = scale_sums s (add_sums a b).
Proof. unfold add_sums, scale_sums. cbn. f_equal; ring. Qed.

Lemma scale_sums_zero (s : double) : scale_sums s zero_sums = zero_sums.
Proof. unfold scale_sums, zero_sums. cbn. f_equal; ring. Qed.

Section Quadratic.
Context {X : Collaborators}.

Lemma OPFT_CurrentProducts_scale (S : RWGSurface) (Offset : Z) (c : double)
    (KNV : HVector) (RytovMatrix : option HMatrix) (nea neb : Z)
    (cp : CurrentProducts) :
  OPFT_CurrentProducts S Offset (Some KNV) RytovMatrix nea neb = Ok cp ->
  OPFT_CurrentProducts S Offset (Some (scale_currents c KNV)) RytovMatrix
                       nea neb
  = Ok (scale_products (c * c)%Qc cp).
Proof.
  unfold OPFT_CurrentProducts, scale_currents, scale_products.
  destruct (IsPEC S); intro H; apply Ok_inj in H; subst cp;
    cbn [KK KN NK NN]; do 2 f_equal; c_ring.
Qed.

Lemma EPPFT_CurrentProducts_scale (Offset : Z) (c : double)
    (KNV : HVector) (SigmaMatrix : option HMatrix) (nea neb : Z)
    (cp : CurrentProducts) :
  EPPFT_CurrentProducts Offset (Some KNV) SigmaMatrix nea neb = Ok cp ->
  EPPFT_CurrentProducts Offset (Some (scale_currents c KNV)) SigmaMatrix
                        nea neb
  = Ok (scale_products (c * c)%Qc cp).
Proof.
  unfold EPPFT_CurrentProducts, scale_currents, scale_products.
  intro H; apply Ok_inj in H; subst cp;
    cbn [KK KN NK NN]; do 2 f_equal; c_ring.
Qed.

Lemma OPFT_CurrentProducts_scale_matrix (S : RWGSurface) (Offset : Z)
    (s : double) (M : HMatrix) (nea neb : Z) (cp : CurrentProducts) :
  OPFT_CurrentProducts S Offset None (Some M) nea neb = Ok cp ->
  OPFT_CurrentProducts S Offset None (Some (scale_matrix s M)) nea neb
  = Ok (scale_products s cp).
Proof.
  unfold OPFT_CurrentProducts, scale_matrix, scale_products. cbn [deref bind].
  intro H. apply Ok_inj in H. now subst cp.
Qed.

Lemma EPPFT_CurrentProducts_scale_matrix (Offset : Z)
    (s : double) (M : HMatrix) (nea neb : Z) (cp : CurrentProducts) :
  EPPFT_CurrentProducts Offset None (Some M) nea neb = Ok cp ->
  EPPFT_CurrentProducts Offset None (Some (scale_matrix s M)) nea neb
  = Ok (scale_products s cp).
Proof.
  unfold EPPFT_CurrentProducts, scale_matrix, scale_products.
  cbn [deref bind].
  intro H. apply Ok_inj in H. now subst cp.
Qed.

Lemma OPFT_PairContribution_scale (s : double) (cp : CurrentProducts)
    (ZZ k2 Omega : cdouble) (Overlaps : list double) :
  OPFT_PairContribution (scale_products s cp) ZZ k2 Omega Overlaps
  = scale_sums s (OPFT_PairContribution cp ZZ k2 Omega Overlaps).
Proof.
  unfold OPFT_PairContribution, OPFT_component, scale_sums, scale_products.
  cbv zeta. cbn [KK KN NK NN PAbs Fx Fy Fz Taux Tauy Tauz].
  unfold C.div, C.norm2. c_unfold. unfold Qcdiv.
  f_equal; ring.
Qed.

Lemma EPPFT_PairContribution_scale (s Sign : double) (pf : Prefactors)
    (cp : CurrentProducts) (me : MatrixElements) :
  EPPFT_PairContribution Sign pf (scale_products s cp) me
  = scale_sums s (EPPFT_PairContribution Sign pf cp me).
Proof.
  unfold EPPFT_PairContribution, scale_sums, scale_products.
  cbv zeta. cbn [KK KN NK NN PAbs Fx Fy Fz Taux Tauy Tauz].
  c_unfold. f_equal; ring.
Qed.

Lemma EPPFT_InteriorCorrection_scale (s : double) (pf : Prefactors)
    (cp : CurrentProducts) (Overlaps : list double) (d : PFTSums) :
  EPPFT_InteriorCorrection pf (scale_products s cp) Overlaps
                           (scale_sums s d)
  = scale_sums s (EPPFT_InteriorCorrection pf cp Overlaps d).
Proof.
  unfold EPPFT_InteriorCorrection, scale_sums, scale_products.
  cbv zeta. cbn [KK KN NK NN PAbs Fx Fy Fz Taux Tauy Tauz].
  c_unfold. f_equal; ring.
Qed.

End Quadratic.
Section ScalingTheorems.
Context {X : Collaborators}.

Lemma OPFT_OuterBody_scale (s : double) (S : RWGSurface) (Offset : Z)
    (Omega ZZ k2 : cdouble) (K K' : option HVector) (M M' : option HMatrix)
    (nea : Z) (st st' st1 : PFTSums * ByEdgeArrays) :
  products_scale s S Offset K K' M M' ->
  scaled_state s st st' ->
  OPFT_OuterBody S Offset Omega ZZ k2 K M nea st = Ok st1 ->
  exists st1',
    OPFT_OuterBody S Offset Omega ZZ k2 K' M' nea st' = Ok st1'
    /\ scaled_state s st1 st1'.
Proof.
  intros Hprod HR H. unfold OPFT_OuterBody in *.
  apply bind_Ok in H as [[nebCount nebArray] [-> H]]. cbn [bind].
  unfold for_loop in *.
  eapply for_each_related with (R := scaled_state s); [| exact HR | exact H].
  clear - Hprod. intros nneb [t B] [t' B'] [t1 B1] _ [Hs HB] Hbody.
  cbn [fst snd] in Hs, HB. subst t'.
  unfold OPFT_InnerBody in *.
  apply bind_Ok in Hbody as [neb [-> Hbody]]. cbn [bind].
  apply bind_Ok in Hbody as [O [-> Hbody]]. cbn [bind].
  apply bind_Ok in Hbody as [cp [Hcp Hbody]].
  rewrite (Hprod _ _ _ Hcp). cbn [bind].
  apply bind_Ok in Hbody as [B2 [Hacc Hbody]].
  apply Ok_inj in Hbody. injection Hbody as <- <-.
  destruct (AccumulateByEdge_same_layout nea _
              (OPFT_PairContribution (scale_products s cp) ZZ k2 Omega O)
              _ _ _ HB Hacc)
    as (B2' & -> & HB2). cbn [bind].
  eexists. split; [reflexivity |]. split; cbn [fst snd]; [| exact HB2].
  now rewrite OPFT_PairContribution_scale, scale_sums_add.
Qed.

(** [GetOPFT] with all current products scaled by [s]. *)
Lemma GetOPFT_scale (s : double) (G : RWGGeometry) (SurfaceIndex : Z)
    (Omega : cdouble) (K K' RHS : option HVector) (M M' : option HMatrix)
    (ByEdge : ByEdgeArrays) (out : PFTOutput) :
  (forall S Offset, products_scale s S Offset K K' M M') ->
  GetOPFT G SurfaceIndex Omega K RHS M ByEdge = Ok out ->
  exists out',
    GetOPFT G SurfaceIndex Omega K' RHS M' ByEdge = Ok out'
    /\ Events out' = Events out
    /\ ByEdge_layout (ByEdgeOut out') = ByEdge_layout (ByEdgeOut out)
    /\ (forall n, n <> 1%nat ->
          nth n (PFT out') 0%Qc = (s * nth n (PFT out) 0%Qc)%Qc)
    /\ (K = None -> K' = None ->
        nth 1 (PFT out') 0%Qc = (s * nth 1 (PFT out) 0%Qc)%Qc).
Proof.
  intro Hprod. unfold GetOPFT.
  destruct ((SurfaceIndex <? 0) || (SurfaceIndex >=? NumSurfaces G)).
  - intro H. apply Ok_inj in H. subst out. eexists.
    split; [reflexivity |]. cbn [Events ByEdgeOut PFT].
    split; [reflexivity |]. split; [reflexivity |].
    split; [intros n _ | intros _ _];
      try do 9 (destruct n as [| n]; cbn [repeat nth]; try ring);
      cbn [repeat nth]; ring.
  - intro H.
    apply bind_Ok in H as [S [-> H]]. cbn [bind].
    apply bind_Ok in H as [Offset [-> H]]. cbn [bind]. cbv zeta in H |- *.
    apply bind_Ok in H as [MP [-> H]]. cbn [bind].
    destruct (MP Omega) as [Eps Mu].
    apply bind_Ok in H as [B0 [-> H]]. cbn [bind].
    apply bind_Ok in H as [[sums B1] [Hloop H]].
    apply Ok_inj in H. subst out.
    unfold for_loop in *.
    eapply for_each_related with (R := scaled_state s) in Hloop
      as [[sums' B1'] [-> [Hs HB]]].
    + cbn [bind fst snd] in *. subst sums'. eexists.
      split; [reflexivity |]. cbn [Events ByEdgeOut PFT].
      split; [reflexivity |]. split; [exact HB |].
      unfold scale_sums. cbn [PAbs Fx Fy Fz Taux Tauy Tauz].
      split.
      * intros n Hn.
        destruct K as [KNV |], K' as [KNV' |], RHS as [RHSV |];
          cbn [store];
          do 9 (destruct n as [| n]; cbn [nth]; try ring; try congruence).
      * intros -> ->. cbn [nth]. ring.
    + intros nea st st' st1 _ HR Hbody.
      eapply OPFT_OuterBody_scale; eauto.
    + split; cbn [fst snd]; [| reflexivity].
      now rewrite scale_sums_zero.
Qed.

(** X12.  Power, force and torque are quadratic in the surface currents:
    when the current vector is multiplied by a real factor [c], a call of
    [GetOPFT] that returned still returns, with the same events and every
    entry of [PFT] other than the scattered power [PFT[1]] multiplied by
    [c*c]. *)
Theorem GetOPFT_quadratic_in_currents (c : double) (G : RWGGeometry)
    (SurfaceIndex : Z) (Omega : cdouble) (KNV : HVector)
    (RHS : option HVector) (RytovMatrix : option HMatrix)
    (ByEdge : ByEdgeArrays) (out : PFTOutput) :
  GetOPFT G SurfaceIndex Omega (Some KNV) RHS RytovMatrix ByEdge = Ok out ->
  exists out',
    GetOPFT G SurfaceIndex Omega (Some (scale_currents c KNV)) RHS
            RytovMatrix ByEdge = Ok out'
    /\ Events out' = Events out
    /\ ByEdge_layout (ByEdgeOut out') = ByEdge_layout (ByEdgeOut out)
    /\ forall n, n <> 1%nat ->
         nth n (PFT out') 0%Qc = (c * c * nth n (PFT out) 0%Qc)%Qc.
Proof.
  intro H.
  destruct (GetOPFT_scale (c * c)%Qc G SurfaceIndex Omega (Some KNV)
              (Some (scale_currents c KNV)) RHS RytovMatrix RytovMatrix
              ByEdge out) as (out' & H1 & H2 & H3 & H4 & _);
    [| exact H |].
  - intros S Offset nea neb cp. apply OPFT_CurrentProducts_scale.
  - exists out'. repeat split; assumption.
Qed.

(** X13.  Power, force and torque are linear in the correlation matrix:
    when no current vector is supplied and every entry of the matrix is
    multiplied by a real factor [s], a call of [GetOPFT] that returned
    still returns, with the same events and every entry of [PFT]
    multiplied by [s]. *)
Theorem GetOPFT_linear_in_matrix (s : double) (G : RWGGeometry)
    (SurfaceIndex : Z) (Omega : cdouble) (RHS : option HVector)
    (RytovMatrix : HMatrix) (ByEdge : ByEdgeArrays) (out : PFTOutput) :
  GetOPFT G SurfaceIndex Omega None RHS (Some RytovMatrix) ByEdge = Ok out ->
  exists out',
    GetOPFT G SurfaceIndex Omega None RHS
            (Some (scale_matrix s RytovMatrix)) ByEdge = Ok out'
    /\ Events out' = Events out
    /\ ByEdge_layout (ByEdgeOut out') = ByEdge_layout (ByEdgeOut out)
    /\ forall n, nth n (PFT out') 0%Qc = (s * nth n (PFT out) 0%Qc)%Qc.
Proof.
  intro H.
  destruct (GetOPFT_scale s G SurfaceIndex Omega None None RHS
              (Some RytovMatrix) (Some (scale_matrix s RytovMatrix))
              ByEdge out) as (out' & H1 & H2 & H3 & H4 & H5);
    [| exact H |].
  - intros S Offset nea neb cp. apply OPFT_CurrentProducts_scale_matrix.
  - exists out'. repeat split; try assumption.
    intro n. destruct (Nat.eq_dec n 1) as [-> | Hn]; [now apply H5 |].
    now apply H4.
Qed.

(** [GetEPPFTTrace] with all current products scaled by [s]. *)
Lemma GetEPPFTTrace_scale (s : double) (G : RWGGeometry) (SurfaceIndex : Z)
    (Omega : cdouble) (K K' : option HVector) (M M' : option HMatrix)
    (ByEdge : ByEdgeArrays) (Exterior : bool) (out : PFTOutput) :
  (forall Offset nea neb cp,
      EPPFT_CurrentProducts Offset K M nea neb = Ok cp ->
      EPPFT_CurrentProducts Offset K' M' nea neb
      = Ok (scale_products s cp)) ->
  GetEPPFTTrace G SurfaceIndex Omega K M ByEdge Exterior = Ok out ->
  exists out',
    GetEPPFTTrace G SurfaceIndex Omega K' M' ByEdge Exterior = Ok out'
    /\ Events out' = Events out
    /\ ByEdge_layout (ByEdgeOut out') = ByEdge_layout (ByEdgeOut out)
    /\ PFT out' = map (Qcmult s) (PFT out).
Proof.
  intro Hprod. unfold GetEPPFTTrace. intro H.
  apply bind_Ok in H as [S [-> H]]. cbn [bind].
  apply bind_Ok in H as [Offset [-> H]]. cbn [bind]. cbv zeta in H |- *.
  destruct (IsPEC S || (snd (RegionIndices S) =? -1)).
  - apply Ok_inj in H. subst out. eexists. split; [reflexivity |].
    cbn [Events ByEdgeOut PFT]. split; [reflexivity |].
    split; [reflexivity |].
    change (Z.to_nat NUMPFT) with 7%nat. cbn [repeat map].
    repeat f_equal; ring.
  - apply bind_Ok in H as [MPOut [-> H]]. cbn [bind].
    apply bind_Ok in H as [MPIn [-> H]]. cbn [bind].
    destruct (MPOut Omega) as [EpsOut MuOut].
    destruct (MPIn Omega) as [EpsIn MuIn].
    destruct Exterior;
      (apply bind_Ok in H as [B0 [-> H]]; cbn [bind];
       apply bind_Ok in H as [[sums B1] [Hloop H]];
       apply Ok_inj in H; subst out;
       unfold for_loop in *;
       eapply for_each_related with (R := scaled_state s) in Hloop
         as [[sums' B1'] [-> [Hs HB]]];
       [ cbn [bind fst snd] in *; subst sums'; eexists;
         split; [reflexivity |]; cbn [Events ByEdgeOut PFT];
         split; [reflexivity |]; split; [exact HB |];
         unfold scale_sums; cbn [PAbs Fx Fy Fz Taux Tauy Tauz map];
         reflexivity
       | clear - Hprod;
         intros neab [t B] [t' B'] [t1 B2] _ [Hs HB] Hbody;
         cbn [fst snd] in Hs, HB; subst t';
         unfold EPPFT_PairBody in *; cbv zeta in Hbody |- *;
         apply bind_Ok in Hbody as [me [-> Hbody]]; cbn [bind];
         apply bind_Ok in Hbody as [cp [Hcp Hbody]];
         rewrite (Hprod _ _ _ _ Hcp);
         cbn [bind];
         apply bind_Ok in Hbody as [d [Hd Hbody]];
         apply bind_Ok in Hbody as [B3 [Hacc Hbody]];
         apply Ok_inj in Hbody; injection Hbody as <- <-;
         rewrite EPPFT_PairContribution_scale;
         cbn [negb] in Hd |- *;
         try (apply bind_Ok in Hd as [O [-> Hd]]; cbn [bind];
              rewrite EPPFT_InteriorCorrection_scale);
         apply Ok_inj in Hd; subst d; cbn [bind];
         match goal with
         | |- context [AccumulateByEdge ?nea ?d' B'] =>
             destruct (AccumulateByEdge_same_layout nea _ d' _ _ _ HB Hacc)
               as (B3' & -> & HB3)
         end;
         cbn [bind]; eexists; split; [reflexivity |];
         split; cbn [fst snd]; [| exact HB3];
         rewrite <- scale_sums_add; f_equal;
         unfold scale_sums; cbn; f_equal; ring
       | split; cbn [fst snd]; [| reflexivity];
         now rewrite scale_sums_zero ]).
Qed.

(** X14.  [GetEPPFTTrace] is quadratic in the surface currents: with the
    current vector multiplied by a real factor [c], a call that returned
    still returns, with every entry of [PFT] multiplied by [c*c]. *)
Theorem GetEPPFTTrace_quadratic_in_currents (c : double) (G : RWGGeometry)
    (SurfaceIndex : Z) (Omega : cdouble) (KNV : HVector)
    (SigmaMatrix : option HMatrix) (ByEdge : ByEdgeArrays) (Exterior : bool)
    (out : PFTOutput) :
  GetEPPFTTrace G SurfaceIndex Omega (Some KNV) SigmaMatrix ByEdge Exterior
  = Ok out ->
  exists out',
    GetEPPFTTrace G SurfaceIndex Omega (Some (scale_currents c KNV))
                  SigmaMatrix ByEdge Exterior = Ok out'
    /\ Events out' = Events out
    /\ ByEdge_layout (ByEdgeOut out') = ByEdge_layout (ByEdgeOut out)
    /\ PFT out' = map (Qcmult (c * c)) (PFT out).
Proof.
  apply GetEPPFTTrace_scale.
  intros Offset nea neb cp. apply EPPFT_CurrentProducts_scale.
Qed.

(** X15.  [GetEPPFTTrace] is linear in the correlation matrix: when no
    current vector is supplied and every entry of the Sigma matrix is
    multiplied by a real factor [s], a call that returned still returns,
    with every entry of [PFT] multiplied by [s]. *)
Theorem GetEPPFTTrace_linear_in_matrix (s : double) (G : RWGGeometry)
    (SurfaceIndex : Z) (Omega : cdouble) (SigmaMatrix : HMatrix)
    (ByEdge : ByEdgeArrays) (Exterior : bool) (out : PFTOutput) :
  GetEPPFTTrace G SurfaceIndex Omega None (Some SigmaMatrix) ByEdge Exterior
  = Ok out ->
  exists out',
    GetEPPFTTrace G SurfaceIndex Omega None
                  (Some (scale_matrix s SigmaMatrix)) ByEdge Exterior
    = Ok out'
    /\ Events out' = Events out
    /\ ByEdge_layout (ByEdgeOut out') = ByEdge_layout (ByEdgeOut out)
    /\ PFT out' = map (Qcmult s) (PFT out).
Proof.
  apply GetEPPFTTrace_scale.
  intros Offset nea neb cp. apply EPPFT_CurrentProducts_scale_matrix.
Qed.

End ScalingTheorems.
(** * The per-edge arrays do not change the totals *)

Section TotalsWithoutRows.
Context {X : Collaborators}.

Lemma OPFT_OuterBody_no_rows (S : RWGSurface) (Offset : Z)
    (Omega ZZ k2 : cdouble) (KNVector : option HVector)
    (RytovMatrix : option HMatrix) (nea : Z)
    (st st' st1 : PFTSums * ByEdgeArrays) :
  same_totals st st' ->
  OPFT_OuterBody S Offset Omega ZZ k2 KNVector RytovMatrix nea st = Ok st1 ->
  exists st1',
    OPFT_OuterBody S Offset Omega ZZ k2 KNVector RytovMatrix nea st'
    = Ok st1'
    /\ same_totals st1 st1'.
Proof.
  intros HR H. unfold OPFT_OuterBody in *.
  apply bind_Ok in H as [[nebCount nebArray] [-> H]]. cbn [bind].
  unfold for_loop in *.
  eapply for_each_related with (R := same_totals); [| exact HR | exact H].
  clear. intros nneb [t B] [t' B'] [t1 B1] _ [Hs HB] Hbody.
  cbn [fst snd] in Hs, HB. subst t' B'.
  unfold OPFT_InnerBody in *.
  apply bind_Ok in Hbody as [neb [-> Hbody]]. cbn [bind].
  apply bind_Ok in Hbody as [O [-> Hbody]]. cbn [bind].
  apply bind_Ok in Hbody as [cp [-> Hbody]]. cbn [bind].
  apply bind_Ok in Hbody as [B2 [_ Hbody]].
  apply Ok_inj in Hbody. injection Hbody as <- <-.
  cbn [AccumulateByEdge bind]. eexists. split; [reflexivity |].
  split; reflexivity.
Qed.

(** X16.  Asking for the per-edge breakdown does not change the totals:
    a call of [GetOPFT] that returns with per-edge arrays would also
    return without them ([ByEdge] null), with the same [PFT] and the same
    events. *)
Theorem GetOPFT_totals_without_rows (G : RWGGeometry) (SurfaceIndex : Z)
    (Omega : cdouble) (KNVector RHS : option HVector)
    (RytovMatrix : option HMatrix) (ByEdge : ByEdgeArrays)
    (out : PFTOutput) :
  GetOPFT G SurfaceIndex Omega KNVector RHS RytovMatrix ByEdge = Ok out ->
  exists out0,
    GetOPFT G SurfaceIndex Omega KNVector RHS RytovMatrix None = Ok out0
    /\ PFT out0 = PFT out
    /\ Events out0 = Events out
    /\ ByEdgeOut out0 = None.
Proof.
  unfold GetOPFT.
  destruct ((SurfaceIndex <? 0) || (SurfaceIndex >=? NumSurfaces G)).
  - intro H. apply Ok_inj in H. subst out. eexists.
    split; [reflexivity |]. repeat split.
  - intro H.
    apply bind_Ok in H as [S [-> H]]. cbn [bind].
    apply bind_Ok in H as [Offset [-> H]]. cbn [bind]. cbv zeta in H |- *.
    apply bind_Ok in H as [MP [-> H]]. cbn [bind].
    destruct (MP Omega) as [Eps Mu].
    apply bind_Ok in H as [B0 [_ H]]. cbn [ZeroByEdge bind].
    apply bind_Ok in H as [[sums B1] [Hloop H]].
    apply Ok_inj in H. subst out.
    unfold for_loop in *.
    eapply for_each_related with (R := same_totals) in Hloop
      as [[sums' B1'] [-> [Hs HB]]].
    + cbn [bind fst snd] in *. subst sums' B1'. eexists.
      split; [reflexivity |]. repeat split.
    + intros nea st st' st1 _ HR Hbody.
      eapply OPFT_OuterBody_no_rows; eauto.
    + split; reflexivity.
Qed.

(** X17.  The same for [GetEPPFTTrace]: a call that returns with
    per-edge arrays would also return without them, with the same [PFT]
    and the same events. *)
Theorem GetEPPFTTrace_totals_without_rows (G : RWGGeometry)
    (SurfaceIndex : Z) (Omega : cdouble) (KNVector : option HVector)
    (SigmaMatrix : option HMatrix) (ByEdge : ByEdgeArrays) (Exterior : bool)
    (out : PFTOutput) :
  GetEPPFTTrace G SurfaceIndex Omega KNVector SigmaMatrix ByEdge Exterior
  = Ok out ->
  exists out0,
    GetEPPFTTrace G SurfaceIndex Omega KNVector SigmaMatrix None Exterior
    = Ok out0
    /\ PFT out0 = PFT out
    /\ Events out0 = Events out
    /\ ByEdgeOut out0 = None.
Proof.
  unfold GetEPPFTTrace. intro H.
  apply bind_Ok in H as [S [-> H]]. cbn [bind].
  apply bind_Ok in H as [Offset [-> H]]. cbn [bind]. cbv zeta in H |- *.
  destruct (IsPEC S || (snd (RegionIndices S) =? -1)).
  - apply Ok_inj in H. subst out. eexists. split; [reflexivity |].
    repeat split.
  - apply bind_Ok in H as [MPOut [-> H]]. cbn [bind].
    apply bind_Ok in H as [MPIn [-> H]]. cbn [bind].
    destruct (MPOut Omega) as [EpsOut MuOut].
    destruct (MPIn Omega) as [EpsIn MuIn].
    destruct Exterior;
      (apply bind_Ok in H as [B0 [_ H]]; cbn [ZeroByEdge bind];
       apply bind_Ok in H as [[sums B1] [Hloop H]];
       apply Ok_inj in H; subst out;
       unfold for_loop in *;
       eapply for_each_related with (R := same_totals) in Hloop
         as [[sums' B1'] [-> [Hs HB]]];
       [ cbn [bind fst snd] in *; subst sums' B1'; eexists;
         split; [reflexivity |]; repeat split
       | clear; intros neab [t B] [t' B'] [t1 B2] _ [Hs HB] Hbody;
         cbn [fst snd] in Hs, HB; subst t' B';
         unfold EPPFT_PairBody in *; cbv zeta in Hbody |- *;
         apply bind_Ok in Hbody as [me [-> Hbody]]; cbn [bind];
         apply bind_Ok in Hbody as [cp [-> Hbody]]; cbn [bind];
         apply bind_Ok in Hbody as [d [-> Hbody]]; cbn [bind];
         apply bind_Ok in Hbody as [B3 [_ Hbody]];
         apply Ok_inj in Hbody; injection Hbody as <- <-;
         cbn [AccumulateByEdge bind]; eexists; split; [reflexivity |];
         split; reflexivity
       | split; reflexivity ]).
Qed.

End TotalsWithoutRows.
(** * What a call that returns has required *)

Lemma for_each_Ok_each {I St} (body : I -> St -> result St) (idx : list I) :
  forall s s', for_each body idx s = Ok s' ->
  forall i, In i idx -> exists s1 s2, body i s1 = Ok s2.
Proof.
  induction idx as [| j idx IH]; intros s s' Hrun i Hi; [destruct Hi |].
  cbn [for_each] in Hrun. apply bind_Ok in Hrun as [s1 [Hj Hrun]].
  destruct Hi as [<- | Hi]; [eauto | eapply IH; eauto].
Qed.

Lemma for_loop_Ok_each {St} (n : Z) (body : Z -> St -> result St)
    (s s' : St) :
  for_loop n body s = Ok s' ->
  forall i, 0 <= i < n -> exists s1 s2, body i s1 = Ok s2.
Proof.
  intros Hrun i Hi. eapply for_each_Ok_each; [exact Hrun |].
  now apply range_in.
Qed.

Lemma aget_Ok_has_edge (S : RWGSurface) (e : Z) (E : RWGEdge) :
  aget (Edges S) e = Ok E -> has_edge S e = true.
Proof.
  intro H. apply aget_Ok_range in H. unfold has_edge, NumEdges.
  apply andb_true_iff. split; [apply Z.leb_le | apply Z.ltb_lt]; lia.
Qed.

Lemma aget_Ok_has_vertex (S : RWGSurface) (i : Z) (v : Vec3) :
  aget (Vertices S) i = Ok v -> has_vertex S i = true.
Proof.
  intro H. apply aget_Ok_range in H. unfold has_vertex.
  apply andb_true_iff. split; [apply Z.leb_le | apply Z.ltb_lt]; lia.
Qed.

Section Requirements.
Context {X : Collaborators}.

(** X18.  [GetOPFT] does not skip anything that
    [GetOverlappingEdgeIndices] enumerates: a call that returns has found,
    for every edge of the surface, that every enumerated neighbour is the
    index of an edge.  An entry of a panel's [EI] that is not an edge index
    (an exterior edge) therefore makes the pair loop read [Edges] out of
    bounds. *)
Theorem GetOPFT_needs_edge_neighbours (G : RWGGeometry) (SurfaceIndex : Z)
    (Omega : cdouble) (KNVector RHS : option HVector)
    (RytovMatrix : option HMatrix) (ByEdge : ByEdgeArrays)
    (S : RWGSurface) (out : PFTOutput) :
  aget (Surfaces G) SurfaceIndex = Ok S ->
  GetOPFT G SurfaceIndex Omega KNVector RHS RytovMatrix ByEdge = Ok out ->
  forall nea, has_edge S nea = true ->
    exists r,
      GetOverlappingEdgeIndices S nea (repeat 0 5) = Ok r
      /\ forallb (has_edge S) (enumerated r) = true.
Proof.
  intros HS Hout nea Hnea.
  destruct (GetOPFT_valid _ _ _ _ _ _ _ _ _ HS Hout)
    as (Offset & ZZ & k2 & B0 & sums & _ & _ & Hloop & _).
  assert (Hr : 0 <= nea < NumEdges S).
  { unfold has_edge in Hnea. apply andb_true_iff in Hnea as [H0 H1].
    apply Z.leb_le in H0. apply Z.ltb_lt in H1. lia. }
  destruct (for_loop_Ok_each _ _ _ _ Hloop nea Hr) as (s1 & s2 & Hbody).
  unfold OPFT_OuterBody in Hbody.
  apply bind_Ok in Hbody as [[nebCount nebArray] [Hgoei Hinner]].
  exists (nebCount, nebArray). split; [exact Hgoei |].
  apply forallb_forall. intros neb Hneb. unfold enumerated in Hneb.
  cbn [fst snd] in Hneb.
  apply In_nth_error in Hneb as [n Hn].
  rewrite nth_error_firstn in Hn.
  destruct (n <? Z.to_nat nebCount)%nat eqn:Hlt; [| discriminate].
  apply Nat.ltb_lt in Hlt.
  destruct (for_loop_Ok_each _ _ _ _ Hinner (Z.of_nat n)) as (t1 & t2 & Ht);
    [lia |].
  destruct t1 as [sums1 B1]. unfold OPFT_InnerBody in Ht.
  apply bind_Ok in Ht as [neb' [Hget Ht]].
  rewrite aget_nth_error, Hn in Hget. apply Ok_inj in Hget. subst neb'.
  apply bind_Ok in Ht as [O [HO _]].
  unfold GetOverlaps in HO.
  apply bind_Ok in HO as [Ea [_ HO]]. apply bind_Ok in HO as [Eb [HEb _]].
  exact (aget_Ok_has_edge _ _ _ HEb).
Qed.

(** X19.  [GetEPPFTTrace] integrates over both panels of every basis
    function.  On a surface of at most 46340 edges, where the bound
    [NE*NE] of the pair loop fits in an [int] and the loop visits every
    pair, a call on a penetrable body that returns has found the four
    vertices [iQP, iV1, iV2, iQM] of every edge of the surface.  On such a
    surface an edge without a negative panel ([iQM = -1]) therefore makes
    the cubature read [Vertices] out of bounds. *)
Theorem GetEPPFTTrace_needs_full_edges (G : RWGGeometry) (SurfaceIndex : Z)
    (Omega : cdouble) (KNVector : option HVector)
    (SigmaMatrix : option HMatrix) (ByEdge : ByEdgeArrays) (Exterior : bool)
    (S : RWGSurface) (out : PFTOutput) :
  aget (Surfaces G) SurfaceIndex = Ok S ->
  IsPEC S = false ->
  snd (RegionIndices S) <> -1 ->
  pair_count_fits S = true ->
  GetEPPFTTrace G SurfaceIndex Omega KNVector SigmaMatrix ByEdge Exterior
  = Ok out ->
  forallb (edge_vertices_ok S) (Edges S) = true.
Proof.
  intros HS HPEC HIn _ Hout.
  destruct (GetEPPFTTrace_valid _ _ _ _ _ _ _ _ _ HS HPEC HIn Hout)
    as (Offset & k & Sign & pf & B0 & sums & _ & Hloop & _).
  apply forallb_forall. intros E HE.
  apply In_nth_error in HE as [n Hn].
  assert (Hlt : (n < List.length (Edges S))%nat)
    by (apply nth_error_Some; congruence).
  set (NE := NumEdges S) in *.
  assert (HNE : Z.of_nat n < NE) by (unfold NE, NumEdges; lia).
  destruct (for_loop_Ok_each _ _ _ _ Hloop (Z.of_nat n * NE))
    as (s1 & s2 & Hbody); [nia |].
  destruct s1 as [sums1 B1]. unfold EPPFT_PairBody in Hbody.
  cbv zeta in Hbody. fold NE in Hbody.
  rewrite Z.quot_mul in Hbody by lia.
  apply bind_Ok in Hbody as [me [Hme _]].
  unfold GetEPPFTMatrixElements in Hme. rewrite HS in Hme.
  cbn [bind] in Hme.
  apply bind_Ok in Hme as [Ea [HEa Hme]].
  rewrite aget_nth_error, Hn in HEa. apply Ok_inj in HEa. subst Ea.
  apply bind_Ok in Hme as [Eb [_ Hme]]. cbv zeta in Hme.
  apply bind_Ok in Hme as [st [_ Hme]].
  apply bind_Ok in Hme as [cub [Hcub _]].
  unfold GetEPPFTMatrixElements_Cubature in Hcub. rewrite HS in Hcub.
  cbn [bind] in Hcub.
  apply bind_Ok in Hcub as [Ea [HEa Hcub]].
  rewrite aget_nth_error, Hn in HEa. apply Ok_inj in HEa. subst Ea.
  apply bind_Ok in Hcub as [Eb' [_ Hcub]].
  apply bind_Ok in Hcub as [QP [HQP Hcub]].
  apply bind_Ok in Hcub as [V1 [HV1 Hcub]].
  apply bind_Ok in Hcub as [V2 [HV2 Hcub]].
  apply bind_Ok in Hcub as [QM [HQM _]].
  unfold edge_vertices_ok.
  now rewrite (aget_Ok_has_vertex _ _ _ HQP), (aget_Ok_has_vertex _ _ _ HV1),
              (aget_Ok_has_vertex _ _ _ HV2), (aget_Ok_has_vertex _ _ _ HQM).
Qed.

(** X20.  A surface without basis functions: both routines skip their pair
    loops and return zeros, whatever the current state is (even when
    neither a vector nor a matrix is supplied); [GetOPFT] does so without
    a warning. *)
Theorem no_edges_zero_result (G : RWGGeometry) (SurfaceIndex : Z)
    (Omega : cdouble) (KNVector RHS : option HVector)
    (Matrix : option HMatrix) (ByEdge : ByEdgeArrays) (Exterior : bool)
    (S : RWGSurface) (Offset : Z) (MPOut : MatProp) :
  aget (Surfaces G) SurfaceIndex = Ok S ->
  aget (BFIndexOffset G) SurfaceIndex = Ok Offset ->
  aget (RegionMPs G) (fst (RegionIndices S)) = Ok MPOut ->
  Edges S = [] ->
  rows_ok 0 ByEdge = true ->
  (exists out,
      GetOPFT G SurfaceIndex Omega KNVector RHS Matrix ByEdge = Ok out
      /\ PFT out = repeat 0%Qc 8 /\ Events out = [])
  /\ (IsPEC S = false ->
      (exists MPIn, aget (RegionMPs G) (snd (RegionIndices S)) = Ok MPIn) ->
      exists out,
        GetEPPFTTrace G SurfaceIndex Omega KNVector Matrix ByEdge Exterior
        = Ok out
        /\ PFT out = repeat 0%Qc 7).
Proof.
  intros HS HOff HMP HE Hrows.
  assert (HNE : NumEdges S = 0) by (unfold NumEdges; now rewrite HE).
  destruct (ZeroByEdge_total 0 ByEdge Hrows) as (B0 & HZ & _).
  split.
  - unfold GetOPFT.
    assert (Hchk : (SurfaceIndex <? 0) || (SurfaceIndex >=? NumSurfaces G)
                   = false) by (apply surface_check; eauto).
    rewrite Hchk, HS. cbn [bind]. rewrite HOff. cbn [bind]. cbv zeta.
    rewrite HMP. cbn [bind]. destruct (MPOut Omega) as [Eps Mu].
    rewrite HNE, HZ. cbn [bind]. rewrite for_loop_zero by lia. cbn [bind].
    eexists. split; [reflexivity |]. cbn [PFT Events].
    split; [| reflexivity].
    destruct KNVector as [KNV |]; [| reflexivity].
    destruct RHS as [RHSV |]; [| reflexivity].
    unfold OPFT_Extinction. rewrite HNE. reflexivity.
  - intros HPEC [MPIn HMPIn]. unfold GetEPPFTTrace.
    rewrite HS. cbn [bind]. rewrite HOff. cbn [bind]. cbv zeta.
    rewrite HPEC. cbn [orb].
    destruct (snd (RegionIndices S) =? -1) eqn:HIn.
    + eexists. split; reflexivity.
    + rewrite HMP. cbn [bind]. rewrite HMPIn. cbn [bind].
      destruct (MPOut Omega) as [EpsOut MuOut].
      destruct (MPIn Omega) as [EpsIn MuIn].
      destruct Exterior; rewrite HNE, HZ; cbn [bind];
        rewrite for_loop_zero by lia; cbn [bind];
        (eexists; split; reflexivity).
Qed.

End Requirements.
(** * Matrix elements: what the mask and the Taylor-Duffy path leave alone *)

Lemma bind_Ok_r {A} (r : result A) : bind r (fun a => Ok a) = r.
Proof. now destruct r. Qed.

Section MatrixElementTheorems.
Context {X : Collaborators}.

(** One cubature point adds the same amounts to the seven outputs outside
    the mask, whatever the four mask factors are. *)
Lemma CubatureStep_unmasked (PP PM MP MM PP' PM' MP' MM' : double)
    (pg : PointGeometry) (nf : NearbyFields) (me1 me2 : MatrixElements) :
  same_unmasked_outputs me1 me2 ->
  same_unmasked_outputs (CubatureStep PP PM MP MM pg nf me1)
                        (CubatureStep PP' PM' MP' MM' pg nf me2).
Proof.
  intros (H1 & H2 & H3 & H4 & H5 & H6 & H7).
  unfold same_unmasked_outputs, CubatureStep, CubatureAccumulate.
  cbn [fold_left be bh bxh divbrxe divbrxh rxbxe rxbxh].
  rewrite H1, H2, H3, H4, H5, H6, H7. repeat split.
Qed.

(** X21.  The omission mask reaches [divbe], [divbh] and [bxe] only: for
    any two masks the cubature integrator returns the same [be], [bh],
    [bxh], [divbrxe], [divbrxh], [rxbxe] and [rxbxh]. *)
Theorem cubature_mask_leaves_other_outputs (G : RWGGeometry)
    (nsa nsb nea neb : Z) (k : cdouble) (mask1 mask2 : PanelPairMask)
    (Order : Z) (S : RWGSurface) (Ea Eb : RWGEdge) :
  aget (Surfaces G) nsa = Ok S ->
  aget (Edges S) nea = Ok Ea ->
  aget (Edges S) neb = Ok Eb ->
  edge_vertices_ok S Ea = true ->
  tcr_ok Order = true ->
  exists me1 me2,
    GetEPPFTMatrixElements_Cubature G nsa nsb nea neb k mask1 Order = Ok me1
    /\ GetEPPFTMatrixElements_Cubature G nsa nsb nea neb k mask2 Order
       = Ok me2
    /\ same_unmasked_outputs me1 me2.
Proof.
  intros HS HEa HEb Hv Htcr.
  destruct (GetEPPFTMatrixElements_Cubature_total G nsa nsb nea neb
              k mask1 Order S Ea Eb HS HEa HEb Hv Htcr) as [me1 H].
  exists me1. rewrite H.
  unfold GetEPPFTMatrixElements_Cubature in *.
  rewrite HS in *. cbn [bind] in *. rewrite HEa in *. cbn [bind] in *.
  rewrite HEb in *. cbn [bind] in *.
  apply bind_Ok in H as [QP [HQP H]].
  apply bind_Ok in H as [V1 [HV1 H]].
  apply bind_Ok in H as [V2 [HV2 H]].
  apply bind_Ok in H as [QM [HQM H]].
  rewrite HQP. cbn [bind]. rewrite HV1. cbn [bind].
  rewrite HV2. cbn [bind]. rewrite HQM. cbn [bind].
  cbv zeta in H |- *.
  destruct (GetTCR Order) as [NumPts TCR].
  unfold for_loop in *.
  eapply for_each_related with (R := same_unmasked_outputs) in H
    as [me2 [Hrun HR]].
  - exists me2. split; [reflexivity |]. split; [exact Hrun | exact HR].
  - intros np s1 s2 s1' _ HR Hbody.
    apply bind_Ok in Hbody as [pg [Hpg Hbody]]. apply Ok_inj in Hbody.
    subst s1'. rewrite Hpg. cbn [bind]. eexists. split; [reflexivity |].
    now apply CubatureStep_unmasked.
  - repeat split.
Qed.

Lemma for_loop_two {St} (body : Z -> St -> result St) (s : St) :
  for_loop 2 body s = (s1 <- body 0 s ;; s2 <- body 1 s1 ;; Ok s2).
Proof. reflexivity. Qed.

(** A sub-pair without a common vertex is left to the cubature. *)
Lemma TD_PairBody_skip (S : RWGSurface) (Ea Eb : RWGEdge) (LL : double)
    (k : cdouble) (A B : Z) (st : TDState) :
  shares_vertex S Ea Eb A B = false ->
  TD_PairBody S S Ea Eb LL k A B st = Ok st.
Proof.
  unfold shares_vertex, edge_panel, TD_PairBody. cbv zeta.
  now intros ->.
Qed.

(** X22.  When the cubature integrator is all there is.  With
    [SCUFF_FORCECUBATURE] set in the environment, or for edges of two
    different surfaces, or when no sub-pair of panels is assessed to have
    a common vertex, [GetEPPFTMatrixElements] makes no Taylor-Duffy
    correction: it returns what [GetEPPFTMatrixElements_Cubature] returns
    with nothing omitted. *)
Theorem GetEPPFTMatrixElements_pure_cubature (G : RWGGeometry)
    (nsa nsb nea neb : Z) (k : cdouble) (Order : Z)
    (Sa Sb : RWGSurface) (Ea Eb : RWGEdge) :
  aget (Surfaces G) nsa = Ok Sa ->
  aget (Surfaces G) nsb = Ok Sb ->
  aget (Edges Sa) nea = Ok Ea ->
  aget (Edges Sb) neb = Ok Eb ->
  getenv "SCUFF_FORCECUBATURE" <> None
  \/ nsa <> nsb
  \/ no_common_vertex Sa Ea Eb = true ->
  GetEPPFTMatrixElements G nsa nsb nea neb k Order
  = GetEPPFTMatrixElements_Cubature G nsa nsb nea neb k no_omission Order.
Proof.
  intros HSa HSb HEa HEb Hcase. unfold GetEPPFTMatrixElements.
  rewrite HSa. cbn [bind]. rewrite HSb. cbn [bind].
  rewrite HEa. cbn [bind]. rewrite HEb. cbn [bind]. cbv zeta.
  assert (Hst :
    (if (nsa =? nsb)
        && negb match getenv "SCUFF_FORCECUBATURE" with
                | Some _ => true
                | None => false
                end
     then for_loop 2
            (fun A st =>
               for_loop 2
                 (TD_PairBody Sa Sb Ea Eb (Length Ea * Length Eb)%Qc k A) st)
            TD_init
     else Ok TD_init) = Ok TD_init).
  { destruct (nsa =? nsb) eqn:Hns; [| reflexivity].
    destruct (getenv "SCUFF_FORCECUBATURE") eqn:Henv; [reflexivity |].
    cbn [negb andb].
    destruct Hcase as [Hc | [Hc | Hc]];
      [congruence | apply Z.eqb_eq in Hns; contradiction |].
    apply Z.eqb_eq in Hns. subst nsb.
    assert (Sb = Sa) by congruence. subst Sb.
    unfold no_common_vertex in Hc. apply negb_true_iff in Hc.
    apply orb_false_iff in Hc as [Hc H11].
    apply orb_false_iff in Hc as [Hc H10].
    apply orb_false_iff in Hc as [H00 H01].
    rewrite for_loop_two. cbv beta.
    rewrite for_loop_two, (TD_PairBody_skip _ _ _ _ _ 0 0) by assumption.
    cbn [bind]. rewrite (TD_PairBody_skip _ _ _ _ _ 0 1) by assumption.
    cbn [bind].
    rewrite for_loop_two, (TD_PairBody_skip _ _ _ _ _ 1 0) by assumption.
    cbn [bind]. rewrite (TD_PairBody_skip _ _ _ _ _ 1 1) by assumption.
    reflexivity. }
  rewrite Hst. cbn [bind TD_init OmitPanelPair HaveTDContributions].
  apply bind_Ok_r.
Qed.

(** X23.  With all four sub-pairs omitted the cubature integrator returns
    exactly zero in [divbe], [divbh] and [bxe]: what is left to the
    Taylor-Duffy integrator is not integrated twice. *)
Theorem cubature_all_omitted (G : RWGGeometry) (nsa nsb nea neb : Z)
    (k : cdouble) (Order : Z) (S : RWGSurface) (Ea Eb : RWGEdge) :
  aget (Surfaces G) nsa = Ok S ->
  aget (Edges S) nea = Ok Ea ->
  aget (Edges S) neb = Ok Eb ->
  edge_vertices_ok S Ea = true ->
  tcr_ok Order = true ->
  exists me,
    GetEPPFTMatrixElements_Cubature G nsa nsb nea neb k all_omitted Order
    = Ok me
    /\ divbe me = cvzero /\ divbh me = cvzero /\ bxe me = cvzero.
Proof.
  intros HS HEa HEb Hv Htcr.
  destruct (GetEPPFTMatrixElements_Cubature_total G nsa nsb nea neb
              k all_omitted Order S Ea Eb HS HEa HEb Hv Htcr) as [me H].
  exists me. split; [exact H |].
  exact (cubature_all_omitted_zero _ _ _ _ _ _ _ _ H).
Qed.

End MatrixElementTheorems.

(** * The theorems at concrete inputs *)

Module Examples.
Import Fixture.

(** Edges 0 and 5 of the tetrahedron lie on opposite pairs of faces. *)
Lemma GetOverlaps_disjoint_support_zero_witness :
  disjoint_support edge0 edge5 = true
  /\ GetOverlaps (X := env) tetra 0 5 = Ok (repeat 0%Qc 20).
Proof.
  split; [reflexivity |].
  apply (GetOverlaps_disjoint_support_zero (X := env) tetra 0 5 edge0 edge5);
    reflexivity.
Defined.

(** Edge 0 of the tetrahedron: itself and the other two edges of the faces
    0 and 1. *)
Lemma GetOverlappingEdgeIndices_superset_witness :
  wf_mesh tetra = true
  /\ exists r PP,
       GetOverlappingEdgeIndices tetra 0 (repeat 0 5) = Ok r
       /\ fst r = (if iMPanel edge0 =? -1 then 3 else 5)
       /\ List.length (enumerated r) = Z.to_nat (fst r)
       /\ nth_error (enumerated r) 0 = Some 0
       /\ aget (Panels tetra) (iPPanel edge0) = Ok PP
       /\ Permutation (panel_edges PP) (firstn 3 (enumerated r))
       /\ (iMPanel edge0 <> -1 ->
           exists PM, aget (Panels tetra) (iMPanel edge0) = Ok PM
                      /\ Permutation (panel_edges PM)
                                     (0 :: skipn 3 (enumerated r)))
       /\ (forall neb Overlaps,
             GetOverlaps (X := env) tetra 0 neb = Ok Overlaps ->
             Overlaps <> repeat 0%Qc 20 ->
             In neb (enumerated r)).
Proof.
  split; [reflexivity |].
  apply (GetOverlappingEdgeIndices_superset (X := env) tetra 0 edge0
                                            (repeat 0 5));
    reflexivity.
Defined.

(** What is enumerated for edge 0 of the tetrahedron. *)
Lemma GetOverlappingEdgeIndices_tetra_example :
  GetOverlappingEdgeIndices tetra 0 (repeat 0 5) = Ok (5, [0; 1; 3; 4; 2]).
Proof. reflexivity. Qed.

(** An open triangle: edge 1 has no negative panel and three entries are
    enumerated. *)
Lemma GetOverlappingEdgeIndices_boundary_example :
  GetOverlappingEdgeIndices open_triangle 1 (repeat 0 5)
  = Ok (3, [1; 2; 0; 0; 0]).
Proof. reflexivity. Qed.

(** C1 as stated fails.  With the sub-pair (positive, positive) omitted,
    replacing the fields of that sub-pair alone changes [be] (and [bh],
    [bxh] and the torque outputs): the omitted sub-pair still contributes
    to them. *)
Lemma cubature_mask_counterexample :
  exists me me',
    GetEPPFTMatrixElements_Cubature (X := env) geometry 0 0 0 5 wavenumber
                                    omit_PP 4 = Ok me
    /\ GetEPPFTMatrixElements_Cubature
         (X := with_potentials env masked_potentials) geometry 0 0 0 5
         wavenumber omit_PP 4 = Ok me'
    /\ (forall np pg,
          SamplePoint (X := env) tetra edge0 4 np = Ok pg ->
          agree_off_mask omit_PP
            (GetNearbyFields (X := env) geometry 0 edge5 pg wavenumber)
            (GetNearbyFields (X := with_potentials env masked_potentials)
                             geometry 0 edge5 pg wavenumber))
    /\ be me <> be me'.
Proof.
  do 2 eexists.
  split; [vm_compute; reflexivity |].
  split; [vm_compute; reflexivity |].
  split.
  - intros np pg H.
    assert (np = 0).
    { unfold SamplePoint in H. simpl in H.
      destruct ((0 <=? np) && (np <? 1)) eqn:Hnp; [| discriminate].
      apply andb_true_iff in Hnp as [H0 H1].
      apply Z.leb_le in H0. apply Z.ltb_lt in H1. lia. }
    subst np. vm_compute in H. injection H as <-.
    repeat split; intros; try discriminate; vm_compute; reflexivity.
  - intros H. apply (f_equal (fun z => this (real z))) in H.
    vm_compute in H. discriminate H.
Qed.

Lemma sample_points_agree :
  forall np pg,
    SamplePoint (X := env) tetra edge0 4 np = Ok pg ->
    agree_off_mask omit_PP
      (GetNearbyFields (X := env) geometry 0 edge5 pg wavenumber)
      (GetNearbyFields (X := with_potentials env masked_potentials)
                       geometry 0 edge5 pg wavenumber).
Proof.
  intros np pg H.
  assert (np = 0).
  { unfold SamplePoint in H. simpl in H.
    destruct ((0 <=? np) && (np <? 1)) eqn:Hnp; [| discriminate].
    apply andb_true_iff in Hnp as [H0 H1].
    apply Z.leb_le in H0. apply Z.ltb_lt in H1. lia. }
  subst np. vm_compute in H. injection H as <-.
  repeat split; intros; try discriminate; vm_compute; reflexivity.
Defined.

(** The same two runs agree on [divbe], [divbh] and [bxe]. *)
Lemma cubature_mask_divb_bxe_witness :
  exists me me',
    GetEPPFTMatrixElements_Cubature (X := env) geometry 0 0 0 5 wavenumber
                                    omit_PP 4 = Ok me
    /\ GetEPPFTMatrixElements_Cubature
         (X := with_potentials env masked_potentials) geometry 0 0 0 5
         wavenumber omit_PP 4 = Ok me'
    /\ divbe me' = divbe me /\ divbh me' = divbh me /\ bxe me' = bxe me.
Proof.
  apply (cubature_mask_divb_bxe env masked_potentials geometry 0 0 0 5
           wavenumber omit_PP 4 tetra edge0 edge5);
    try reflexivity.
  exact sample_points_agree.
Defined.

(** C2 as stated fails on a call that an entry check rejects.  On the PEC
    path of [GetEPPFTTrace] the vector is zeroed and the per-edge rows,
    which are zero-initialised only after the check, keep what the caller
    left in them. *)
Lemma GetEPPFTTrace_PEC_stale_rows :
  exists out row,
    GetEPPFTTrace (X := env) geometry 1 Omega (Some currents) None
                  (stale_rows 6) true = Ok out
    /\ PFT out = repeat 0%Qc 7
    /\ ByEdgeRow (ByEdgeOut out) 0 = Some row
    /\ edge_total (NumEdges pec_tetra) row = D 42
    /\ edge_total (NumEdges pec_tetra) row
       <> nth (EPPFT_slot 0) (PFT out) 0%Qc.
Proof.
  do 2 eexists.
  split; [reflexivity |].
  split; [reflexivity |].
  split; [reflexivity |].
  split.
  - apply Qc_is_canon. reflexivity.
  - intros H. apply (f_equal this) in H. vm_compute in H. discriminate H.
Qed.

(** Edges 0 and 1 of the tetrahedron: all four sub-pairs share vertices. *)
Lemma GetEPPFTMatrixElements_TD_contribution_witness :
  exists me cub,
    GetEPPFTMatrixElements (X := env) geometry 0 0 0 1 wavenumber 4 = Ok me
    /\ GetEPPFTMatrixElements_Cubature (X := env) geometry 0 0 0 1 wavenumber
         (TDMask (X := env) tetra edge0 edge1) 4 = Ok cub
    /\ divbe me
       = v3map2 C.add (divbe cub)
                (TDTotal (X := env) td_divbe tetra edge0 edge1 wavenumber)
    /\ divbh me
       = v3map2 C.add (divbh cub)
                (TDTotal (X := env) td_divbh tetra edge0 edge1 wavenumber)
    /\ bxe me
       = v3map2 C.add (bxe cub)
                (TDTotal (X := env) td_bxe tetra edge0 edge1 wavenumber).
Proof.
  destruct (GetEPPFTMatrixElements_TD_contribution (X := env) geometry 0 0 1
              wavenumber 4 tetra edge0 edge1)
    as [Hpartial Htotal]; try reflexivity.
  destruct Htotal as [me Hme]; try reflexivity.
  destruct (Hpartial me Hme) as [cub [Hcub [H1 [H2 [H3 _]]]]].
  exists me, cub. repeat split; assumption.
Defined.

(** A negative surface index. *)
Lemma invalid_surface_index_witness :
  GetOPFT (X := env) geometry (-1) Omega (Some currents) None None
          (stale_rows 6)
  = Ok (mkOutput (repeat 0%Qc 8) (stale_rows 6)
                 [EvWarn "GetOPFT called for unknown surface #i"])
  /\ GetEPPFTTrace (X := env) geometry (-1) Omega (Some currents) None
                   (stale_rows 6) true
     = Fault OutOfBounds.
Proof.
  apply (invalid_surface_index (X := env) geometry (-1) Omega
           (Some currents) None None (stale_rows 6) true).
  left. lia.
Defined.



(** The dielectric tetrahedron with a current and an excitation vector. *)
Lemma GetOPFT_extinction_slot_witness :
  exists out,
    GetOPFT (X := env) geometry 0 Omega (Some currents) (Some excitation)
            None (stale_rows 6) = Ok out
    /\ nth 1 (PFT out) 0%Qc
       = (ExtinctionSum (X := env) tetra 0 currents excitation
          - nth 0 (PFT out) 0%Qc)%Qc.
Proof.
  destruct (GetOPFT_extinction_slot (X := env) geometry 0 Omega
              (Some currents) (Some excitation) None (stale_rows 6))
    as [Hpartial Htotal].
  destruct (Htotal tetra 0 vacuum) as [out Hout];
    try reflexivity; [left; discriminate |].
  exists out. split; [exact Hout |].
  destruct (Hpartial out Hout) as [H _].
  apply (H tetra 0 currents excitation); reflexivity.
Defined.

(** The PEC tetrahedron. *)
Lemma GetEPPFTTrace_PEC_zero_witness :
  GetEPPFTTrace (X := env) geometry 1 Omega (Some currents) None
                (stale_rows 6) true
  = Ok (mkOutput (repeat 0%Qc 7) (stale_rows 6)
                 [EvWarn "EPPFTTrace() not implemented for PEC bodies"]).
Proof.
  apply (GetEPPFTTrace_PEC_zero (X := env) geometry 1 Omega (Some currents)
           None (stale_rows 6) true pec_tetra 12);
    [reflexivity | reflexivity | left; reflexivity].
Defined.

(** The open PEC triangle with its three half-RWG functions. *)
Lemma GetOPFT_PEC_absorbed_power_zero_witness :
  exists out,
    GetOPFT (X := env) geometry 3 Omega (Some currents) None None
            (stale_rows 3) = Ok out
    /\ nth 0 (PFT out) 0%Qc = 0%Qc.
Proof.
  destruct (GetOPFT_PEC_absorbed_power_zero (X := env) geometry 3 Omega
              currents None None (stale_rows 3) open_triangle)
    as [_ Htotal]; [reflexivity | reflexivity |].
  apply (Htotal 18 vacuum); reflexivity.
Defined.

(** Reduction consistency on the dielectric tetrahedron, for both
    routines. *)
Lemma reduction_consistency_example :
  (exists out,
      GetOPFT (X := env) geometry 0 Omega (Some currents) (Some excitation)
              None (stale_rows 6) = Ok out
      /\ forall q row, 0 <= q < 7 ->
           ByEdgeRow (ByEdgeOut out) q = Some row ->
           edge_total 6 row = nth (OPFT_slot q) (PFT out) 0%Qc)
  /\ (exists out,
        GetEPPFTTrace (X := env) geometry 0 Omega None (Some correlations)
                      (stale_rows 6) false = Ok out
        /\ forall q row, 0 <= q < 7 ->
             ByEdgeRow (ByEdgeOut out) q = Some row ->
             edge_total 6 row = nth (EPPFT_slot q) (PFT out) 0%Qc).
Proof.
  split.
  - destruct (GetOPFT_total (X := env) geometry 0 Omega (Some currents)
                (Some excitation) None (stale_rows 6) tetra 0 vacuum)
      as [out Hout]; try reflexivity; [left; discriminate |].
    exists out. split; [exact Hout |].
    apply (GetOPFT_reduction_consistency (X := env) geometry 0 Omega
             (Some currents) (Some excitation) None (stale_rows 6) tetra out);
      [reflexivity | exact Hout].
  - destruct (GetEPPFTTrace_total (X := env) geometry 0 Omega None
                (Some correlations) (stale_rows 6) false tetra 0 vacuum glass)
      as [out Hout]; try reflexivity;
      [discriminate | right; discriminate |].
    exists out. split; [exact Hout |].
    apply (GetEPPFTTrace_reduction_consistency (X := env) geometry 0 Omega
             None (Some correlations) (stale_rows 6) false tetra out);
      [reflexivity | reflexivity | discriminate | exact Hout].
Qed.

End Examples.
(** * The further properties at concrete inputs *)

Module MoreExamples.
Import Fixture.

Lemma env_exact_vector_algebra : exact_vector_algebra env.
Proof. split; intros a b; reflexivity. Qed.

(** Edges 0 and 1 of the tetrahedron, which share face 0; there is no
    edge 7. *)
Lemma GetOverlaps_in_bounds_witness :
  (exists O, GetOverlaps (X := env) tetra 0 1 = Ok O
             /\ List.length O = 20%nat)
  /\ GetOverlaps (X := env) tetra 0 7 = Fault OutOfBounds.
Proof.
  split.
  - apply (proj1 (GetOverlaps_in_bounds (X := env) tetra 0 1)); reflexivity.
  - apply (proj2 (GetOverlaps_in_bounds (X := env) tetra 0 7)).
    right. reflexivity.
Defined.

Lemma GetOverlaps_overlap_symmetric_witness :
  wf_surface tetra = true
  /\ exists Oab Oba,
       GetOverlaps (X := env) tetra 0 1 = Ok Oab
       /\ GetOverlaps (X := env) tetra 1 0 = Ok Oba
       /\ ov Oab OVERLAP_OVERLAP = ov Oba OVERLAP_OVERLAP.
Proof.
  split; [reflexivity |].
  apply (GetOverlaps_overlap_symmetric (X := env) tetra 0 1 edge0 edge1);
    [exact env_exact_vector_algebra | reflexivity ..].
Defined.

Lemma GetOverlaps_cross_antisymmetric_witness :
  wf_surface tetra = true
  /\ exists Oab Oba,
       GetOverlaps (X := env) tetra 0 1 = Ok Oab
       /\ GetOverlaps (X := env) tetra 1 0 = Ok Oba
       /\ ov Oab OVERLAP_CROSS = (- ov Oba OVERLAP_CROSS)%Qc
       /\ (0 = 1 -> ov Oab OVERLAP_CROSS = 0%Qc).
Proof.
  split; [reflexivity |].
  apply (GetOverlaps_cross_antisymmetric (X := env) tetra 0 1 edge0 edge1);
    [exact env_exact_vector_algebra | reflexivity ..].
Defined.

Lemma GetOverlap_exchange_witness :
  wf_surface tetra = true
  /\ exists overlap crossed,
       GetOverlap (X := env) tetra 0 1 true = Ok (overlap, Some crossed)
       /\ GetOverlap (X := env) tetra 1 0 true
          = Ok (overlap, Some (- crossed)%Qc)
       /\ GetOverlap (X := env) tetra 0 1 false = Ok (overlap, None).
Proof.
  split; [reflexivity |].
  apply (GetOverlap_exchange (X := env) tetra 0 1 edge0 edge1);
    [exact env_exact_vector_algebra | reflexivity ..].
Defined.

(** The plain and the crossed overlap of edges 0 and 1 of the
    tetrahedron, in both orders. *)
Lemma GetOverlaps_tetra_example :
  exists Oab Oba,
    GetOverlaps (X := env) tetra 0 1 = Ok Oab
    /\ GetOverlaps (X := env) tetra 1 0 = Ok Oba
    /\ map this (firstn 2 Oab) = [(-1 # 6)%Q; (-1 # 6)%Q]
    /\ map this (firstn 2 Oba) = [(-1 # 6)%Q; (1 # 6)%Q].
Proof.
  do 2 eexists. split; [reflexivity |]. split; [reflexivity |].
  split; vm_compute; reflexivity.
Qed.

(** Edge 0 of the tetrahedron, with a zeroed and with a stale array. *)
Lemma GetOverlappingEdgeIndices_ignores_array_witness :
  exists r2,
    GetOverlappingEdgeIndices tetra 0 [9; 9; 9; 9; 9] = Ok r2
    /\ fst r2 = 5
    /\ enumerated r2 = [0; 1; 3; 4; 2].
Proof.
  apply (GetOverlappingEdgeIndices_ignores_array tetra 0
           (repeat 0 5) [9; 9; 9; 9; 9] (5, [0; 1; 3; 4; 2]));
    reflexivity.
Defined.

(** The dielectric tetrahedron with a current and an excitation vector. *)
Lemma GetOPFT_rows_sum_to_PFT_witness :
  exists out,
    GetOPFT (X := env) geometry 0 Omega (Some currents) (Some excitation)
            None (stale_rows 6) = Ok out
    /\ Events out = []
    /\ ByEdge_layout (ByEdgeOut out) = ByEdge_layout (stale_rows 6)
    /\ forall q row, 0 <= q < 7 ->
         ByEdgeRow (ByEdgeOut out) q = Some row ->
         edge_total (NumEdges tetra) row = nth (OPFT_slot q) (PFT out) 0%Qc.
Proof.
  apply (GetOPFT_rows_sum_to_PFT (X := env) geometry 0 Omega (Some currents)
           (Some excitation) None (stale_rows 6) tetra 0 vacuum);
    try reflexivity.
  left. discriminate.
Defined.

(** The dielectric tetrahedron, with the stale rows of the caller: after
    an accepted call of either routine the power row sums to the power. *)
Lemma reduction_consistency_on_accepted_calls_witness :
  aget (Surfaces geometry) 0 = Ok tetra
  /\ (exists out row,
        GetOPFT (X := env) geometry 0 Omega (Some currents)
                (Some excitation) None (stale_rows 6) = Ok out
        /\ ByEdgeRow (ByEdgeOut out) 0 = Some row
        /\ edge_total (NumEdges tetra) row
           = nth (OPFT_slot 0) (PFT out) 0%Qc)
  /\ (exists out row,
        GetEPPFTTrace (X := env) geometry 0 Omega (Some currents) None
                      (stale_rows 6) true = Ok out
        /\ ByEdgeRow (ByEdgeOut out) 0 = Some row
        /\ edge_total (NumEdges tetra) row
           = nth (EPPFT_slot 0) (PFT out) 0%Qc).
Proof.
  split; [reflexivity |].
  destruct (reduction_consistency_on_accepted_calls (X := env) geometry 0
              Omega (Some currents) (Some excitation) None (stale_rows 6)
              true tetra eq_refl)
    as (Hopft & Heppft & Hret1 & Hret2).
  split.
  - destruct (Hret1 0 vacuum) as [out Hout];
      try reflexivity; [left; discriminate |].
    destruct (Hopft out Hout 0 (repeat (D 7) 6)) as (row & Hrow & Hsum);
      [lia | reflexivity |].
    exists out, row. repeat split; assumption.
  - assert (HIn : snd (RegionIndices tetra) <> -1) by discriminate.
    destruct (Hret2 0 vacuum glass) as [out Hout];
      try reflexivity; [exact HIn | left; discriminate |].
    destruct (Heppft eq_refl HIn out Hout 0 (repeat (D 7) 6))
      as (row & Hrow & Hsum); [lia | reflexivity |].
    exists out, row. repeat split; assumption.
Defined.


Lemma GetOPFT_RHS_only_scattered_power_witness :
  exists out out0,
    GetOPFT (X := env) geometry 0 Omega (Some currents) (Some excitation)
            None (stale_rows 6) = Ok out
    /\ GetOPFT (X := env) geometry 0 Omega (Some currents) None
               None (stale_rows 6) = Ok out0
    /\ ByEdgeOut out0 = ByEdgeOut out
    /\ Events out0 = Events out
    /\ nth 1 (PFT out0) 0%Qc = 0%Qc
    /\ forall n, n <> 1%nat -> nth n (PFT out0) 0%Qc = nth n (PFT out) 0%Qc.
Proof.
  destruct (GetOPFT_total (X := env) geometry 0 Omega (Some currents)
              (Some excitation) None (stale_rows 6) tetra 0 vacuum)
    as [out Hout]; try reflexivity; [left; discriminate |].
  exists out.
  destruct (GetOPFT_RHS_only_scattered_power (X := env) geometry 0 Omega
              (Some currents) (Some excitation) None (stale_rows 6) out Hout)
    as [out0 H].
  exists out0. split; [exact Hout | exact H].
Defined.

(** The PEC tetrahedron, whose coefficients start at offset 12. *)
Lemma GetOPFT_PEC_scattered_is_extinction_witness :
  exists out,
    GetOPFT (X := env) geometry 1 Omega (Some currents) (Some excitation)
            None (stale_rows 6) = Ok out
    /\ nth 1 (PFT out) 0%Qc
       = fold_right Qcplus 0%Qc
           (map (fun ne : Z =>
                   (lit 1 2
                    * real (C.conj (currents (12 + ne)%Z)
                            * ((- ZVAC (Collaborators := env))%Qc
                               *: excitation (12 + ne)%Z))%C)%Qc)
                (range (NumEdges pec_tetra))).
Proof.
  apply (GetOPFT_PEC_scattered_is_extinction (X := env) geometry 1 Omega
           currents excitation None (stale_rows 6) pec_tetra 12 vacuum);
    reflexivity.
Defined.

(** The frequency and the two media of the fixtures are regular. *)
Lemma fixture_nondegenerate :
  nondegenerate (X := env) Omega [vacuum; glass].
Proof.
  assert (nz : forall z : cdouble, C.eqb z C.zero = false -> nonzero z).
  { intros z Hz ->. discriminate Hz. }
  split; [now apply nz |]. split; [intro H; discriminate H |].
  repeat constructor; now apply nz.
Qed.

Lemma GetOPFT_zero_currents_witness :
  exists out,
    GetOPFT (X := env) geometry 0 Omega (Some (fun _ => C.zero))
            (Some excitation) None (stale_rows 6) = Ok out
    /\ PFT out = repeat 0%Qc 8.
Proof.
  apply (GetOPFT_zero_currents (X := env) geometry 0 Omega
           (Some (fun _ => C.zero)) (Some excitation) None (stale_rows 6)
           tetra 0 vacuum);
    try reflexivity.
  - destruct fixture_nondegenerate as (H1 & H2 & H3).
    split; [exact H1 |]. split; [exact H2 |].
    constructor; [exact (Forall_inv H3) | constructor].
  - intro n. reflexivity.
Defined.


(** The currents of the tetrahedron multiplied by 3. *)
Lemma GetOPFT_quadratic_in_currents_witness :
  exists out out',
    GetOPFT (X := env) geometry 0 Omega (Some currents) (Some excitation)
            None (stale_rows 6) = Ok out
    /\ GetOPFT (X := env) geometry 0 Omega
               (Some (scale_currents (D 3) currents)) (Some excitation)
               None (stale_rows 6) = Ok out'
    /\ Events out' = Events out
    /\ ByEdge_layout (ByEdgeOut out') = ByEdge_layout (ByEdgeOut out)
    /\ forall n, n <> 1%nat ->
         nth n (PFT out') 0%Qc = (D 3 * D 3 * nth n (PFT out) 0%Qc)%Qc.
Proof.
  destruct (GetOPFT_total (X := env) geometry 0 Omega (Some currents)
              (Some excitation) None (stale_rows 6) tetra 0 vacuum)
    as [out Hout]; try reflexivity; [left; discriminate |].
  exists out.
  destruct (GetOPFT_quadratic_in_currents (X := env) (D 3) geometry 0 Omega
              currents (Some excitation) None (stale_rows 6) out Hout)
    as [out' H].
  exists out'. split; [exact Hout | exact H].
Defined.

Lemma GetEPPFTTrace_quadratic_in_currents_witness :
  exists out out',
    GetEPPFTTrace (X := env) geometry 0 Omega (Some currents) None
                  (stale_rows 6) true = Ok out
    /\ GetEPPFTTrace (X := env) geometry 0 Omega
                     (Some (scale_currents (D 3) currents)) None
                     (stale_rows 6) true = Ok out'
    /\ Events out' = Events out
    /\ ByEdge_layout (ByEdgeOut out') = ByEdge_layout (ByEdgeOut out)
    /\ PFT out' = map (Qcmult (D 3 * D 3)) (PFT out).
Proof.
  destruct (GetEPPFTTrace_total (X := env) geometry 0 Omega (Some currents)
              None (stale_rows 6) true tetra 0 vacuum glass)
    as [out Hout]; try reflexivity; [discriminate | left; discriminate |].
  exists out.
  destruct (GetEPPFTTrace_quadratic_in_currents (X := env) (D 3) geometry 0
              Omega currents None (stale_rows 6) true out Hout)
    as [out' H].
  exists out'. split; [exact Hout | exact H].
Defined.

(** The correlation matrix of the tetrahedron multiplied by 3. *)
Lemma GetOPFT_linear_in_matrix_witness :
  exists out out',
    GetOPFT (X := env) geometry 0 Omega None None (Some correlations)
            (stale_rows 6) = Ok out
    /\ GetOPFT (X := env) geometry 0 Omega None None
               (Some (scale_matrix (D 3) correlations)) (stale_rows 6)
       = Ok out'
    /\ Events out' = Events out
    /\ ByEdge_layout (ByEdgeOut out') = ByEdge_layout (ByEdgeOut out)
    /\ forall n, nth n (PFT out') 0%Qc = (D 3 * nth n (PFT out) 0%Qc)%Qc.
Proof.
  destruct (GetOPFT_total (X := env) geometry 0 Omega None None
              (Some correlations) (stale_rows 6) tetra 0 vacuum)
    as [out Hout]; try reflexivity; [right; discriminate |].
  exists out.
  destruct (GetOPFT_linear_in_matrix (X := env) (D 3) geometry 0 Omega None
              correlations (stale_rows 6) out Hout)
    as [out' H].
  exists out'. split; [exact Hout | exact H].
Defined.

Lemma GetEPPFTTrace_linear_in_matrix_witness :
  exists out out',
    GetEPPFTTrace (X := env) geometry 0 Omega None (Some correlations)
                  (stale_rows 6) false = Ok out
    /\ GetEPPFTTrace (X := env) geometry 0 Omega None
                     (Some (scale_matrix (D 3) correlations))
                     (stale_rows 6) false = Ok out'
    /\ Events out' = Events out
    /\ ByEdge_layout (ByEdgeOut out') = ByEdge_layout (ByEdgeOut out)
    /\ PFT out' = map (Qcmult (D 3)) (PFT out).
Proof.
  destruct (GetEPPFTTrace_total (X := env) geometry 0 Omega None
              (Some correlations) (stale_rows 6) false tetra 0 vacuum glass)
    as [out Hout]; try reflexivity; [discriminate | right; discriminate |].
  exists out.
  destruct (GetEPPFTTrace_linear_in_matrix (X := env) (D 3) geometry 0
              Omega correlations (stale_rows 6) false out Hout)
    as [out' H].
  exists out'. split; [exact Hout | exact H].
Defined.

(** The tetrahedron with and without per-edge arrays. *)
Lemma GetOPFT_totals_without_rows_witness :
  exists out out0,
    GetOPFT (X := env) geometry 0 Omega (Some currents) (Some excitation)
            None (stale_rows 6) = Ok out
    /\ GetOPFT (X := env) geometry 0 Omega (Some currents)
               (Some excitation) None None = Ok out0
    /\ PFT out0 = PFT out
    /\ Events out0 = Events out
    /\ ByEdgeOut out0 = None.
Proof.
  destruct (GetOPFT_total (X := env) geometry 0 Omega (Some currents)
              (Some excitation) None (stale_rows 6) tetra 0 vacuum)
    as [out Hout]; try reflexivity; [left; discriminate |].
  exists out.
  destruct (GetOPFT_totals_without_rows (X := env) geometry 0 Omega
              (Some currents) (Some excitation) None (stale_rows 6) out
              Hout)
    as [out0 H].
  exists out0. split; [exact Hout | exact H].
Defined.

Lemma GetEPPFTTrace_totals_without_rows_witness :
  exists out out0,
    GetEPPFTTrace (X := env) geometry 0 Omega (Some currents) None
                  (stale_rows 6) true = Ok out
    /\ GetEPPFTTrace (X := env) geometry 0 Omega (Some currents) None
                     None true = Ok out0
    /\ PFT out0 = PFT out
    /\ Events out0 = Events out
    /\ ByEdgeOut out0 = None.
Proof.
  destruct (GetEPPFTTrace_total (X := env) geometry 0 Omega (Some currents)
              None (stale_rows 6) true tetra 0 vacuum glass)
    as [out Hout]; try reflexivity; [discriminate | left; discriminate |].
  exists out.
  destruct (GetEPPFTTrace_totals_without_rows (X := env) geometry 0 Omega
              (Some currents) None (stale_rows 6) true out Hout)
    as [out0 H].
  exists out0. split; [exact Hout | exact H].
Defined.

(** Every neighbour of edge 0 of the tetrahedron is an edge. *)
Lemma GetOPFT_needs_edge_neighbours_witness :
  exists r,
    GetOverlappingEdgeIndices tetra 0 (repeat 0 5) = Ok r
    /\ forallb (has_edge tetra) (enumerated r) = true.
Proof.
  destruct (GetOPFT_total (X := env) geometry 0 Omega (Some currents)
              (Some excitation) None (stale_rows 6) tetra 0 vacuum)
    as [out Hout]; try reflexivity; [left; discriminate |].
  apply (GetOPFT_needs_edge_neighbours (X := env) geometry 0 Omega
           (Some currents) (Some excitation) None (stale_rows 6) tetra out);
    [reflexivity | exact Hout | reflexivity].
Defined.

(** Two triangles that share one edge, the only basis function; the four
    outer edges are entered in [EI] as [-1 .. -4]. *)
Lemma GetOPFT_exterior_edge_example :
  GetOPFT (X := env)
          (mkGeometry [open_square] [0] [vacuum]) 0 Omega
          (Some currents) None None None
  = Fault OutOfBounds.
Proof. reflexivity. Qed.

Lemma GetEPPFTTrace_needs_full_edges_witness :
  pair_count_fits tetra = true
  /\ forallb (edge_vertices_ok tetra) (Edges tetra) = true.
Proof.
  assert (Hret : exists out,
             GetEPPFTTrace (X := env) geometry 0 Omega (Some currents)
                           None (stale_rows 6) true = Ok out).
  { apply (GetEPPFTTrace_total (X := env) geometry 0 Omega (Some currents)
             None (stale_rows 6) true tetra 0 vacuum glass);
      try reflexivity; [discriminate | left; discriminate]. }
  destruct Hret as [out Hout].
  split; [reflexivity |].
  apply (GetEPPFTTrace_needs_full_edges (X := env) geometry 0 Omega
           (Some currents) None (stale_rows 6) true tetra out);
    [reflexivity | reflexivity | discriminate | reflexivity | exact Hout].
Defined.

(** The triangle without basis functions, with no current state at all. *)
Lemma no_edges_zero_result_witness :
  (exists out,
      GetOPFT (X := env) geometry 2 Omega None None None (stale_rows 0)
      = Ok out
      /\ PFT out = repeat 0%Qc 8 /\ Events out = [])
  /\ (exists out,
        GetEPPFTTrace (X := env) geometry 2 Omega None None (stale_rows 0)
                      true = Ok out
        /\ PFT out = repeat 0%Qc 7).
Proof.
  destruct (no_edges_zero_result (X := env) geometry 2 Omega None None None
              (stale_rows 0) true bare_triangle 18 vacuum)
    as [H1 H2]; try reflexivity.
  split; [exact H1 |].
  apply H2; [reflexivity |]. exists glass. reflexivity.
Defined.

(** Edges 0 and 5 of the tetrahedron, with nothing and with everything
    omitted. *)
Lemma cubature_mask_leaves_other_outputs_witness :
  exists me1 me2,
    GetEPPFTMatrixElements_Cubature (X := env) geometry 0 0 0 5 wavenumber
                                    no_omission 9 = Ok me1
    /\ GetEPPFTMatrixElements_Cubature (X := env) geometry 0 0 0 5
                                       wavenumber all_omitted 9 = Ok me2
    /\ same_unmasked_outputs me1 me2.
Proof.
  apply (cubature_mask_leaves_other_outputs (X := env) geometry 0 0 0 5
           wavenumber no_omission all_omitted 9 tetra edge0 edge5);
    reflexivity.
Defined.

Lemma cubature_all_omitted_witness :
  exists me,
    GetEPPFTMatrixElements_Cubature (X := env) geometry 0 0 0 5 wavenumber
                                    all_omitted 9 = Ok me
    /\ divbe me = cvzero /\ divbh me = cvzero /\ bxe me = cvzero.
Proof.
  apply (cubature_all_omitted (X := env) geometry 0 0 0 5 wavenumber 9
           tetra edge0 edge5);
    reflexivity.
Defined.

(** An edge of the dielectric tetrahedron against an edge of the PEC
    tetrahedron: two different surfaces. *)
Lemma GetEPPFTMatrixElements_pure_cubature_witness :
  GetEPPFTMatrixElements (X := env) geometry 0 1 0 5 wavenumber 9
  = GetEPPFTMatrixElements_Cubature (X := env) geometry 0 1 0 5 wavenumber
                                    no_omission 9.
Proof.
  apply (GetEPPFTMatrixElements_pure_cubature (X := env) geometry 0 1 0 5
           wavenumber 9 tetra pec_tetra edge0 edge5);
    try reflexivity.
  right. left. discriminate.
Defined.

End MoreExamples.
